(** * Loss terms of boltz_binder_design: ESM2 pseudo-likelihood and fixed positions

    A shallow embedding of

      - [src/boltz_binder_design/losses/esm.py]
        ([boltz_to_esm_matrix], [ESM2PseudoLikelihood]) and
      - [src/boltz_binder_design/losses/fixed_positions.py]
        ([SetPositions], [FixedPositionsPenalty]).

    Conventions of the embedding.

    - An array element is a member of a type with the operations of the
      class [Scalar].  JAX runs the same Python code on concrete numbers and,
      under [jax.grad]/[jax.jvp], on tracers that carry a derivative; the two
      instances below are the real numbers (values, the idealisation of the
      floating point numbers the program computes with) and the dual numbers
      (a value with its tangent), on which [stop_gradient] is not the
      identity.
    - A two-dimensional array is a record of its static column count and the
      list of its rows ([Array2]); its shape is [(nrows a, ncols a)].
    - A Python exception is a value of [exn]; a fallible computation returns
      [result X = exn + X].
    - The two vocabularies [TOKENS] (from [..common]) and [ESM_TOKENS]
      ([esm2quinox._esm2._alphabet]) are not defined in the two source
      files: every definition takes them as parameters.  The pretrained
      model ([esm2quinox.ESM2]) is a parameter too, a record of what the
      source reads from it. *)

From Stdlib Require Import Reals Lra Lia ZArith Sorted.
From stdpp Require Import base gmap strings list.

Open Scope R_scope.

(** ** Exceptions and the error monad *)

(** [ShapeError op] stands for the [TypeError]/[ValueError] that JAX and numpy
    raise when operation [op] is given arrays of incompatible shapes. *)
Inductive exn : Type :=
| KeyError (key : string)
| IndexError
| ShapeError (op : string)
| AssertionError.

Definition result (X : Type) : Type := (exn + X)%type.

Definition ret {X : Type} (x : X) : result X := inr x.

Definition raise {X : Type} (e : exn) : result X := inl e.

Definition bind {X Y : Type} (c : result X) (k : X -> result Y) : result Y :=
  match c with
  | inl e => inl e
  | inr x => k x
  end.

Notation "x <- c ;; k" := (bind c (fun x => k))
  (at level 100, c at next level, right associativity).

(** [jax.vmap f] over a one-dimensional array of indices: [f] at every index,
    in order; the first exception is the exception of the whole.  JAX traces
    [f] once for the whole batch, also for an empty batch, over which this
    definition runs [f] at no index and raises nothing: what is stated of
    the passes of the scorer is stated of a non-empty sequence. *)
Fixpoint vmap {X Y : Type} (f : X -> result Y) (xs : list X) : result (list Y) :=
  match xs with
  | [] => ret []
  | x :: xs' => y <- f x ;; ys <- vmap f xs' ;; ret (y :: ys)
  end.

(** ** Scalars *)

Class Scalar (A : Type) : Type := {
  s_zero : A;
  s_one : A;
  s_add : A -> A -> A;
  s_sub : A -> A -> A;
  s_mul : A -> A -> A;
  s_div : A -> A -> A;
  s_neg : A -> A;
  s_exp : A -> A;
  s_log : A -> A;
  (** a Python [float] or [int] constant *)
  s_const : R -> A;
  (** [jax.lax.stop_gradient] *)
  stop_gradient : A -> A
}.

(** Values, over a given exponential [e] and logarithm [l]. *)
Definition R_scalar_with (e l : R -> R) : Scalar R := {|
  s_zero := 0;
  s_one := 1;
  s_add := Rplus;
  s_sub := Rminus;
  s_mul := Rmult;
  s_div := Rdiv;
  s_neg := Ropp;
  s_exp := e;
  s_log := l;
  s_const := fun c => c;
  stop_gradient := fun x => x
|}.

#[export] Instance R_scalar : Scalar R := R_scalar_with exp ln.

(** Values with a tangent: forward-mode differentiation along one direction
    of the differentiated arguments.  A gradient is zero exactly when the
    tangent of the output is zero along every direction. *)
Record dual : Type := mkDual { primal : R; tangent : R }.

(** The operations on dual numbers, over [e] and [l]. *)
Definition dual_scalar_with (e l : R -> R) : Scalar dual := {|
  s_zero := mkDual 0 0;
  s_one := mkDual 1 0;
  s_add := fun x y => mkDual (primal x + primal y) (tangent x + tangent y);
  s_sub := fun x y => mkDual (primal x - primal y) (tangent x - tangent y);
  s_mul := fun x y =>
    mkDual (primal x * primal y) (tangent x * primal y + primal x * tangent y);
  s_div := fun x y =>
    mkDual (primal x / primal y)
           ((tangent x * primal y - primal x * tangent y) / (primal y * primal y));
  s_neg := fun x => mkDual (- primal x) (- tangent x);
  s_exp := fun x => mkDual (e (primal x)) (tangent x * e (primal x));
  s_log := fun x => mkDual (l (primal x)) (tangent x / primal x);
  s_const := fun c => mkDual c 0;
  stop_gradient := fun x => mkDual (primal x) 0
|}.

#[export] Instance dual_scalar : Scalar dual := dual_scalar_with exp ln.

(** ** Arrays *)

Record Array2 (A : Type) : Type := mkArray2 { ncols : nat; rows : list (list A) }.

Arguments mkArray2 {A} ncols rows.
Arguments ncols {A} a.
Arguments rows {A} a.

Definition nrows {A : Type} (a : Array2 A) : nat := length (rows a).

Definition shape {A : Type} (a : Array2 A) : nat * nat := (nrows a, ncols a).

(** Every row has the static column count. *)
Definition wf_array {A : Type} (a : Array2 A) : Prop :=
  Forall (fun r => length r = ncols a) (rows a).

(** Entry [(i, j)], for statements. *)
Definition entry {A : Type} (d : A) (a : Array2 A) (i j : nat) : A :=
  nth j (nth i (rows a) []) d.

(** [jnp.arange(start, stop)]. *)
Definition arange (start stop : nat) : list nat := seq start (stop - start).

(** Python's reading of an integer index into an axis of length [n]:
    negative indices count from the end; [None] when out of range. *)
Definition norm_index (i : Z) (n : nat) : option nat :=
  if decide (0 <= i < Z.of_nat n)%Z then Some (Z.to_nat i)
  else if decide (- Z.of_nat n <= i < 0)%Z then Some (Z.to_nat (i + Z.of_nat n))
  else None.

(** Shapes [d1] and [d2] of one axis broadcast to a common length. *)
Definition broadcast_dim (d1 d2 : nat) : option nat :=
  if decide (d1 = d2) then Some d1
  else if decide (d1 = 1%nat) then Some d2
  else if decide (d2 = 1%nat) then Some d1
  else None.

(** An axis of length 1 repeated to length [n]; any other axis as it is. *)
Definition stretch {X : Type} (l : list X) (n : nat) : list X :=
  if decide (length l = n) then l
  else match l with
       | [x] => replicate n x
       | _ => l
       end.

(** Both axes of a two-dimensional array; the column axis is repeated when
    the static column count is 1 and [m] is not. *)
Definition stretch2 {A : Type} (a : Array2 A) (n m : nat) : Array2 A :=
  mkArray2 m
    (stretch (if decide (ncols a = m) then rows a
              else map (fun r => stretch r m) (rows a)) n).

(** [jnp.broadcast_to(a, (n, m))]. *)
Definition broadcast_to {A : Type} (a : Array2 A) (n m : nat) : result (Array2 A) :=
  if decide ((nrows a = n \/ nrows a = 1%nat) /\ (ncols a = m \/ ncols a = 1%nat))
  then ret (stretch2 a n m)
  else raise (ShapeError "broadcast_to").

(** An elementwise binary operation on two-dimensional arrays. *)
Definition elementwise2 {A : Type} (op : string) (f : A -> A -> A)
    (a b : Array2 A) : result (Array2 A) :=
  match broadcast_dim (nrows a) (nrows b), broadcast_dim (ncols a) (ncols b) with
  | Some n, Some m =>
      ret (mkArray2 m (zip_with (zip_with f) (rows (stretch2 a n m)) (rows (stretch2 b n m))))
  | _, _ => raise (ShapeError op)
  end.

(** An elementwise binary operation on one-dimensional arrays. *)
Definition elementwise1 {A : Type} (op : string) (f : A -> A -> A)
    (u v : list A) : result (list A) :=
  match broadcast_dim (length u) (length v) with
  | Some n => ret (zip_with f (stretch u n) (stretch v n))
  | None => raise (ShapeError op)
  end.

(** [d[k]] for a Python [dict]. *)
Definition dict_get (d : gmap string Z) (k : string) : result Z :=
  match d !! k with
  | Some v => ret v
  | None => raise (KeyError k)
  end.

Section Model.

Context {A : Type} `{SA : Scalar A}.

(** The design vocabulary, [TOKENS] of [boltz_binder_design.common]. *)
Variable TOKENS : list string.

(** The model vocabulary, [_alphabet] of [esm2quinox._esm2]: symbol to index. *)
Variable ESM_TOKENS : gmap string Z.

(** The type of PRNG keys. *)
Variable Key : Type.

Definition s_sum (l : list A) : A := foldr s_add s_zero l.

(** [x.mean()] of a one-dimensional array: the sum over the number of
    entries.  The mean of an empty array is NaN in the source, which no real
    number stands for: what is stated of a mean is stated of a non-empty
    array. *)
Definition mean (l : list A) : A := s_div (s_sum l) (s_const (INR (length l))).

(** [x.sum(-1)] of a two-dimensional array. *)
Definition sum_last (a : Array2 A) : list A := map s_sum (rows a).

(** [np.zeros((n, m))]. *)
Definition np_zeros (n m : nat) : Array2 A :=
  mkArray2 m (replicate n (replicate m s_zero)).

(** [jax.nn.one_hot(x, k)] for a scalar [x]: no entry is set when [x] is
    outside [0, k). *)
Definition one_hot (x : Z) (k : nat) : list A :=
  map (fun j : nat => if decide (x = Z.of_nat j) then s_one else s_zero) (seq 0 k).

(** [jax.nn.one_hot(xs, k)] for a one-dimensional [xs]. *)
Definition one_hot_rows (xs : list Z) (k : nat) : Array2 A :=
  mkArray2 k (map (fun x => one_hot x k) xs).

(** [T[i, j] = v] on a numpy array. *)
Definition setitem2 (T : Array2 A) (i : nat) (j : Z) (v : A) : result (Array2 A) :=
  match rows T !! i, norm_index j (ncols T) with
  | Some r, Some j' => ret (mkArray2 (ncols T) (<[i := <[j' := v]> r]> (rows T)))
  | _, _ => raise IndexError
  end.

(** Column [j] of [b]. *)
Definition column (b : Array2 A) (j : nat) : list A :=
  map (fun r => nth j r s_zero) (rows b).

Definition dot (u v : list A) : A := s_sum (zip_with s_mul u v).

(** [a @ b] for two-dimensional arrays. *)
Definition matmul (a b : Array2 A) : result (Array2 A) :=
  if decide (ncols a = nrows b)
  then ret (mkArray2 (ncols b)
              (map (fun r => map (fun j => dot r (column b j)) (seq 0 (ncols b))) (rows a)))
  else raise (ShapeError "dot_general").

(** [jnp.concatenate(arrs)] along axis 0. *)
Definition concatenate (arrs : list (Array2 A)) : result (Array2 A) :=
  match arrs with
  | [] => raise (ShapeError "concatenate")
  | a :: rest =>
      if forallb (fun b => Nat.eqb (ncols b) (ncols a)) rest
      then ret (mkArray2 (ncols a) (concat (map rows arrs)))
      else raise (ShapeError "concatenate")
  end.

(** [a.at[i].set(v)] for a one-dimensional [v]: [v] is broadcast to a row; an
    index past the end updates nothing. *)
Definition at_set (a : Array2 A) (i : nat) (v : list A) : result (Array2 A) :=
  if decide (length v = ncols a \/ length v = 1%nat)
  then ret (mkArray2 (ncols a) (<[i := stretch v (ncols a)]> (rows a)))
  else raise (ShapeError "scatter").

(** [a.at[i].set(c)] for a scalar [c]. *)
Definition at_set_scalar (a : Array2 A) (i : nat) (c : A) : Array2 A :=
  mkArray2 (ncols a) (<[i := replicate (ncols a) c]> (rows a)).

(** [a * c] for a Python float [c]. *)
Definition scale (a : Array2 A) (c : R) : Array2 A :=
  mkArray2 (ncols a) (map (map (fun x => s_mul x (s_const c))) (rows a)).

(** [jax.nn.log_softmax] of one row. *)
Definition log_softmax (x : list A) : list A :=
  map (fun xj => s_sub xj (s_log (s_sum (map s_exp x)))) x.

(** [x[i]] at a traced index: an index past the end reads the last row. *)
Definition getitem_clamped (x : list (list A)) (i : nat) : list A :=
  nth (Nat.min i (length x - 1)) x [].

(** *** esm.py *)

(** [boltz_to_esm_matrix]: the body of the loop over [enumerate(TOKENS)]. *)
Fixpoint boltz_to_esm_loop (its : list (nat * string)) (T : Array2 A) : result (Array2 A) :=
  match its with
  | [] => ret T
  | (i, tok) :: its' =>
      esm_idx <- dict_get ESM_TOKENS tok ;;
      T' <- setitem2 T i esm_idx s_one ;;
      boltz_to_esm_loop its' T'
  end.

Definition enumerate {X : Type} (l : list X) : list (nat * X) := imap (fun i x => (i, x)) l.

Definition boltz_to_esm_matrix : result (Array2 A) :=
  boltz_to_esm_loop (enumerate TOKENS) (np_zeros (length TOKENS) (size ESM_TOKENS)).

(** What the source reads from the pretrained model [esm2quinox.ESM2].
    [logit_dim] is the static width of what [logit_head] returns. *)
Record ESM2 : Type := mkESM2 {
  embedding_weight : Array2 A;
  layers : list (Array2 A -> list A -> Array2 A);
  layer_norm : list A -> list A;
  logit_head : list A -> list A;
  logit_dim : nat
}.

Record ESM2PseudoLikelihood : Type := mkESM2PseudoLikelihood {
  esm : ESM2;
  stop_grad : bool
}.

(** [_apply_trunk]: a scan of the layers over [x], then the layer norm on
    every row. *)
Definition _apply_trunk (self : ESM2PseudoLikelihood) (x : Array2 A) (is_pad : list A) : Array2 A :=
  let x := fold_left (fun x layer => layer x is_pad) (layers (esm self)) x in
  mkArray2 (ncols x) (map (layer_norm (esm self)) (rows x)).

(** The training-time masking ratio and the factor of line 61. *)
Definition mask_ratio_train : R := 0.15 * 0.8.

Definition rescale (n : nat) : R := (1 - mask_ratio_train) / (1 - 1 / INR (n + 2)).

(** Lines 42-48: the projected sequence between the two markers. *)
Definition bracket (esm_toks_unpadded : Array2 A) : result (Array2 A) :=
  concatenate [one_hot_rows [0%Z] 33; esm_toks_unpadded; one_hot_rows [2%Z] 33].

(** Line 54 of [single_ll]: the token at [index] replaced with the mask. *)
Definition masked_tokens (esm_toks : Array2 A) (index : nat) : result (Array2 A) :=
  m <- dict_get ESM_TOKENS "m" ;;
  at_set esm_toks index (one_hot m 33).

(** Lines 56-58 of [single_ll]: the embedding with the row at [index] zeroed. *)
Definition masked_embedding (self : ESM2PseudoLikelihood) (esm_toks : Array2 A)
    (index : nat) : result (Array2 A) :=
  masked_tokens <- masked_tokens esm_toks index ;;
  embedding <- matmul masked_tokens (embedding_weight (esm self)) ;;
  ret (at_set_scalar embedding index (s_const 0)).

(** Lines 60-61 of [single_ll]: what is fed to the trunk. *)
Definition trunk_input (self : ESM2PseudoLikelihood) (n : nat) (esm_toks : Array2 A)
    (index : nat) : result (Array2 A) :=
  embedding <- masked_embedding self esm_toks index ;;
  ret (scale embedding (rescale n)).

Definition single_ll (self : ESM2PseudoLikelihood) (n : nat) (esm_toks : Array2 A)
    (index : nat) : result (list A) :=
  embedding <- trunk_input self n esm_toks index ;;
  let embedding := _apply_trunk self embedding (replicate (n + 2) s_zero) in
  ret (getitem_clamped
         (map log_softmax (map (logit_head (esm self)) (rows embedding))) index).

(** Lines 66-68: the stacked per-position rows. *)
Definition masked_log_likelihoods (self : ESM2PseudoLikelihood) (n : nat)
    (esm_toks : Array2 A) : result (Array2 A) :=
  lls <- vmap (single_ll self n esm_toks) (arange 1 (n + 1)) ;;
  let lls := mkArray2 (logit_dim (esm self)) lls in
  ret (if stop_grad self
       then mkArray2 (ncols lls) (map (map stop_gradient) (rows lls))
       else lls).

(** [ESM2PseudoLikelihood.__call__]. *)
Definition ESM2PseudoLikelihood_call (self : ESM2PseudoLikelihood)
    (seq_standard_tokens : Array2 A) (key : Key) : result (A * gmap string A) :=
  let n := nrows seq_standard_tokens in
  T <- boltz_to_esm_matrix ;;
  esm_toks_unpadded <- matmul seq_standard_tokens T ;;
  esm_toks <- bracket esm_toks_unpadded ;;
  masked_log_likelihoods <- masked_log_likelihoods self n esm_toks ;;
  prod <- elementwise2 "mul" s_mul masked_log_likelihoods esm_toks_unpadded ;;
  let pll := mean (sum_last prod) in
  ret (s_neg pll, {[ "esm_pll" := pll ]}).

(** *** fixed_positions.py *)

(** A loss term: a callable from a soft sequence and a key to a loss and its
    metrics. *)
Definition LossTerm : Type := Array2 A -> Key -> result (A * gmap string A).

Record SetPositions : Type := mkSetPositions {
  wildtype : list Z;
  variable_positions : list Z;
  loss : LossTerm
}.

(** One update of a scatter into an axis of length [n]: a negative index
    counts from the end and an index out of range updates nothing. *)
Definition scatter_step (n : nat) (acc : list (list A)) (pv : Z * list A) : list (list A) :=
  match norm_index (fst pv) n with
  | Some j => <[j := snd pv]> acc
  | None => acc
  end.

(** [a.at[ps].set(vals)] for a one-dimensional integer array [ps]: row
    [ps[k]] becomes [vals[k]]. *)
Definition scatter_rows (a : list (list A)) (ps : list Z) (vals : list (list A)) : list (list A) :=
  fold_left (scatter_step (length a)) (zip ps vals) a.

(** [SetPositions.sequence]. *)
Definition SetPositions_sequence (self : SetPositions) (seq : Array2 A) : result (Array2 A) :=
  let base := one_hot_rows (wildtype self) (length TOKENS) in
  vals <- broadcast_to seq (length (variable_positions self)) (length TOKENS) ;;
  ret (mkArray2 (ncols base) (scatter_rows (rows base) (variable_positions self) (rows vals))).

(** [SetPositions.__call__]. *)
Definition SetPositions_call (self : SetPositions) (seq : Array2 A) (key : Key)
    : result (A * gmap string A) :=
  if decide (shape seq = (length (variable_positions self), length TOKENS))
  then s <- SetPositions_sequence self seq ;; loss self s key
  else raise AssertionError.

Record FixedPositionsPenalty : Type := mkFixedPositionsPenalty {
  position_mask : list bool;
  target : Array2 A
}.

(** A boolean as a number in a product with a float array. *)
Definition of_bool (b : bool) : A := if b then s_one else s_zero.

(** [FixedPositionsPenalty.__call__]. *)
Definition FixedPositionsPenalty_call (self : FixedPositionsPenalty) (seq : Array2 A)
    (key : Key) : result (A * gmap string A) :=
  diff <- elementwise2 "sub" s_sub seq (target self) ;;
  let sq := mkArray2 (ncols diff) (map (map (fun x => s_mul x x)) (rows diff)) in
  masked <- elementwise1 "mul" s_mul (sum_last sq) (map of_bool (position_mask self)) ;;
  let r := s_sum masked in
  ret (r, {[ "fixed_position_penalty" := r ]}).

End Model.

Close Scope R_scope.

Arguments ESM2 : clear implicits.
Arguments ESM2PseudoLikelihood : clear implicits.
Arguments LossTerm : clear implicits.
Arguments SetPositions : clear implicits.
Arguments FixedPositionsPenalty : clear implicits.
Arguments mkSetPositions {A Key} wildtype variable_positions loss.
Arguments wildtype {A Key} s.
Arguments variable_positions {A Key} s.
Arguments loss {A Key} s.

(** ** The constructors of fixed_positions.py *)

(** The exceptions of the two static constructors: those above, and the
    [ValueError] of [list.index] on an absent element and of [np.zeros] on a
    negative length. *)
Inductive py_exn : Type :=
| Exn (e : exn)
| ValueError (what : string).

Definition bind_ext {X Y : Type} (c : py_exn + X) (k : X -> py_exn + Y) : py_exn + Y :=
  match c with
  | inl e => inl e
  | inr x => k x
  end.

Notation "x <~ c ;; k" := (bind_ext c (fun x => k))
  (at level 100, c at next level, right associativity).

Definition lift_exn {X : Type} (c : result X) : py_exn + X :=
  match c with
  | inl e => inl (Exn e)
  | inr x => inr x
  end.

(** A list comprehension whose body may raise: the first exception is the
    exception of the whole. *)
Fixpoint comprehension {X Y : Type} (f : X -> py_exn + Y) (xs : list X) : py_exn + list Y :=
  match xs with
  | [] => inr []
  | x :: xs' => y <~ f x ;; ys <~ comprehension f xs' ;; inr (y :: ys)
  end.

(** [l.index(x)]: the first position of [x], a [ValueError] when there is
    none.  [TOKENS] is a sequence of one-character symbols, a Python [list]
    or a Python [str]; the two agree on [index] at a one-character [x], and
    only there: [str.index] also finds longer substrings and the empty one.
    What is stated of [list_index] is stated at one-character arguments: the
    characters of a wildtype, the members of [TOKENS], or a symbol taken to
    be one character. *)
Definition list_index (l : list string) (x : string) : py_exn + nat :=
  match list_find (fun y => y = x) l with
  | Some (i, _) => inr i
  | None => inl (ValueError x)
  end.

(** The characters of a Python [str], as iteration yields them. *)
Definition chars (s : string) : list string :=
  map (fun c => String c EmptyString) (String.list_ascii_of_string s).

(** [l[i] = v] on a one-dimensional numpy array. *)
Definition setitem1 {X : Type} (l : list X) (i : Z) (v : X) : py_exn + list X :=
  match norm_index i (length l) with
  | Some j => inr (<[j := v]> l)
  | None => inl (Exn IndexError)
  end.

Section Constructors.

Context {A : Type} `{SA : Scalar A}.
Variable TOKENS : list string.
Variable Key : Type.

(** [T[i, j] = v] on a numpy array, both indices Python integers. *)
Definition setitem2z (T : Array2 A) (i j : Z) (v : A) : result (Array2 A) :=
  match norm_index i (nrows T) with
  | Some i' => setitem2 T i' j v
  | None => raise IndexError
  end.

(** [SetPositions.from_sequence].  ([jnp.array] of an empty list is a float
    array, which [sequence] cannot index with; the record keeps the values
    only.) *)
Definition SetPositions_from_sequence (wildtype : string) (loss : LossTerm A Key)
    : py_exn + SetPositions A Key :=
  wildtype_tokens <~ comprehension (list_index TOKENS) (chars wildtype) ;;
  let variable_positions :=
    map fst (filter (fun iAA => snd iAA = "X") (enumerate (chars wildtype))) in
  inr (mkSetPositions (map Z.of_nat wildtype_tokens) (map Z.of_nat variable_positions) loss).

(** [FixedPositionsPenalty.from_residues]: the body of the loop. *)
Fixpoint from_residues_loop (positions_and_AAs : list (Z * string))
    (position_mask : list bool) (target : Array2 A) : py_exn + (list bool * Array2 A) :=
  match positions_and_AAs with
  | [] => inr (position_mask, target)
  | (idx, AA) :: rest =>
      position_mask <~ setitem1 position_mask idx true ;;
      col <~ list_index TOKENS AA ;;
      target <~ lift_exn (setitem2z target idx (Z.of_nat col) s_one) ;;
      from_residues_loop rest position_mask target
  end.

(** [FixedPositionsPenalty.from_residues]. *)
Definition FixedPositionsPenalty_from_residues (sequence_length : Z)
    (positions_and_AAs : list (Z * string)) : py_exn + FixedPositionsPenalty A :=
  if decide (sequence_length < 0)%Z
  then inl (ValueError "negative dimensions are not allowed")
  else
    let n := Z.to_nat sequence_length in
    r <~ from_residues_loop positions_and_AAs (replicate n false) (np_zeros n (length TOKENS)) ;;
    inr (mkFixedPositionsPenalty (fst r) (snd r)).

End Constructors.

(** ** A concrete configuration

    The two vocabularies are not part of the two source files.  The
    configuration below agrees with every constant the source fixes: twenty
    design symbols (the annotation ["N 20"]), thirty-three model symbols (the
    width [33] of the markers), the beginning-of-sequence marker at index 0,
    the end-of-sequence marker at index 2 and a mask symbol ["m"].  It is used
    to run the definitions on concrete inputs. *)

Definition TOKENS20 : list string :=
  ["A"; "R"; "N"; "D"; "C"; "Q"; "E"; "G"; "H"; "I";
   "L"; "K"; "M"; "F"; "P"; "S"; "T"; "W"; "Y"; "V"].

Definition ESM_TOKENS33 : gmap string Z :=
  list_to_map
    (imap (fun i s => (s, Z.of_nat i))
       ["c"; "p"; "e"; "u"; "L"; "A"; "G"; "V"; "S"; "E"; "R";
        "T"; "I"; "D"; "P"; "K"; "Q"; "N"; "F"; "Y"; "M"; "H";
        "W"; "C"; "X"; "B"; "U"; "Z"; "O"; "."; "-"; "n"; "m"]).

(** A small model to run the scorer with: one embedding dimension, one layer
    that is the identity, and a logit head that returns the [logits] it is
    built from, whatever the hidden state. *)
Definition toy_esm {A : Type} `{SA : Scalar A} (logits : list A) : ESM2 A :=
  mkESM2 (np_zeros 33 1) [fun x _ => x] (fun x => x) (fun _ => logits) (length logits).

(** The one-residue sequence that is the first design symbol. *)
Definition one_residue {A : Type} `{SA : Scalar A} : Array2 A := one_hot_rows [0%Z] 20.

(** ** Vocabulary of the statements *)

(** The column of the mapping matrix that a design symbol is sent to: its
    index in the model vocabulary, read as numpy reads the index in
    [T[i, esm_idx] = 1]. *)
Definition esm_column (ESM_TOKENS : gmap string Z) (tok : string) : option nat :=
  match ESM_TOKENS !! tok with
  | Some idx => norm_index idx (size ESM_TOKENS)
  | None => None
  end.

(** The map from design token indices to model token indices that
    [boltz_to_esm_matrix] tabulates. *)
Definition esm_index (TOKENS : list string) (ESM_TOKENS : gmap string Z) (i : nat) : option nat :=
  match TOKENS !! i with
  | Some tok => esm_column ESM_TOKENS tok
  | None => None
  end.

(** Every design symbol has an index in the model vocabulary that is a column
    of the matrix. *)
Definition vocab_ok (TOKENS : list string) (ESM_TOKENS : gmap string Z) : bool :=
  forallb (fun tok => bool_decide (is_Some (esm_column ESM_TOKENS tok))) TOKENS.

(** Equality of real numbers is decidable (classically). *)
#[export] Instance R_eq_dec : EqDecision R := Req_dec_T.


(** The sum of [f 0], ..., [f (n - 1)]. *)
Fixpoint big_sum (n : nat) (f : nat -> R) : R :=
  match n with
  | O => 0%R
  | S n' => (f O + big_sum n' (fun j => f (S j)))%R
  end.


(** An array that does not depend on the differentiated arguments: every
    tangent is zero. *)
Definition tangent_zero (x : dual) : Prop := tangent x = 0%R.

Definition tangent_free (a : Array2 dual) : Prop :=
  Forall (Forall tangent_zero) (rows a).

(** Logits whose derivative along the direction of differentiation is 1 at
    column [c] and 0 elsewhere, as for a bias of the logit head on that
    column. *)
Definition bias_logits (c : nat) : list dual :=
  map (fun j : nat => mkDual 0 (if decide (j = c) then 1 else 0)) (seq 0 33).

(** *** The masked pass, step by step

    Step 3 of the scorer as the specification words it, on the rows of the
    bracketed sequence; the statements compare [single_ll] with it. *)

(** Step 2: the projected rows between the two marker rows. *)
Definition bracketed_rows {A : Type} `{SA : Scalar A} (proj : Array2 A) : list (list A) :=
  one_hot 0 33 :: rows proj ++ [one_hot 2 33].

(** Step 3a: the row at [index] replaced by the one-hot row of the mask
    token, every other row kept. *)
Definition pass_masked_rows {A : Type} `{SA : Scalar A}
    (m : Z) (esm_toks : list (list A)) (index : nat) : list (list A) :=
  <[index := one_hot m 33]> esm_toks.

(** Step 3b: every row times the embedding weight matrix. *)
Definition pass_embedded_rows {A : Type} `{SA : Scalar A}
    (W : Array2 A) (toks : list (list A)) : list (list A) :=
  map (fun r => map (fun j => dot r (column W j)) (seq 0 (ncols W))) toks.

(** Steps 3c and 3d: the embedding row at [index] zeroed, then every entry
    times the factor for a sequence of length [N]. *)
Definition pass_trunk_rows {A : Type} `{SA : Scalar A}
    (W : Array2 A) (m : Z) (N : nat) (esm_toks : list (list A)) (index : nat)
    : list (list A) :=
  map (map (fun x => s_mul x (s_const ((1 - 0.15 * 0.8) / (1 - 1 / INR (N + 2)))%R)))
    (<[index := replicate (ncols W) (s_const 0%R)]>
       (pass_embedded_rows W (pass_masked_rows m esm_toks index))).

(** Steps 3e and 3f: the layers in order on the whole tensor, no position
    padded; then, of row [index] only, the normalisation, the logit head and
    the log-softmax. *)
Definition pass_log_probabilities {A : Type} `{SA : Scalar A}
    (model : ESM2 A) (m : Z) (N : nat) (esm_toks : list (list A)) (index : nat) : list A :=
  let hidden :=
    fold_left (fun x layer => layer x (replicate (N + 2) s_zero)) (layers model)
      (mkArray2 (ncols (embedding_weight model))
         (pass_trunk_rows (embedding_weight model) m N esm_toks index)) in
  log_softmax (logit_head model (layer_norm model (nth index (rows hidden) []))).

(** *** Models to differentiate

    Four small models over dual numbers, each with one parameter that
    carries the tangent 1: in a layer, in the final normalisation, in the
    embedding matrix, in the logit head ([toy_esm] on [bias_logits]).  The
    logit head of the first three reads the hidden state. *)

(** A logit head that reads the hidden state: the first hidden coordinate is
    the logit of column 5, the other logits are 0. *)
Definition probe_head `{SA : Scalar dual} (h : list dual) : list dual :=
  map (fun j : nat => if decide (j = 5) then nth 0 h s_zero else s_zero) (seq 0 33).

(** The parameter is a bias that the one layer adds to every entry. *)
Definition layer_param_esm `{SA : Scalar dual} : ESM2 dual :=
  mkESM2 (np_zeros 33 1)
    [fun x _ => mkArray2 (ncols x) (map (map (fun v => s_add v (mkDual 0 1))) (rows x))]
    (fun r => r) probe_head 33.

(** The parameter is a bias that the final normalisation adds to every
    entry. *)
Definition norm_param_esm `{SA : Scalar dual} : ESM2 dual :=
  mkESM2 (np_zeros 33 1) [fun x _ => x]
    (fun r => map (fun v => s_add v (mkDual 0 1)) r) probe_head 33.

(** The parameter is the embedding of the beginning-of-sequence symbol; the
    one layer lets every position read position 0. *)
Definition embedding_param_esm `{SA : Scalar dual} : ESM2 dual :=
  mkESM2 (mkArray2 1 ([mkDual 0 1] :: replicate 32 [mkDual 0 0]))
    [fun x _ => mkArray2 (ncols x) (map (fun _ => nth 0 (rows x) []) (rows x))]
    (fun r => r) probe_head 33.

(** The one-residue sequence that is the first design symbol, differentiated
    along the entry of that symbol. *)
Definition one_residue_direction : Array2 dual :=
  mkArray2 20
    [map (fun j : nat => if decide (j = 0) then mkDual 1 1 else mkDual 0 0) (seq 0 20)].

(** A row of probabilities over [k] symbols. *)
Definition probability_row (k : nat) (row : list R) : Prop :=
  length row = k /\ Forall (fun x => (0 <= x)%R) row /\ s_sum row = 1%R.

(** The cell of the target that one element of [positions_and_AAs] sets, for
    a sequence length [n]. *)
Definition residue_cell (TOKENS : list string) (n : nat) (pa : Z * string)
    : option (nat * nat) :=
  match norm_index (fst pa) n, list_index TOKENS (snd pa) with
  | Some j, inr v => Some (j, v)
  | _, _ => None
  end.

(** Some element of [positions_and_AAs] sets cell [(j, v)]. *)
Definition listedb (TOKENS : list string) (n : nat) (pas : list (Z * string))
    (j v : nat) : bool :=
  existsb (fun pa => bool_decide (residue_cell TOKENS n pa = Some (j, v))) pas.

(** Some element of [positions_and_AAs] denotes position [j]. *)
Definition touchedb (n : nat) (pas : list (Z * string)) (j : nat) : bool :=
  existsb (fun pa => bool_decide (norm_index (fst pa) n = Some j)) pas.

(** An element of [positions_and_AAs] that [from_residues] accepts. *)
Definition residue_ok (TOKENS : list string) (n : nat) (pa : Z * string) : Prop :=
  is_Some (norm_index (fst pa) n) /\ snd pa ∈ TOKENS.

(** A tactic for the derivatives of the models above: the arguments of the
    exponential [e] that are 0 are rewritten to 0, and [e 0] with [He]. *)
Ltac at_zero e He :=
  repeat match goal with
         | |- context [e ?x] =>
             lazymatch x with
             | R0 => fail
             | _ => replace x with R0 by lra
             end
         end;
  rewrite ?He.

(** * Properties *)

(** ** The error monad *)

Lemma bind_inr {X Y : Type} (c : result X) (k : X -> result Y) (y : Y) :
  bind c k = inr y -> exists x, c = inr x /\ k x = inr y.
Proof. destruct c as [e|x]; simpl; [discriminate|]. intros Hk. by exists x. Qed.

Lemma bind_inl {X Y : Type} (c : result X) (k : X -> result Y) (e : exn) :
  c = inl e -> bind c k = inl e.
Proof. by intros ->. Qed.

Lemma vmap_inr {X Y : Type} (f : X -> result Y) (xs : list X) (ys : list Y) :
  vmap f xs = inr ys -> Forall2 (fun x y => f x = inr y) xs ys.
Proof.
  revert ys. induction xs as [|x xs IH]; intros ys; simpl.
  - intros [= <-]. constructor.
  - intros H. apply bind_inr in H as (y & Hy & H).
    apply bind_inr in H as (ys' & Hys & [= <-]).
    constructor; [done|]. by apply IH.
Qed.

Lemma vmap_total {X Y : Type} (f : X -> result Y) (xs : list X) :
  Forall (fun x => exists y, f x = inr y) xs -> exists ys, vmap f xs = inr ys.
Proof.
  induction 1 as [|x xs [y Hy] _ [ys Hys]]; simpl.
  - by eexists.
  - rewrite Hy; simpl. rewrite Hys; simpl. by eexists.
Qed.

(** ** Indices *)

Lemma norm_index_lt (i : Z) (n j : nat) : norm_index i n = Some j -> j < n.
Proof. unfold norm_index. repeat case_decide; intros [= <-]; lia. Qed.

Lemma norm_index_nonneg (i : Z) (n j : nat) :
  norm_index i n = Some j -> (0 <= i)%Z -> j = Z.to_nat i.
Proof. unfold norm_index. repeat case_decide; intros [= <-]; lia. Qed.

Lemma norm_index_of_nat (j n : nat) : j < n -> norm_index (Z.of_nat j) n = Some j.
Proof.
  intros Hj. unfold norm_index. rewrite decide_True by lia. by rewrite Nat2Z.id.
Qed.

Lemma arange_length (a b : nat) : length (arange a b) = b - a.
Proof. unfold arange. by rewrite length_seq. Qed.

Lemma arange_elem (a b i : nat) : i ∈ arange a b <-> a <= i < b.
Proof. unfold arange. rewrite elem_of_seq. lia. Qed.

Lemma arange_NoDup (a b : nat) : NoDup (arange a b).
Proof. apply NoDup_seq. Qed.

(** ** The token-space mapping matrix *)

Section Mapper.

Context {A : Type} `{SA : Scalar A}.
Variable TOKENS : list string.
Variable ESM_TOKENS : gmap string Z.

Lemma dict_get_inr (k : string) (v : Z) :
  dict_get ESM_TOKENS k = inr v <-> ESM_TOKENS !! k = Some v.
Proof.
  unfold dict_get. destruct (ESM_TOKENS !! k); simpl; split; intros H;
    try discriminate; by inversion H.
Qed.

Lemma setitem2_inr (T T' : Array2 A) (i : nat) (j : Z) (v : A) :
  setitem2 T i j v = inr T' ->
  exists r j', rows T !! i = Some r /\ norm_index j (ncols T) = Some j' /\
    T' = mkArray2 (ncols T) (<[i := <[j' := v]> r]> (rows T)).
Proof.
  unfold setitem2. destruct (rows T !! i) as [r|]; [|discriminate].
  destruct (norm_index j (ncols T)) as [j'|]; [|discriminate].
  intros [= <-]. by exists r, j'.
Qed.

Lemma enumerate_from_cons {X : Type} (k : nat) (x : X) (l : list X) :
  imap (fun i y => (k + i, y)) (x :: l) = (k, x) :: imap (fun i y => (S k + i, y)) l.
Proof.
  simpl. rewrite Nat.add_0_r. f_equal. apply imap_ext. intros i y _. simpl. f_equal. lia.
Qed.

(** What a completed run of the loop has done to the matrix. *)
Lemma boltz_to_esm_loop_inr (l : list string) :
  forall (k : nat) (T T' : Array2 A),
    boltz_to_esm_loop ESM_TOKENS (imap (fun i y => (k + i, y)) l) T = inr T' ->
    ncols T' = ncols T /\
    length (rows T') = length (rows T) /\
    (forall i, i < k \/ k + length l <= i -> rows T' !! i = rows T !! i) /\
    (forall i tok, l !! i = Some tok ->
       exists idx j r,
         ESM_TOKENS !! tok = Some idx /\ norm_index idx (ncols T) = Some j /\
         rows T !! (k + i) = Some r /\ rows T' !! (k + i) = Some (<[j := s_one]> r)).
Proof.
  induction l as [|tok l IH]; intros k T T'.
  - simpl. intros [= <-]. repeat split; done.
  - rewrite enumerate_from_cons. simpl.
    intros H. apply bind_inr in H as (idx & Hidx & H).
    apply bind_inr in H as (T1 & HT1 & H).
    apply dict_get_inr in Hidx.
    apply setitem2_inr in HT1 as (r & j & Hr & Hj & ->).
    destruct (IH (S k) _ _ H) as (Hc & Hl & Hout & Hin). simpl in *.
    rewrite length_insert in Hl.
    split; [done|]. split; [done|]. split.
    + intros i Hi. rewrite Hout by lia. apply list_lookup_insert_ne. lia.
    + intros [|i] tok' Htok; simpl in Htok.
      * inversion Htok; subst tok'. exists idx, j, r.
        rewrite Nat.add_0_r. repeat split; try done.
        rewrite Hout by lia. apply list_lookup_insert_eq. by eapply lookup_lt_Some.
      * destruct (Hin i tok' Htok) as (idx' & j' & r' & H1 & H2 & H3 & H4).
        exists idx', j', r'. replace (k + S i) with (S k + i) by lia.
        repeat split; try done.
        rewrite list_lookup_insert_ne in H3 by lia. done.
Qed.

(** The loop completes when every symbol has a column. *)
Lemma boltz_to_esm_loop_total (l : list string) :
  forall (k : nat) (T : Array2 A),
    k + length l <= length (rows T) ->
    Forall (fun tok => exists idx, ESM_TOKENS !! tok = Some idx /\
                                   is_Some (norm_index idx (ncols T))) l ->
    exists T', boltz_to_esm_loop ESM_TOKENS (imap (fun i y => (k + i, y)) l) T = inr T'.
Proof.
  induction l as [|tok l IH]; intros k T Hk Hall.
  - by eexists.
  - rewrite enumerate_from_cons. simpl.
    apply Forall_cons in Hall as [(idx & Hidx & [j Hj]) Hall].
    unfold dict_get. rewrite Hidx. simpl.
    unfold setitem2. rewrite Hj.
    destruct (lookup_lt_is_Some_2 (rows T) k) as [r Hr]; [simpl in Hk; lia|].
    rewrite Hr. simpl. apply (IH (S k)).
    + simpl. rewrite length_insert. simpl in Hk. lia.
    + done.
Qed.

(** The loop raises when a symbol is missing from the model vocabulary: the
    [KeyError] of the lookup, unless the assignment for an earlier symbol
    raised an [IndexError]. *)
Lemma boltz_to_esm_loop_missing (l : list string) :
  forall (k : nat) (T : Array2 A),
    k + length l <= length (rows T) ->
    (exists tok, tok ∈ l /\ ESM_TOKENS !! tok = None) ->
    exists e, boltz_to_esm_loop ESM_TOKENS (imap (fun i y => (k + i, y)) l) T = inl e /\
      ((e = IndexError /\
        exists tok idx, tok ∈ l /\ ESM_TOKENS !! tok = Some idx /\
                        norm_index idx (ncols T) = None) \/
       (exists tok, e = KeyError tok /\ tok ∈ l /\ ESM_TOKENS !! tok = None)).
Proof.
  induction l as [|tok l IH]; intros k T Hk (bad & Hin & Hbad).
  - by apply elem_of_nil in Hin.
  - rewrite enumerate_from_cons. simpl. unfold dict_get. simpl in Hk.
    destruct (ESM_TOKENS !! tok) as [idx|] eqn:Hidx; simpl.
    + unfold setitem2.
      destruct (lookup_lt_is_Some_2 (rows T) k) as [r Hr]; [lia|]. rewrite Hr.
      destruct (norm_index idx (ncols T)) as [j|] eqn:Hj; simpl.
      * apply elem_of_cons in Hin as [->|Hin]; [congruence|].
        destruct (IH (S k) (mkArray2 (ncols T) (<[k := <[j := s_one]> r]> (rows T))))
          as (e & He & Hcase).
        { simpl. rewrite length_insert. lia. }
        { by exists bad. }
        exists e. split; [done|].
        destruct Hcase as [(-> & t & i & Ht & Hi & Hn)|(t & -> & Ht & Hn)].
        -- left. split; [done|]. exists t, i. repeat split; try done.
           by apply elem_of_cons; right.
        -- right. exists t. repeat split; try done. by apply elem_of_cons; right.
      * exists IndexError. split; [done|]. left. split; [done|]. exists tok, idx.
        repeat split; try done. by apply elem_of_cons; left.
    + exists (KeyError tok). split; [done|]. right. exists tok.
      repeat split; try done. by apply elem_of_cons; left.
Qed.

Lemma enumerate_from_0 {X : Type} (l : list X) :
  enumerate l = imap (fun i y => (0 + i, y)) l.
Proof. reflexivity. Qed.

Lemma np_zeros_lookup (n m i : nat) :
  i < n -> rows (np_zeros (A:=A) n m) !! i = Some (replicate m s_zero).
Proof. intros Hi. simpl. by apply lookup_replicate_2. Qed.

Lemma one_hot_length (x : Z) (k : nat) : length (one_hot (A:=A) x k) = k.
Proof. unfold one_hot. by rewrite length_map, length_seq. Qed.

Lemma one_hot_lookup (x : Z) (k j : nat) :
  j < k ->
  one_hot (A:=A) x k !! j = Some (if decide (x = Z.of_nat j) then s_one else s_zero).
Proof.
  intros Hj. unfold one_hot. rewrite list_lookup_fmap.
  rewrite lookup_seq_lt by done. reflexivity.
Qed.

(** A row of zeros with a one written at column [j] is the one-hot row of [j]. *)
Lemma insert_one_replicate (j k : nat) :
  j < k -> <[j := s_one]> (replicate k (s_zero (A:=A))) = one_hot (Z.of_nat j) k.
Proof.
  intros Hj. apply list_eq. intros c.
  destruct (decide (c < k)) as [Hc|Hc].
  - rewrite one_hot_lookup by done.
    destruct (decide (c = j)) as [->|Hne].
    + rewrite list_lookup_insert_eq by (by rewrite length_replicate).
      by rewrite decide_True.
    + rewrite list_lookup_insert_ne by done.
      rewrite lookup_replicate_2 by done. rewrite decide_False by lia. done.
  - rewrite !lookup_ge_None_2; try done.
    + rewrite one_hot_length. lia.
    + rewrite length_insert, length_replicate. lia.
Qed.

(** The matrix, row by row: row [i] is the one-hot row of the column of the
    [i]-th design symbol. *)
Lemma boltz_to_esm_matrix_inr (T : Array2 A) :
  boltz_to_esm_matrix TOKENS ESM_TOKENS = inr T ->
  ncols T = size ESM_TOKENS /\
  nrows T = length TOKENS /\
  (forall i tok, TOKENS !! i = Some tok ->
     exists col, esm_column ESM_TOKENS tok = Some col /\
       rows T !! i = Some (one_hot (Z.of_nat col) (size ESM_TOKENS))).
Proof.
  unfold boltz_to_esm_matrix. rewrite enumerate_from_0. intros H.
  apply boltz_to_esm_loop_inr in H as (Hc & Hl & _ & Hin).
  simpl in Hc, Hl. rewrite length_replicate in Hl.
  split; [done|]. split; [done|].
  intros i tok Htok. destruct (Hin i tok Htok) as (idx & j & r & H1 & H2 & H3 & H4).
  simpl in H2. exists j. unfold esm_column. rewrite H1. split; [done|].
  simpl in H4. rewrite H4. f_equal.
  rewrite np_zeros_lookup in H3 by (by eapply lookup_lt_Some).
  inversion H3; subst r. apply insert_one_replicate. by eapply norm_index_lt.
Qed.

Lemma vocab_ok_spec :
  vocab_ok TOKENS ESM_TOKENS = true <->
  Forall (fun tok => is_Some (esm_column ESM_TOKENS tok)) TOKENS.
Proof.
  unfold vocab_ok. rewrite forallb_forall, Forall_forall.
  split; intros H tok Hin.
  - apply list_elem_of_In in Hin. apply H in Hin. by apply bool_decide_eq_true in Hin.
  - apply bool_decide_eq_true. apply H. by apply list_elem_of_In.
Qed.

Lemma boltz_to_esm_matrix_total :
  vocab_ok TOKENS ESM_TOKENS = true ->
  exists T : Array2 A, boltz_to_esm_matrix TOKENS ESM_TOKENS = inr T.
Proof.
  intros Hok. apply vocab_ok_spec in Hok.
  unfold boltz_to_esm_matrix. rewrite enumerate_from_0.
  apply boltz_to_esm_loop_total.
  - simpl. rewrite length_replicate. lia.
  - eapply Forall_impl; [exact Hok|]. intros tok [col Hcol]. unfold esm_column in Hcol.
    destruct (ESM_TOKENS !! tok) as [idx|]; [|discriminate]. exists idx. split; [done|].
    simpl. by exists col.
Qed.

Lemma boltz_to_esm_matrix_vocab_ok (T : Array2 A) :
  boltz_to_esm_matrix TOKENS ESM_TOKENS = inr T -> vocab_ok TOKENS ESM_TOKENS = true.
Proof.
  intros H. apply boltz_to_esm_matrix_inr in H as (_ & _ & Hrows).
  apply vocab_ok_spec. apply Forall_forall. intros tok Hin.
  apply list_elem_of_lookup in Hin as [i Hi].
  destruct (Hrows i tok Hi) as (col & Hcol & _). by exists col.
Qed.

Lemma boltz_to_esm_matrix_wf (T : Array2 A) :
  boltz_to_esm_matrix TOKENS ESM_TOKENS = inr T -> wf_array T.
Proof.
  intros H. apply boltz_to_esm_matrix_inr in H as (Hc & Hn & Hrows).
  unfold wf_array. apply Forall_forall. intros r Hr.
  apply list_elem_of_lookup in Hr as [i Hi].
  assert (i < length TOKENS) as Hlt.
  { unfold nrows in Hn. rewrite <- Hn. by eapply lookup_lt_Some. }
  destruct (lookup_lt_is_Some_2 TOKENS i Hlt) as [tok Htok].
  destruct (Hrows i tok Htok) as (col & _ & Hrow).
  rewrite Hrow in Hi. inversion Hi. rewrite one_hot_length. done.
Qed.

End Mapper.

(** ** Claims on [boltz_to_esm_matrix] *)

Lemma entry_lookup (T : Array2 R) (i j : nat) (r : list R) :
  rows T !! i = Some r -> entry 0%R T i j = nth j r 0%R.
Proof. intros Hr. unfold entry. rewrite (nth_lookup (rows T)), Hr. reflexivity. Qed.

Lemma one_hot_nth (x : Z) (k j : nat) :
  j < k -> nth j (one_hot (A:=R) x k) 0%R = if decide (x = Z.of_nat j) then 1%R else 0%R.
Proof. intros Hj. rewrite nth_lookup, one_hot_lookup by done. reflexivity. Qed.

(** C3.  The matrix that [boltz_to_esm_matrix] returns has shape
    (design-vocab-size, model-vocab-size); row [i] has a 1 exactly at the
    column that the lookup of the [i]-th design symbol in the model
    vocabulary gives, and a 0 in every other column, so every row has
    exactly one 1. *)
Theorem boltz_to_esm_matrix_rows_one_hot
    (TOKENS : list string) (ESM_TOKENS : gmap string Z) (T : Array2 R) :
  boltz_to_esm_matrix TOKENS ESM_TOKENS = inr T ->
  shape T = (length TOKENS, size ESM_TOKENS) /\
  wf_array T /\
  forall i tok, TOKENS !! i = Some tok ->
    exists idx col,
      ESM_TOKENS !! tok = Some idx /\
      norm_index idx (size ESM_TOKENS) = Some col /\
      ((0 <= idx)%Z -> col = Z.to_nat idx) /\
      (forall j, j < size ESM_TOKENS ->
         entry 0%R T i j = if decide (j = col) then 1%R else 0%R) /\
      (forall j, j < size ESM_TOKENS -> entry 0%R T i j = 1%R <-> j = col).
Proof.
  intros HT. pose proof (boltz_to_esm_matrix_wf _ _ _ HT) as Hwf.
  apply boltz_to_esm_matrix_inr in HT as (Hc & Hn & Hrows).
  split; [unfold shape; congruence|]. split; [done|].
  intros i tok Htok. destruct (Hrows i tok Htok) as (col & Hcol & Hrow).
  unfold esm_column in Hcol. destruct (ESM_TOKENS !! tok) as [idx|] eqn:Hidx; [|done].
  exists idx, col. split; [done|]. split; [done|].
  split; [by apply (norm_index_nonneg idx (size ESM_TOKENS))|].
  assert (forall j, j < size ESM_TOKENS ->
            entry 0%R T i j = if decide (j = col) then 1%R else 0%R) as Hentry.
  { intros j Hj. rewrite (entry_lookup _ _ _ _ Hrow), one_hot_nth by done.
    destruct (decide (j = col)) as [->|Hne].
    - by rewrite decide_True.
    - rewrite decide_False by lia. done. }
  split; [done|]. intros j Hj. rewrite Hentry by done.
  destruct (decide (j = col)); split; intros H; try done. lra.
Qed.

Lemma boltz_to_esm_matrix_rows_one_hot_witness :
  exists T : Array2 R,
    boltz_to_esm_matrix TOKENS20 ESM_TOKENS33 = inr T /\
    shape T = (20, 33) /\
    wf_array T /\
    forall i tok, TOKENS20 !! i = Some tok ->
      exists idx col,
        ESM_TOKENS33 !! tok = Some idx /\
        norm_index idx (size ESM_TOKENS33) = Some col /\
        ((0 <= idx)%Z -> col = Z.to_nat idx) /\
        (forall j, j < size ESM_TOKENS33 ->
           entry 0%R T i j = if decide (j = col) then 1%R else 0%R) /\
        (forall j, j < size ESM_TOKENS33 -> entry 0%R T i j = 1%R <-> j = col).
Proof.
  eexists. split; [vm_compute; reflexivity|].
  apply (boltz_to_esm_matrix_rows_one_hot TOKENS20 ESM_TOKENS33).
  vm_compute. reflexivity.
Defined.

(** C6.  When a design symbol has no counterpart in the model vocabulary,
    [boltz_to_esm_matrix] raises while it builds the matrix and returns no
    matrix: the [KeyError] of a failed lookup, or the [IndexError] of the
    assignment for a symbol whose index is not a column. *)
Theorem boltz_to_esm_matrix_missing_symbol
    {A : Type} `{SA : Scalar A}
    (TOKENS : list string) (ESM_TOKENS : gmap string Z) (tok : string) :
  tok ∈ TOKENS ->
  ESM_TOKENS !! tok = None ->
  exists e,
    boltz_to_esm_matrix (A:=A) TOKENS ESM_TOKENS = inl e /\
    (forall T, boltz_to_esm_matrix (A:=A) TOKENS ESM_TOKENS <> inr T) /\
    ((e = IndexError /\
      exists t idx, t ∈ TOKENS /\ ESM_TOKENS !! t = Some idx /\
                    norm_index idx (size ESM_TOKENS) = None) \/
     (exists t, e = KeyError t /\ t ∈ TOKENS /\ ESM_TOKENS !! t = None)).
Proof.
  intros Hin Hnone. unfold boltz_to_esm_matrix. rewrite enumerate_from_0.
  destruct (boltz_to_esm_loop_missing (A:=A) ESM_TOKENS TOKENS 0
              (np_zeros (length TOKENS) (size ESM_TOKENS))) as (e & He & Hcase).
  - simpl. rewrite length_replicate. lia.
  - by exists tok.
  - exists e. split; [done|]. split; [rewrite He; discriminate|]. exact Hcase.
Qed.

Lemma boltz_to_esm_matrix_missing_symbol_witness :
  exists e,
    boltz_to_esm_matrix (A:=R) ["A"; "?"; "R"] ESM_TOKENS33 = inl e /\
    (forall T, boltz_to_esm_matrix (A:=R) ["A"; "?"; "R"] ESM_TOKENS33 <> inr T) /\
    ((e = IndexError /\
      exists t idx, t ∈ ["A"; "?"; "R"] /\ ESM_TOKENS33 !! t = Some idx /\
                    norm_index idx (size ESM_TOKENS33) = None) \/
     (exists t, e = KeyError t /\ t ∈ ["A"; "?"; "R"] /\ ESM_TOKENS33 !! t = None)).
Proof.
  apply (boltz_to_esm_matrix_missing_symbol ["A"; "?"; "R"] ESM_TOKENS33 "?").
  - apply list_elem_of_In. simpl. tauto.
  - vm_compute. reflexivity.
Defined.

(** The exception at that configuration is the [KeyError] of the symbol. *)
Example boltz_to_esm_matrix_missing_symbol_run :
  boltz_to_esm_matrix (A:=R) ["A"; "?"; "R"] ESM_TOKENS33 = inl (KeyError "?").
Proof. vm_compute. reflexivity. Qed.

(** ** Projection of one-hot rows and its inverse *)

Lemma dot_cons (x y : R) (u v : list R) : dot (x :: u) (y :: v) = (x * y + dot u v)%R.
Proof. reflexivity. Qed.

Lemma dot_one_hot_from (v : list R) :
  forall (s t : nat),
    dot (map (fun j : nat => if decide (Z.of_nat t = Z.of_nat j) then 1%R else 0%R)
             (seq s (length v))) v
    = if decide (s <= t < s + length v) then nth (t - s) v 0%R else 0%R.
Proof.
  induction v as [|y v IH]; intros s t.
  - simpl. case_decide; [by destruct (t - s)|done].
  - simpl length. simpl seq. simpl map. rewrite dot_cons, IH.
    destruct (decide (Z.of_nat t = Z.of_nat s)) as [Heq|Hne].
    + apply Nat2Z.inj in Heq. subst s.
      rewrite decide_False by lia. rewrite decide_True by lia.
      rewrite Nat.sub_diag. simpl. lra.
    + destruct (decide (S s <= t < S s + length v)) as [Hin|Hout].
      * rewrite decide_True by lia.
        replace (t - s) with (S (t - S s)) by lia. simpl. lra.
      * rewrite decide_False by lia. lra.
Qed.

Lemma dot_one_hot (t : nat) (v : list R) :
  t < length v -> dot (one_hot (Z.of_nat t) (length v)) v = nth t v 0%R.
Proof.
  intros Ht. unfold one_hot. simpl s_one. simpl s_zero.
  rewrite dot_one_hot_from. rewrite decide_True by lia. by rewrite Nat.sub_0_r.
Qed.





Lemma esm_index_lookup (TOKENS : list string) (ESM_TOKENS : gmap string Z) (i c : nat) :
  esm_index TOKENS ESM_TOKENS i = Some c ->
  (esm_column ESM_TOKENS <$> TOKENS) !! i = Some (Some c).
Proof.
  unfold esm_index. rewrite list_lookup_fmap.
  destruct (TOKENS !! i); simpl; [|discriminate]. by intros ->.
Qed.

(** The induced index map is injective when the design symbols are sent to
    pairwise distinct columns. *)
Lemma esm_index_inj (TOKENS : list string) (ESM_TOKENS : gmap string Z) (i j c : nat) :
  NoDup (esm_column ESM_TOKENS <$> TOKENS) ->
  esm_index TOKENS ESM_TOKENS i = Some c ->
  esm_index TOKENS ESM_TOKENS j = Some c ->
  i = j.
Proof.
  intros Hnd Hi Hj. apply esm_index_lookup in Hi, Hj.
  by eapply NoDup_lookup.
Qed.










(** ** The scorer, step by step *)

Section Scorer.

Context {A : Type} `{SA : Scalar A}.
Variable TOKENS : list string.
Variable ESM_TOKENS : gmap string Z.
Variable Key : Type.
Variable self : ESM2PseudoLikelihood A.
Variable seq_standard_tokens : Array2 A.

Let n : nat := nrows seq_standard_tokens.

(** The configuration under which the scorer runs to completion: the design
    symbols have columns, the model vocabulary has the 33 symbols that the
    markers are written for and a mask symbol, and the embedding matrix of
    the model has one row per model symbol; the input has one column per
    design symbol. *)
Hypothesis Hvocab : vocab_ok TOKENS ESM_TOKENS = true.
Hypothesis Hsize : size ESM_TOKENS = 33.
Hypothesis Hmask : is_Some (ESM_TOKENS !! "m").
Hypothesis Hweight : nrows (embedding_weight (esm self)) = 33.
Hypothesis Hshape : ncols seq_standard_tokens = length TOKENS.

Lemma matmul_inr (a b : Array2 A) :
  ncols a = nrows b ->
  exists p, matmul a b = inr p /\ ncols p = ncols b /\ nrows p = nrows a /\
            Forall (fun r => length r = ncols b) (rows p).
Proof.
  intros Hab. unfold matmul. rewrite decide_True by done.
  eexists. split; [reflexivity|]. simpl. split; [done|].
  split; [unfold nrows; simpl; by rewrite length_map|].
  apply Forall_forall. intros r Hr. apply list_elem_of_fmap in Hr as (r' & -> & _).
  by rewrite length_map, length_seq.
Qed.

Lemma bracket_inr (p : Array2 A) :
  ncols p = 33 ->
  bracket p = inr (mkArray2 33 (one_hot 0 33 :: rows p ++ [one_hot 2 33])).
Proof.
  intros Hp. unfold bracket, concatenate. simpl. rewrite Hp. simpl.
  done.
Qed.

Lemma masked_tokens_inr (esm_toks : Array2 A) (index : nat) :
  ncols esm_toks = 33 ->
  exists m,
    ESM_TOKENS !! "m" = Some m /\
    masked_tokens ESM_TOKENS esm_toks index
    = inr (mkArray2 33 (<[index := one_hot m 33]> (rows esm_toks))).
Proof.
  intros Hc. destruct Hmask as [m Hm]. exists m. split; [done|].
  unfold masked_tokens, dict_get. rewrite Hm. simpl.
  unfold at_set. rewrite one_hot_length, Hc. rewrite decide_True by (by left).
  unfold stretch. rewrite one_hot_length. by rewrite decide_True.
Qed.

Lemma trunk_input_inr (esm_toks : Array2 A) (index : nat) :
  ncols esm_toks = 33 ->
  exists m embedding,
    ESM_TOKENS !! "m" = Some m /\
    matmul (mkArray2 33 (<[index := one_hot m 33]> (rows esm_toks)))
           (embedding_weight (esm self)) = inr embedding /\
    nrows embedding = nrows esm_toks /\
    masked_embedding ESM_TOKENS self esm_toks index
    = inr (at_set_scalar embedding index (s_const 0%R)) /\
    trunk_input ESM_TOKENS self n esm_toks index
    = inr (scale (at_set_scalar embedding index (s_const 0%R)) (rescale n)).
Proof.
  intros Hc. destruct (masked_tokens_inr esm_toks index Hc) as (m & Hm & Hmt).
  destruct (matmul_inr (mkArray2 33 (<[index := one_hot m 33]> (rows esm_toks)))
              (embedding_weight (esm self))) as (e & He & _ & Hn & _).
  { simpl. by rewrite Hweight. }
  exists m, e. split; [done|]. split; [done|].
  split; [rewrite Hn; unfold nrows; simpl; by rewrite length_insert|].
  unfold trunk_input, masked_embedding. rewrite Hmt. simpl. rewrite He. simpl. done.
Qed.

Lemma single_ll_inr (esm_toks : Array2 A) (index : nat) :
  ncols esm_toks = 33 ->
  exists embedding,
    trunk_input ESM_TOKENS self n esm_toks index = inr embedding /\
    single_ll ESM_TOKENS self n esm_toks index
    = inr (getitem_clamped
             (map log_softmax
                (map (logit_head (esm self))
                   (rows (_apply_trunk self embedding (replicate (n + 2) s_zero)))))
             index).
Proof.
  intros Hc. destruct (trunk_input_inr esm_toks index Hc) as (m & e & _ & _ & _ & _ & Ht).
  eexists. split; [exact Ht|]. unfold single_ll. rewrite Ht. reflexivity.
Qed.

Lemma vmap_length {X Y : Type} (f : X -> result Y) (xs : list X) (ys : list Y) :
  vmap f xs = inr ys -> length ys = length xs.
Proof. intros H. apply vmap_inr in H. symmetry. by eapply Forall2_length. Qed.

(** Under the configuration above the scorer returns, and these are its
    intermediate values. *)
Lemma ESM2PseudoLikelihood_call_steps (key : Key) :
  exists T proj lls,
    boltz_to_esm_matrix TOKENS ESM_TOKENS = inr T /\
    matmul seq_standard_tokens T = inr proj /\
    ncols proj = 33 /\ nrows proj = n /\
    Forall (fun r => length r = 33) (rows proj) /\
    bracket proj = inr (mkArray2 33 (one_hot 0 33 :: rows proj ++ [one_hot 2 33])) /\
    vmap (single_ll ESM_TOKENS self n
            (mkArray2 33 (one_hot 0 33 :: rows proj ++ [one_hot 2 33])))
         (arange 1 (n + 1)) = inr lls /\
    length lls = n /\
    forall prod,
      elementwise2 "mul" s_mul
        (mkArray2 (logit_dim (esm self))
           (if stop_grad self then map (map stop_gradient) lls else lls)) proj
      = inr prod ->
      ESM2PseudoLikelihood_call TOKENS ESM_TOKENS Key self seq_standard_tokens key
      = inr (s_neg (mean (sum_last prod)), {[ "esm_pll" := mean (sum_last prod) ]}).
Proof.
  destruct (boltz_to_esm_matrix_total (A:=A) TOKENS ESM_TOKENS Hvocab) as [T HT].
  pose proof (boltz_to_esm_matrix_inr _ _ _ HT) as (HcT & HnT & _).
  destruct (matmul_inr seq_standard_tokens T) as (proj & Hproj & Hcp & Hnp & Hrp).
  { by rewrite HnT. }
  rewrite HcT, Hsize in Hcp, Hrp.
  destruct (vmap_total (single_ll ESM_TOKENS self n
              (mkArray2 33 (one_hot 0 33 :: rows proj ++ [one_hot 2 33])))
              (arange 1 (n + 1))) as [lls Hlls].
  { apply Forall_forall. intros index _.
    destruct (single_ll_inr (mkArray2 33 (one_hot 0 33 :: rows proj ++ [one_hot 2 33]))
                index eq_refl) as (e & _ & He).
    eexists. exact He. }
  exists T, proj, lls.
  split; [done|]. split; [done|]. split; [done|]. split; [done|]. split; [done|].
  split; [by apply bracket_inr|]. split; [done|].
  split; [apply vmap_length in Hlls; rewrite Hlls, arange_length; lia|].
  intros prod Hprod. unfold ESM2PseudoLikelihood_call.
  rewrite HT. simpl. rewrite Hproj. simpl. rewrite (bracket_inr proj Hcp). simpl.
  unfold masked_log_likelihoods. fold n. rewrite Hlls. simpl.
  destruct (stop_grad self); simpl in *; rewrite Hprod; reflexivity.
Qed.

End Scorer.

(** ** Elementwise operations on arrays of one shape *)

Lemma broadcast_dim_same (d : nat) : broadcast_dim d d = Some d.
Proof. unfold broadcast_dim. by rewrite decide_True. Qed.

Lemma stretch_same {X : Type} (l : list X) : stretch l (length l) = l.
Proof. unfold stretch. by rewrite decide_True. Qed.

Lemma stretch2_same {A : Type} (a : Array2 A) :
  stretch2 a (nrows a) (ncols a) = mkArray2 (ncols a) (rows a).
Proof. unfold stretch2. rewrite decide_True by done. unfold nrows. by rewrite stretch_same. Qed.

Lemma elementwise2_same {A : Type} (op : string) (f : A -> A -> A) (a b : Array2 A) :
  nrows a = nrows b -> ncols a = ncols b ->
  elementwise2 op f a b = inr (mkArray2 (ncols a) (zip_with (zip_with f) (rows a) (rows b))).
Proof.
  intros Hn Hc. unfold elementwise2. rewrite <- Hn, <- Hc, !broadcast_dim_same.
  rewrite stretch2_same. rewrite Hn, Hc, stretch2_same. reflexivity.
Qed.

Lemma elementwise1_same {A : Type} (op : string) (f : A -> A -> A) (u v : list A) :
  length u = length v -> elementwise1 op f u v = inr (zip_with f u v).
Proof.
  intros Hl. unfold elementwise1. rewrite <- Hl, broadcast_dim_same.
  rewrite stretch_same. rewrite Hl, stretch_same. reflexivity.
Qed.

(** ** Sums of real numbers *)

Lemma big_sum_ext (k : nat) :
  forall f g : nat -> R, (forall j, j < k -> f j = g j) -> big_sum k f = big_sum k g.
Proof.
  induction k as [|k IH]; intros f g Hfg; simpl; [done|].
  rewrite (Hfg 0) by lia. f_equal. apply IH. intros j Hj. apply Hfg. lia.
Qed.

Lemma big_sum_zero (k : nat) :
  forall f : nat -> R, (forall j, j < k -> f j = 0%R) -> big_sum k f = 0%R.
Proof.
  induction k as [|k IH]; intros f Hf; simpl; [done|].
  rewrite (Hf 0) by lia. rewrite IH; [lra|]. intros j Hj. apply Hf. lia.
Qed.

(** The sum over a product of two rows, written over the column indices of
    the second row. *)
Lemma s_sum_zip_with_mul (v : list R) :
  forall u : list R,
    s_sum (zip_with s_mul u v)
    = big_sum (length v) (fun j => (nth j u 0 * nth j v 0)%R).
Proof.
  induction v as [|y v IH]; intros u.
  - by destruct u.
  - destruct u as [|x u].
    + simpl. rewrite big_sum_zero; [lra|]. intros j _. lra.
    + simpl. f_equal. apply IH.
Qed.

Lemma s_sum_rows (P : list (list R)) :
  forall L : list (list R),
    length L = length P ->
    s_sum (map s_sum (zip_with (zip_with s_mul) L P))
    = big_sum (length P) (fun i => s_sum (zip_with s_mul (nth i L []) (nth i P []))).
Proof.
  induction P as [|p P IH]; intros L HL.
  - by destruct L.
  - destruct L as [|l L]; [discriminate|]. simpl. f_equal. apply IH.
    simpl in HL. lia.
Qed.

Lemma map_map_id {X : Type} (l : list (list X)) : map (map (fun x => x)) l = l.
Proof.
  induction l as [|r l IH]; simpl; [done|]. rewrite IH. f_equal.
  induction r as [|x r IHr]; simpl; [done|]. by rewrite IHr.
Qed.

(** ** The masked pass: [single_ll] against the steps of the specification *)

Lemma fold_layers_nrows {A : Type}
    (ls : list (Array2 A -> list A -> Array2 A)) (is_pad : list A) :
  Forall (fun layer => forall x p, nrows (layer x p) = nrows x) ls ->
  forall x, nrows (fold_left (fun x layer => layer x is_pad) ls x) = nrows x.
Proof.
  induction 1 as [|layer ls Hl _ IH]; intros x; simpl; [done|].
  by rewrite IH, Hl.
Qed.

Lemma getitem_clamped_lookup {A : Type} `{SA : Scalar A} (x : list (list A)) (i : nat)
    (r : list A) :
  x !! i = Some r -> getitem_clamped x i = r.
Proof.
  intros Hr. unfold getitem_clamped.
  pose proof (lookup_lt_Some _ _ _ Hr) as Hi.
  rewrite Nat.min_l by lia. by rewrite nth_lookup, Hr.
Qed.

Lemma vmap_map {X Y : Type} (f : X -> result Y) (g : X -> Y) (xs : list X) :
  (forall x, x ∈ xs -> f x = inr (g x)) -> vmap f xs = inr (map g xs).
Proof.
  induction xs as [|x xs IH]; intros Hf; [done|].
  simpl. rewrite (Hf x) by (by apply elem_of_cons; left). simpl.
  rewrite IH; [done|]. intros y Hy. apply Hf. by apply elem_of_cons; right.
Qed.

Section MaskedPass.

Context {A : Type} `{SA : Scalar A}.
Variable ESM_TOKENS : gmap string Z.
Variable self : ESM2PseudoLikelihood A.
Variable m : Z.

Hypothesis Hm : ESM_TOKENS !! "m" = Some m.
Hypothesis Hweight : nrows (embedding_weight (esm self)) = 33.

(** What a pass feeds to the trunk. *)
Lemma trunk_input_pass (n : nat) (esm_toks : Array2 A) (index : nat) :
  ncols esm_toks = 33 ->
  trunk_input ESM_TOKENS self n esm_toks index
  = inr (mkArray2 (ncols (embedding_weight (esm self)))
           (pass_trunk_rows (embedding_weight (esm self)) m n (rows esm_toks) index)).
Proof.
  intros Hc. unfold trunk_input, masked_embedding, masked_tokens, dict_get.
  rewrite Hm. cbn [bind ret].
  unfold at_set. rewrite one_hot_length, Hc. rewrite decide_True by (by left).
  unfold stretch. rewrite one_hot_length. rewrite decide_True by done. cbn [bind ret].
  unfold matmul. cbn [ncols rows]. rewrite decide_True by (by rewrite Hweight).
  cbn [bind ret]. reflexivity.
Qed.

(** What a pass returns: the log-probabilities of the row it masks. *)
Lemma single_ll_pass (n : nat) (esm_toks : Array2 A) (index : nat) :
  ncols esm_toks = 33 ->
  index < nrows esm_toks ->
  Forall (fun layer => forall x p, nrows (layer x p) = nrows x) (layers (esm self)) ->
  single_ll ESM_TOKENS self n esm_toks index
  = inr (pass_log_probabilities (esm self) m n (rows esm_toks) index).
Proof.
  intros Hc Hi Hlayers. unfold single_ll. rewrite trunk_input_pass by done.
  cbn [bind]. unfold ret. apply (f_equal inr). apply getitem_clamped_lookup.
  unfold _apply_trunk. cbn [rows]. rewrite !list_lookup_fmap.
  set (embedding := mkArray2 (ncols (embedding_weight (esm self)))
                      (pass_trunk_rows (embedding_weight (esm self)) m n (rows esm_toks) index)).
  pose proof (fold_layers_nrows (layers (esm self)) (replicate (n + 2) s_zero)
                Hlayers embedding) as Hfold.
  assert (nrows embedding = nrows esm_toks) as Hrows.
  { unfold embedding, nrows, pass_trunk_rows, pass_embedded_rows, pass_masked_rows.
    cbn [rows]. by rewrite length_map, length_insert, length_map, length_insert. }
  destruct (lookup_lt_is_Some_2
              (rows (fold_left (fun x layer => layer x (replicate (n + 2) s_zero))
                       (layers (esm self)) embedding)) index) as [hidden Hh].
  { unfold nrows in Hfold, Hrows, Hi. lia. }
  rewrite Hh. cbn [fmap option_fmap option_map]. unfold pass_log_probabilities.
  fold embedding. cbv zeta. by rewrite (nth_lookup _ index), Hh.
Qed.

(** The stacked rows: one pass for each of the indices 1, ..., [N]. *)
Lemma vmap_single_ll_passes (N : nat) (proj : Array2 A) :
  nrows proj = N ->
  Forall (fun layer => forall x p, nrows (layer x p) = nrows x) (layers (esm self)) ->
  vmap (single_ll ESM_TOKENS self N (mkArray2 33 (bracketed_rows proj))) (arange 1 (N + 1))
  = inr (map (pass_log_probabilities (esm self) m N (bracketed_rows proj)) (seq 1 N)).
Proof.
  intros Hn Hlayers. unfold arange. replace (N + 1 - 1) with N by lia.
  apply vmap_map. intros index Hindex. apply elem_of_seq in Hindex.
  apply (single_ll_pass N (mkArray2 33 (bracketed_rows proj)) index); [done| |done].
  unfold nrows, bracketed_rows in *. cbn [rows length]. rewrite length_app. simpl. lia.
Qed.

End MaskedPass.

(** ** Claims on [ESM2PseudoLikelihood.__call__] *)

(** C1.  For every soft sequence of length [N], with [N] at least 1, the
    scorer returns the pair of the loss -(1/N) * sum over the [N] positions
    [i] and the model vocabulary [v] of (log-probability row of position
    [i], component [v]) * (projected row [i], component [v]), and the
    metrics mapping whose entry ["esm_pll"] is the negation of that loss.
    The log-probability row of position [i] is that of the masked pass at
    bracketed index [1 + i], as the specification words it step by step
    ([pass_log_probabilities]): the row at that index replaced by the mask
    row, the rows embedded, the embedding row at that index zeroed, all
    entries rescaled, the layers applied, and the log-softmax of the logit
    head of the normalised row at that index.  The configuration is the one
    under which the scorer runs (see [ESM2PseudoLikelihood_call_steps]), with
    layers that keep the number of rows and a logit head that returns
    model-vocabulary logits. *)
Theorem ESM2PseudoLikelihood_call_value
    (TOKENS : list string) (ESM_TOKENS : gmap string Z) (Key : Type)
    (self : ESM2PseudoLikelihood R) (seq_standard_tokens : Array2 R) (key : Key)
    (m : Z) :
  vocab_ok TOKENS ESM_TOKENS = true ->
  size ESM_TOKENS = 33 ->
  ESM_TOKENS !! "m" = Some m ->
  nrows (embedding_weight (esm self)) = 33 ->
  logit_dim (esm self) = 33 ->
  Forall (fun layer => forall x p, nrows (layer x p) = nrows x) (layers (esm self)) ->
  ncols seq_standard_tokens = length TOKENS ->
  1 <= nrows seq_standard_tokens ->
  let N := nrows seq_standard_tokens in
  exists T proj loss,
    boltz_to_esm_matrix TOKENS ESM_TOKENS = inr T /\
    matmul seq_standard_tokens T = inr proj /\
    ESM2PseudoLikelihood_call TOKENS ESM_TOKENS Key self seq_standard_tokens key
    = inr (loss, {[ "esm_pll" := (- loss)%R ]}) /\
    loss = (- (1 / INR N) *
            big_sum N (fun i =>
              big_sum 33 (fun v =>
                nth v (pass_log_probabilities (esm self) m N (bracketed_rows proj) (1 + i)) 0
                * entry 0 proj i v)))%R.
Proof.
  intros Hvocab Hsize Hm Hweight Hlogit Hlayers Hshape _ N.
  destruct (ESM2PseudoLikelihood_call_steps TOKENS ESM_TOKENS Key self
              seq_standard_tokens Hvocab Hsize (ex_intro _ m Hm) Hweight Hshape key)
    as (T & proj & lls & HT & Hproj & Hcp & Hnp & Hrp & Hbr & Hlls & Hlen & Hcall).
  fold N in Hnp, Hlls, Hlen.
  change (one_hot 0 33 :: rows proj ++ [one_hot 2 33]) with (bracketed_rows proj) in Hlls.
  rewrite (vmap_single_ll_passes ESM_TOKENS self m Hm Hweight N proj Hnp Hlayers) in Hlls.
  injection Hlls as <-.
  set (pass := pass_log_probabilities (esm self) m N (bracketed_rows proj)) in *.
  assert (elementwise2 "mul" s_mul
            (mkArray2 (logit_dim (esm self))
               (if stop_grad self then map (map stop_gradient) (map pass (seq 1 N))
                else map pass (seq 1 N))) proj
          = inr (mkArray2 33 (zip_with (zip_with s_mul) (map pass (seq 1 N)) (rows proj))))
    as Hprod.
  { rewrite elementwise2_same.
    - simpl. rewrite Hlogit. destruct (stop_grad self); [|done].
      simpl. by rewrite map_map_id.
    - unfold nrows at 1. simpl. destruct (stop_grad self); simpl;
        rewrite ?length_map, length_seq; congruence.
    - simpl. congruence. }
  specialize (Hcall _ Hprod).
  exists T, proj,
    (- (1 / INR N *
        big_sum N (fun i =>
          big_sum 33 (fun v => nth v (pass (1 + i)%nat) 0 * entry 0 proj i v))))%R.
  split; [done|]. split; [done|].
  assert (mean (sum_last (mkArray2 33 (zip_with (zip_with s_mul) (map pass (seq 1 N))
                                         (rows proj))))
          = (1 / INR N *
             big_sum N (fun i =>
               big_sum 33 (fun v => nth v (pass (1 + i)%nat) 0 * entry 0 proj i v)))%R) as Hmean.
  { unfold mean, sum_last. simpl rows. rewrite length_map, length_zip_with.
    unfold nrows in Hnp. rewrite length_map, length_seq, Hnp, Nat.min_id.
    rewrite s_sum_rows by (rewrite length_map, length_seq; congruence). rewrite Hnp.
    simpl s_div. simpl s_const.
    rewrite (big_sum_ext N _
               (fun i => big_sum 33 (fun v => (nth v (pass (1 + i)%nat) 0 * entry 0 proj i v)%R))).
    - unfold Rdiv. ring.
    - intros i Hi. rewrite s_sum_zip_with_mul.
      assert (length (nth i (rows proj) []) = 33) as ->.
      { rewrite Forall_forall in Hrp. apply Hrp. apply list_elem_of_In, nth_In. lia. }
      apply big_sum_ext. intros v _. unfold entry. do 2 f_equal.
      rewrite (nth_lookup (map pass (seq 1 N))), list_lookup_fmap.
      by rewrite lookup_seq_lt. }
  rewrite Hcall, Hmean. change (@s_neg R R_scalar) with Ropp.
  split; [by rewrite Ropp_involutive|]. unfold pass. ring.
Qed.

Lemma ESM2PseudoLikelihood_call_value_witness :
  exists loss : R,
    ESM2PseudoLikelihood_call TOKENS20 ESM_TOKENS33 unit
      (mkESM2PseudoLikelihood (toy_esm (replicate 33 0%R)) true) one_residue tt
    = inr (loss, {[ "esm_pll" := (- loss)%R ]}).
Proof.
  destruct (ESM2PseudoLikelihood_call_value TOKENS20 ESM_TOKENS33 unit
              (mkESM2PseudoLikelihood (toy_esm (replicate 33 0%R)) true) one_residue tt 32)
    as (T & proj & loss & _ & _ & Hcall & _).
  - vm_compute. reflexivity.
  - vm_compute. reflexivity.
  - vm_compute. reflexivity.
  - vm_compute. reflexivity.
  - vm_compute. reflexivity.
  - repeat constructor.
  - vm_compute. reflexivity.
  - vm_compute. lia.
  - exists loss. exact Hcall.
Defined.

(** A run of the scorer: with uniform logits the loss of a one-residue
    sequence is the logarithm of the size of the model vocabulary. *)
Lemma uniform_logits_loss_with (e l : R -> R) :
  e 0%R = 1%R ->
  exists loss metrics,
    ESM2PseudoLikelihood_call (SA:=R_scalar_with e l) TOKENS20 ESM_TOKENS33 unit
      (mkESM2PseudoLikelihood (toy_esm (SA:=R_scalar_with e l) (replicate 33 0%R)) true)
      (one_residue (SA:=R_scalar_with e l)) tt
    = inr (loss, metrics) /\
    loss = l 33%R /\
    metrics !! "esm_pll" = Some (- l 33)%R.
Proof.
  intros He. change (e R0 = R1) in He.
  eexists. eexists. split; [vm_compute; reflexivity|].
  rewrite !He.
  repeat match goal with
         | |- context [l ?x] =>
             lazymatch x with
             | 33%R => fail
             | _ => replace x with 33%R by lra
             end
         end.
  split; [lra|]. vm_compute. f_equal. lra.
Qed.

Example uniform_logits_loss :
  exists loss metrics,
    ESM2PseudoLikelihood_call TOKENS20 ESM_TOKENS33 unit
      (mkESM2PseudoLikelihood (toy_esm (replicate 33 0%R)) true) one_residue tt
    = inr (loss, metrics) /\
    loss = ln 33%R /\
    metrics !! "esm_pll" = Some (- ln 33)%R.
Proof. exact (uniform_logits_loss_with exp ln exp_0). Qed.



(** C5.  An input whose trailing dimension differs from the size of the
    design vocabulary makes the call fail at call time, whatever the model
    and the key: no result is returned and nothing is broadcast.  The error
    is reported by the first operation on the input, the matrix product with
    the mapping matrix, which checks the contracted dimension and raises its
    shape error; no embedding and no trunk computation comes before it, as
    the outcome does not depend on the model.  Only the construction of the
    mapping matrix, which does not read the input, precedes the check: when
    it raises, its exception is the one of the call. *)
Theorem ESM2PseudoLikelihood_call_shape_mismatch
    {A : Type} `{SA : Scalar A}
    (TOKENS : list string) (ESM_TOKENS : gmap string Z) (Key : Type)
    (seq_standard_tokens : Array2 A) :
  ncols seq_standard_tokens <> length TOKENS ->
  exists e : exn,
    (forall (self : ESM2PseudoLikelihood A) (key : Key),
       ESM2PseudoLikelihood_call TOKENS ESM_TOKENS Key self seq_standard_tokens key
       = inl e) /\
    e = match boltz_to_esm_matrix (A:=A) TOKENS ESM_TOKENS with
        | inl e' => e'
        | inr _ => ShapeError "dot_general"
        end.
Proof.
  intros Hne. eexists. split; [|reflexivity].
  intros self key. unfold ESM2PseudoLikelihood_call.
  destruct (boltz_to_esm_matrix (A:=A) TOKENS ESM_TOKENS) as [e|T] eqn:HT; [done|].
  simpl. apply boltz_to_esm_matrix_inr in HT as (_ & Hn & _).
  unfold matmul. rewrite decide_False by congruence. reflexivity.
Qed.

Lemma ESM2PseudoLikelihood_call_shape_mismatch_witness :
  ESM2PseudoLikelihood_call TOKENS20 ESM_TOKENS33 unit
    (mkESM2PseudoLikelihood (toy_esm (replicate 33 0%R)) false)
    (one_hot_rows [0%Z; 1%Z] 21) tt
  = inl (ShapeError "dot_general").
Proof.
  destruct (ESM2PseudoLikelihood_call_shape_mismatch TOKENS20 ESM_TOKENS33 unit
              (one_hot_rows (A:=R) [0%Z; 1%Z] 21)) as (e & Hcall & He).
  - vm_compute. lia.
  - rewrite Hcall. rewrite He. vm_compute. reflexivity.
Defined.

(** ** The rescaling factor *)

Lemma rescale_closed_form (n : nat) :
  rescale n = ((1 - 0.15 * 0.8) * (1 + / (INR n + 1)))%R.
Proof.
  unfold rescale, mask_ratio_train. rewrite plus_INR. simpl INR.
  pose proof (pos_INR n) as Hn. field. split; lra.
Qed.

Lemma rescale_limit : Un_cv rescale (1 - 0.15 * 0.8)%R.
Proof.
  intros eps Heps.
  destruct (archimed_cor1 eps Heps) as (N0 & Hinv & HN0).
  exists N0. intros n Hn.
  rewrite rescale_closed_form. unfold Rdist.
  assert (0 < INR N0)%R as Hpos by (apply lt_0_INR; lia).
  assert (INR N0 <= INR n)%R as Hle by (apply le_INR; lia).
  assert (0 < / (INR n + 1) < / INR N0)%R as [Hlo Hhi].
  { split.
    - apply Rinv_0_lt_compat. lra.
    - apply Rinv_lt_contravar; [|lra]. apply Rmult_lt_0_compat; lra. }
  rewrite Rabs_pos_eq; nra.
Qed.

Lemma nth_map_scale (r : list R) (c : R) :
  forall j, nth j (map (fun x => s_mul x (s_const c)) r) 0%R = (nth j r 0 * c)%R.
Proof.
  induction r as [|x r IH]; intros [|j]; simpl; try lra. apply IH.
Qed.

Lemma entry_scale (a : Array2 R) (c : R) (i j : nat) :
  entry 0%R (scale a c) i j = (entry 0 a i j * c)%R.
Proof.
  unfold entry, scale. simpl rows.
  change ([] : list R) with (map (fun x : R => s_mul x (s_const c)) []) at 1.
  rewrite map_nth. apply nth_map_scale.
Qed.

(** C4.  In the pass at every index the whole embedding (the masked tokens
    times the embedding matrix, with the row at the index zeroed) is
    multiplied, entry by entry, by the factor
    (1 - 0.15*0.8) / (1 - 1/(N+2)), and the product is what the trunk is
    applied to; the factor is a function of [N] alone, and it tends to
    1 - 0.15*0.8 as [N] grows. *)
Theorem single_ll_rescales_embedding
    (TOKENS : list string) (ESM_TOKENS : gmap string Z)
    (self : ESM2PseudoLikelihood R) (seq_standard_tokens : Array2 R) :
  vocab_ok TOKENS ESM_TOKENS = true ->
  size ESM_TOKENS = 33 ->
  is_Some (ESM_TOKENS !! "m") ->
  nrows (embedding_weight (esm self)) = 33 ->
  ncols seq_standard_tokens = length TOKENS ->
  let N := nrows seq_standard_tokens in
  exists T proj esm_toks,
    boltz_to_esm_matrix TOKENS ESM_TOKENS = inr T /\
    matmul seq_standard_tokens T = inr proj /\
    bracket proj = inr esm_toks /\
    (forall index, 1 <= index <= N ->
       exists embedding,
         masked_embedding ESM_TOKENS self esm_toks index = inr embedding /\
         nrows embedding = N + 2 /\
         trunk_input ESM_TOKENS self N esm_toks index
         = inr (scale embedding (rescale N)) /\
         (forall i j,
            entry 0%R (scale embedding (rescale N)) i j
            = (entry 0 embedding i j * ((1 - 0.15 * 0.8) / (1 - 1 / INR (N + 2))))%R) /\
         single_ll ESM_TOKENS self N esm_toks index
         = inr (getitem_clamped
                  (map log_softmax
                     (map (logit_head (esm self))
                        (rows (_apply_trunk self (scale embedding (rescale N))
                                 (replicate (N + 2) 0%R)))))
                  index)) /\
    rescale N = ((1 - 0.15 * 0.8) / (1 - 1 / INR (N + 2)))%R /\
    Un_cv rescale (1 - 0.15 * 0.8)%R.
Proof.
  intros Hvocab Hsize Hmask Hweight Hshape N.
  destruct (ESM2PseudoLikelihood_call_steps TOKENS ESM_TOKENS unit self
              seq_standard_tokens Hvocab Hsize Hmask Hweight Hshape tt)
    as (T & proj & lls & HT & Hproj & Hcp & Hnp & Hrp & Hbr & _).
  fold N in Hnp. unfold nrows in Hnp.
  set (esm_toks := mkArray2 33 (one_hot (A:=R) 0 33 :: rows proj ++ [one_hot 2 33])) in *.
  exists T, proj, esm_toks.
  split; [done|]. split; [done|]. split; [done|].
  split; [|split; [reflexivity|apply rescale_limit]].
  intros index Hindex.
  destruct (trunk_input_inr ESM_TOKENS self seq_standard_tokens Hmask Hweight
              esm_toks index eq_refl) as (m & e & Hm & He & Hne & Hme & Hti).
  fold N in Hti.
  exists (at_set_scalar e index (s_const 0%R)).
  split; [done|].
  split.
  { unfold nrows, at_set_scalar. simpl rows. rewrite length_insert.
    unfold nrows in Hne. rewrite Hne. simpl. rewrite length_app. simpl. lia. }
  split; [done|].
  split. { intros i j. apply entry_scale. }
  unfold single_ll. rewrite Hti. reflexivity.
Qed.

Lemma single_ll_rescales_embedding_witness :
  exists embedding : Array2 R,
    nrows embedding = 3 /\
    forall i j,
      entry 0%R (scale embedding (rescale 1)) i j
      = (entry 0 embedding i j * ((1 - 0.15 * 0.8) / (1 - 1 / 3)))%R.
Proof.
  destruct (single_ll_rescales_embedding TOKENS20 ESM_TOKENS33
              (mkESM2PseudoLikelihood (toy_esm (replicate 33 0%R)) true) one_residue)
    as (T & proj & esm_toks & _ & _ & _ & Hpass & _ & _).
  - vm_compute. reflexivity.
  - vm_compute. reflexivity.
  - eexists. vm_compute. reflexivity.
  - vm_compute. reflexivity.
  - vm_compute. reflexivity.
  - destruct (Hpass 1) as (embedding & _ & Hrows & _ & Hentry & _).
    + change (nrows (one_residue (A:=R))) with 1. lia.
    + exists embedding. split; [exact Hrows|]. intros i j. rewrite Hentry.
      change (nrows (one_residue (A:=R))) with 1. simpl INR. f_equal. f_equal. lra.
Defined.

(** ** Fixed positions *)

Section SetPositionsFacts.

Context {A : Type} `{SA : Scalar A}.

Lemma scatter_rows_fold (a : list (list A)) (ps : list Z) (vals : list (list A)) :
  scatter_rows a ps vals = fold_left (scatter_step (length a)) (zip ps vals) a.
Proof. reflexivity. Qed.

Lemma scatter_fold_length (n : nat) (pvs : list (Z * list A)) :
  forall acc, length (fold_left (scatter_step n) pvs acc) = length acc.
Proof.
  induction pvs as [|pv pvs IH]; intros acc; simpl; [done|].
  rewrite IH. unfold scatter_step. destruct (norm_index (fst pv) n); [|done].
  by rewrite length_insert.
Qed.

(** A row that no update denotes is left as it was. *)
Lemma scatter_fold_untouched (n j : nat) (pvs : list (Z * list A)) :
  forall acc,
    (forall pv, pv ∈ pvs -> norm_index (fst pv) n <> Some j) ->
    fold_left (scatter_step n) pvs acc !! j = acc !! j.
Proof.
  induction pvs as [|pv pvs IH]; intros acc Hno; simpl; [done|].
  rewrite IH.
  - unfold scatter_step. destruct (norm_index (fst pv) n) as [j'|] eqn:Hj'; [|done].
    apply list_lookup_insert_ne. intros ->. apply (Hno pv); [|done].
    by apply elem_of_cons; left.
  - intros pv' Hin. apply Hno. by apply elem_of_cons; right.
Qed.

(** A row that exactly one update denotes holds the value of that update. *)
Lemma scatter_fold_written (n j : nat) (pvs : list (Z * list A)) :
  forall acc k p v,
    length acc = n ->
    pvs !! k = Some (p, v) ->
    norm_index p n = Some j ->
    (forall k' pv, pvs !! k' = Some pv -> norm_index (fst pv) n = Some j -> k' = k) ->
    fold_left (scatter_step n) pvs acc !! j = Some v.
Proof.
  induction pvs as [|pv pvs IH]; intros acc k p v Hlen Hk Hj Huniq; [done|].
  simpl. destruct k as [|k]; simpl in Hk.
  - inversion Hk; subst pv. rewrite scatter_fold_untouched.
    + unfold scatter_step. simpl. rewrite Hj. apply list_lookup_insert_eq.
      rewrite Hlen. by eapply norm_index_lt.
    + intros pv' Hin Hpv'. apply list_elem_of_lookup in Hin as [k' Hk'].
      specialize (Huniq (S k') pv' Hk' Hpv'). discriminate.
  - apply (IH _ k p v).
    + unfold scatter_step.
      destruct (norm_index (fst pv) n); [by rewrite length_insert|done].
    + done.
    + done.
    + intros k' pv' Hk' Hpv'. specialize (Huniq (S k') pv' Hk' Hpv'). lia.
Qed.

Lemma broadcast_to_same (a : Array2 A) :
  broadcast_to a (nrows a) (ncols a) = inr (mkArray2 (ncols a) (rows a)).
Proof.
  unfold broadcast_to. rewrite decide_True by (split; by left).
  by rewrite stretch2_same.
Qed.

End SetPositionsFacts.

(** C9.  For a soft sequence of shape (M, design-vocab-size), M the number of
    variable positions, and variable positions that denote pairwise distinct
    rows, [SetPositions.sequence] returns the array whose row at every
    position that no variable position denotes is the one-hot row of the
    wildtype token, unchanged by the substitution, and whose row at the
    position that the [k]-th variable position denotes is row [k] of the
    sequence; [SetPositions.__call__] is the loss at that array.  An index
    denotes a row as Python reads it: a negative index counts from the end,
    and an index out of range denotes no row. *)
Theorem SetPositions_sequence_rows
    {A : Type} `{SA : Scalar A}
    (TOKENS : list string) (Key : Type)
    (self : SetPositions A Key) (seq : Array2 A) (key : Key) :
  shape seq = (length (variable_positions self), length TOKENS) ->
  (forall k1 k2 p1 p2 j,
     variable_positions self !! k1 = Some p1 ->
     variable_positions self !! k2 = Some p2 ->
     norm_index p1 (length (wildtype self)) = Some j ->
     norm_index p2 (length (wildtype self)) = Some j ->
     k1 = k2) ->
  exists out,
    SetPositions_sequence TOKENS Key self seq = inr out /\
    shape out = (length (wildtype self), length TOKENS) /\
    (forall j w,
       wildtype self !! j = Some w ->
       (forall p, p ∈ variable_positions self ->
                  norm_index p (length (wildtype self)) <> Some j) ->
       rows out !! j = Some (one_hot w (length TOKENS))) /\
    (forall k p j,
       variable_positions self !! k = Some p ->
       norm_index p (length (wildtype self)) = Some j ->
       rows out !! j = rows seq !! k) /\
    SetPositions_call TOKENS Key self seq key = loss self out key.
Proof.
  intros Hshape Hdistinct. unfold shape in Hshape. inversion Hshape as [[Hn Hc]].
  unfold SetPositions_sequence, SetPositions_call.
  rewrite decide_True by done.
  unfold SetPositions_sequence.
  rewrite <- Hn, <- Hc. rewrite broadcast_to_same. simpl bind. rewrite Hc.
  eexists. split; [reflexivity|]. simpl rows. simpl ncols.
  rewrite scatter_rows_fold. rewrite length_map.
  assert (length (zip (variable_positions self) (rows seq))
          = length (variable_positions self)) as Hzip.
  { rewrite length_zip_with. unfold nrows in Hn. lia. }
  split; [|split; [|split]].
  - unfold shape, nrows. simpl. by rewrite scatter_fold_length, length_map.
  - intros j w Hw Hno. rewrite scatter_fold_untouched.
    + rewrite list_lookup_fmap, Hw. reflexivity.
    + intros [p v] Hin. simpl. apply Hno.
      apply list_elem_of_lookup in Hin as [k Hk].
      apply lookup_zip_with_Some in Hk as (p' & v' & [= <- <-] & Hp & _).
      by eapply list_elem_of_lookup_2.
  - intros k p j Hp Hj.
    assert (k < length (rows seq)) as Hk.
    { unfold nrows in Hn. rewrite Hn. by eapply lookup_lt_Some. }
    destruct (lookup_lt_is_Some_2 _ _ Hk) as [v Hv]. rewrite Hv.
    apply (scatter_fold_written _ _ _ _ k p v).
    + by rewrite length_map.
    + apply lookup_zip_with_Some. by exists p, v.
    + done.
    + intros k' [p' v'] Hk' Hj'. simpl in Hj'.
      apply lookup_zip_with_Some in Hk' as (p'' & v'' & [= <- <-] & Hp' & _).
      by eapply Hdistinct.
  - reflexivity.
Qed.

Lemma SetPositions_sequence_rows_witness :
  exists out : Array2 R,
    SetPositions_sequence TOKENS20 unit
      (mkSetPositions [0; 3; 7]%Z [2; 0]%Z (fun _ _ => inr (0%R, ∅)))
      (one_hot_rows [5; 6]%Z 20) = inr out /\
    rows out !! 1 = Some (one_hot 3 20) /\
    rows out !! 2 = Some (one_hot 5 20) /\
    rows out !! 0 = Some (one_hot 6 20).
Proof.
  destruct (SetPositions_sequence_rows TOKENS20 unit
              (mkSetPositions [0; 3; 7]%Z [2; 0]%Z (fun _ _ => inr (0%R, ∅)))
              (one_hot_rows [5; 6]%Z 20) tt)
    as (out & Hout & _ & Hfixed & Hvar & _).
  - vm_compute. reflexivity.
  - intros k1 k2 p1 p2 j H1 H2 H3 H4.
    destruct k1 as [|[|k1]], k2 as [|[|k2]]; simpl in H1, H2; try done;
      inversion H1; inversion H2; subst; vm_compute in H3, H4; congruence.
  - exists out. split; [exact Hout|]. split; [|split].
    + apply (Hfixed 1 3%Z); [reflexivity|].
      intros p Hp. apply list_elem_of_In in Hp. simpl in Hp.
      destruct Hp as [<-|[<-|[]]]; vm_compute; discriminate.
    + apply (Hvar 0 2%Z 2); reflexivity.
    + apply (Hvar 1 0%Z 0); reflexivity.
Defined.

(** The substitution with an index that counts from the end. *)
Example SetPositions_sequence_negative_index :
  SetPositions_sequence (A:=R) TOKENS20 unit
    (mkSetPositions [0; 3; 7]%Z [-1]%Z (fun _ _ => inr (0%R, ∅)))
    (one_hot_rows [5]%Z 20)
  = inr (one_hot_rows [0; 3; 5]%Z 20).
Proof. vm_compute. reflexivity. Qed.

(** ** The penalty on fixed positions *)

Lemma big_sum_nonneg (k : nat) :
  forall f : nat -> R, (forall j, j < k -> (0 <= f j)%R) -> (0 <= big_sum k f)%R.
Proof.
  induction k as [|k IH]; intros f Hf; simpl; [lra|].
  pose proof (Hf 0 ltac:(lia)). 
  assert (0 <= big_sum k (fun j => f (S j)))%R by (apply IH; intros j Hj; apply Hf; lia).
  lra.
Qed.

(** The sum of the squared differences of two rows of one length. *)
Lemma s_sum_squared_differences (v : list R) :
  forall u : list R,
    length u = length v ->
    s_sum (map (fun x => s_mul x x) (zip_with s_sub u v))
    = big_sum (length v) (fun j => ((nth j u 0 - nth j v 0) * (nth j u 0 - nth j v 0))%R).
Proof.
  induction v as [|y v IH]; intros u Hu.
  - by destruct u.
  - destruct u as [|x u]; [discriminate|]. simpl. f_equal. apply IH.
    simpl in Hu. lia.
Qed.

Lemma nth_zip_with {X Y W : Type} (f : X -> Y -> W) (l : list X) (k : list Y)
    (dx : X) (dy : Y) (dw : W) (i : nat) :
  i < length l -> i < length k ->
  nth i (zip_with f l k) dw = f (nth i l dx) (nth i k dy).
Proof.
  intros Hl Hk. rewrite !nth_lookup, lookup_zip_with.
  destruct (lookup_lt_is_Some_2 l i Hl) as [x ->].
  destruct (lookup_lt_is_Some_2 k i Hk) as [y ->]. reflexivity.
Qed.

(** C10.  For a soft sequence of the shape of the target,
    [FixedPositionsPenalty.__call__] returns the sum, over the positions
    where [position_mask] is true and no other, of the squared Euclidean
    distance between the sequence row and the target row; the value is
    nonnegative, it is zero when the sequence equals the target at every
    masked position, and the metrics entry ["fixed_position_penalty"] is the
    returned loss. *)
Theorem FixedPositionsPenalty_call_value
    (Key : Type) (self : FixedPositionsPenalty R) (seq : Array2 R) (key : Key) :
  wf_array seq ->
  wf_array (target self) ->
  shape seq = shape (target self) ->
  length (position_mask self) = nrows seq ->
  exists r,
    FixedPositionsPenalty_call Key self seq key
    = inr (r, {[ "fixed_position_penalty" := r ]}) /\
    r = big_sum (nrows seq) (fun i =>
          if nth i (position_mask self) false
          then big_sum (ncols seq) (fun v =>
                 ((entry 0 seq i v - entry 0 (target self) i v) *
                  (entry 0 seq i v - entry 0 (target self) i v))%R)
          else 0%R) /\
    (0 <= r)%R /\
    ((forall i, i < nrows seq -> nth i (position_mask self) false = true ->
                nth i (rows seq) [] = nth i (rows (target self)) []) ->
     r = 0%R).
Proof.
  intros Hwf Hwft Hshape Hmask. unfold shape in Hshape. inversion Hshape as [[Hn Hc]].
  unfold FixedPositionsPenalty_call.
  rewrite elementwise2_same by done. cbn [bind rows ncols].
  unfold sum_last. cbn [rows].
  rewrite elementwise1_same.
  2:{ rewrite !length_map, length_zip_with. unfold nrows in *. lia. }
  cbn [bind]. eexists. split; [reflexivity|].
  set (term := fun i : nat =>
          if nth i (position_mask self) false
          then big_sum (ncols seq) (fun v =>
                 ((entry 0 seq i v - entry 0 (target self) i v) *
                  (entry 0 seq i v - entry 0 (target self) i v))%R)
          else 0%R).
  assert (s_sum (zip_with s_mul
             (map s_sum (map (map (fun x : R => s_mul x x))
                (zip_with (zip_with s_sub) (rows seq) (rows (target self)))))
             (map of_bool (position_mask self)))
          = big_sum (nrows seq) term) as ->.
  { rewrite s_sum_zip_with_mul, length_map, Hmask.
    apply big_sum_ext. intros i Hi. unfold term.
    change (0%R) with (of_bool (A:=R) false) at 2. rewrite map_nth.
    change (0%R) with (s_sum (A:=R) []) at 1. rewrite map_nth.
    change ([] : list R) with (map (fun x : R => s_mul x x) []) at 1. rewrite map_nth.
    rewrite (nth_zip_with _ _ _ [] [] []) by (unfold nrows in *; lia).
    assert (length (nth i (rows seq) []) = ncols seq) as Hli.
    { unfold wf_array in Hwf. rewrite Forall_forall in Hwf. apply Hwf.
      apply list_elem_of_In, nth_In. done. }
    assert (length (nth i (rows (target self)) []) = ncols seq) as Hlt.
    { unfold wf_array in Hwft. rewrite Forall_forall in Hwft. rewrite Hc. apply Hwft.
      apply list_elem_of_In, nth_In. unfold nrows in *. lia. }
    rewrite s_sum_squared_differences by congruence. rewrite Hlt.
    destruct (nth i (position_mask self) false); unfold of_bool, entry;
      [apply Rmult_1_r|apply Rmult_0_r]. }
  split; [reflexivity|]. split.
  - apply big_sum_nonneg. intros i Hi. unfold term.
    destruct (nth i (position_mask self) false); [|lra].
    apply big_sum_nonneg. intros v _. cbv beta.
    apply (Rle_0_sqr (entry 0 seq i v - entry 0 (target self) i v)%R).
  - intros Heq. apply big_sum_zero. intros i Hi. unfold term.
    destruct (nth i (position_mask self) false) eqn:Hm; [|done].
    apply big_sum_zero. intros v _. cbv beta. unfold entry. rewrite (Heq i Hi Hm). lra.
Qed.

Lemma FixedPositionsPenalty_call_value_witness :
  exists r : R,
    FixedPositionsPenalty_call unit
      (mkFixedPositionsPenalty [true; false] (one_hot_rows [4; 0]%Z 20))
      (one_hot_rows [4; 9]%Z 20) tt
    = inr (r, {[ "fixed_position_penalty" := r ]}) /\
    r = 0%R.
Proof.
  destruct (FixedPositionsPenalty_call_value unit
              (mkFixedPositionsPenalty [true; false] (one_hot_rows [4; 0]%Z 20))
              (one_hot_rows [4; 9]%Z 20) tt)
    as (r & Hcall & _ & _ & Hzero).
  - repeat constructor.
  - repeat constructor.
  - reflexivity.
  - reflexivity.
  - exists r. split; [exact Hcall|]. apply Hzero.
    intros [|[|i]] Hi Hm; simpl in Hm; try discriminate; [reflexivity|].
    vm_compute in Hi. lia.
Defined.

(** ** Gradients: the scorer on dual numbers *)

Section Tangents.

Lemma tf_add (x y : dual) : tangent_zero x -> tangent_zero y -> tangent_zero (s_add x y).
Proof. unfold tangent_zero. simpl. intros -> ->. lra. Qed.

Lemma tf_mul (x y : dual) : tangent_zero x -> tangent_zero y -> tangent_zero (s_mul x y).
Proof. unfold tangent_zero. simpl. intros -> ->. lra. Qed.

Lemma tf_div_const (x : dual) (c : R) : tangent_zero x -> tangent_zero (s_div x (s_const c)).
Proof. unfold tangent_zero. simpl. intros ->. unfold Rdiv. ring. Qed.

Lemma tf_neg (x : dual) : tangent_zero x -> tangent_zero (s_neg x).
Proof. unfold tangent_zero. simpl. intros ->. lra. Qed.

Lemma tf_s_sum (l : list dual) : Forall tangent_zero l -> tangent_zero (s_sum l).
Proof.
  induction 1 as [|x l Hx _ IH]; [reflexivity|].
  change (s_sum (x :: l)) with (s_add x (s_sum l)). by apply tf_add.
Qed.

Lemma tf_zip_with_mul (u : list dual) :
  forall v, Forall tangent_zero u -> Forall tangent_zero v -> Forall tangent_zero (zip_with s_mul u v).
Proof.
  induction u as [|x u IH]; intros v Hu Hv; [constructor|].
  destruct v as [|y v]; [constructor|].
  apply Forall_cons in Hu as [Hx Hu]. apply Forall_cons in Hv as [Hy Hv].
  simpl. constructor; [by apply tf_mul|by apply IH].
Qed.

Lemma tf_one_hot (x : Z) (k : nat) : Forall tangent_zero (one_hot (A:=dual) x k).
Proof.
  unfold one_hot. apply Forall_forall. intros y Hy.
  apply list_elem_of_fmap in Hy as (j & -> & _). by case_decide.
Qed.

Lemma tf_stretch {X : Type} (P : X -> Prop) (l : list X) (k : nat) :
  Forall P l -> Forall P (stretch l k).
Proof.
  intros Hl. unfold stretch. case_decide; [done|].
  destruct l as [|x [|y l]]; try done.
  apply Forall_cons in Hl as [Hx _]. apply Forall_forall. intros y Hy.
  by apply elem_of_replicate in Hy as [-> _].
Qed.

Lemma tf_stretch2 (a : Array2 dual) (k m : nat) :
  tangent_free a -> tangent_free (stretch2 a k m).
Proof.
  unfold tangent_free, stretch2. simpl. intros Ha. apply tf_stretch.
  case_decide; [done|]. apply Forall_fmap. eapply Forall_impl; [exact Ha|].
  intros r Hr. simpl. by apply tf_stretch.
Qed.

Lemma tf_zip_rows (L : list (list dual)) :
  forall P,
    Forall (Forall tangent_zero) L -> Forall (Forall tangent_zero) P ->
    Forall (Forall tangent_zero) (zip_with (zip_with s_mul) L P).
Proof.
  induction L as [|u L IH]; intros P HL HP; [constructor|].
  destruct P as [|v P]; [constructor|].
  apply Forall_cons in HL as [Hu HL]. apply Forall_cons in HP as [Hv HP].
  simpl. constructor; [by apply tf_zip_with_mul|by apply IH].
Qed.

Lemma tf_elementwise2_mul (op : string) (a b p : Array2 dual) :
  tangent_free a -> tangent_free b ->
  elementwise2 op s_mul a b = inr p -> tangent_free p.
Proof.
  intros Ha Hb. unfold elementwise2.
  destruct (broadcast_dim (nrows a) (nrows b)) as [k|]; [|discriminate].
  destruct (broadcast_dim (ncols a) (ncols b)) as [m|]; [|discriminate].
  intros [= <-]. unfold tangent_free. cbn [rows].
  apply tf_zip_rows; by apply tf_stretch2.
Qed.

Lemma tf_matmul (a b p : Array2 dual) :
  tangent_free a -> tangent_free b -> matmul a b = inr p -> tangent_free p.
Proof.
  intros Ha Hb. unfold matmul. case_decide; [|discriminate].
  intros [= <-]. unfold tangent_free. simpl rows.
  apply Forall_fmap. eapply Forall_impl; [exact Ha|]. intros r Hr. simpl.
  apply Forall_fmap. apply Forall_forall. intros j _. simpl.
  unfold dot. apply tf_s_sum. apply tf_zip_with_mul; [done|].
  unfold column. apply Forall_fmap. eapply Forall_impl; [exact Hb|].
  intros r' Hr'. simpl. rewrite nth_lookup.
  destruct (r' !! j) as [x|] eqn:Hx; simpl; [|reflexivity].
  rewrite Forall_forall in Hr'. apply Hr'. by eapply list_elem_of_lookup_2.
Qed.

Lemma tf_boltz_to_esm_matrix (TOKENS : list string) (ESM_TOKENS : gmap string Z)
    (T : Array2 dual) :
  boltz_to_esm_matrix TOKENS ESM_TOKENS = inr T -> tangent_free T.
Proof.
  intros HT. apply boltz_to_esm_matrix_inr in HT as (_ & Hn & Hrows).
  unfold tangent_free. apply Forall_forall. intros r Hr.
  apply list_elem_of_lookup in Hr as [i Hi].
  assert (i < length TOKENS) as Hlt.
  { rewrite <- Hn. unfold nrows. by eapply lookup_lt_Some. }
  destruct (lookup_lt_is_Some_2 TOKENS i Hlt) as [tok Htok].
  destruct (Hrows i tok Htok) as (col & _ & Hrow).
  rewrite Hrow in Hi. inversion Hi. apply tf_one_hot.
Qed.

Lemma tf_stop_gradient (lls : list (list dual)) :
  Forall (Forall tangent_zero) (map (map stop_gradient) lls).
Proof.
  apply Forall_fmap. apply Forall_forall. intros r _. simpl.
  apply Forall_fmap. apply Forall_forall. intros x _. reflexivity.
Qed.

End Tangents.

(** What a call that returns has computed. *)
Lemma ESM2PseudoLikelihood_call_inr
    {A : Type} `{SA : Scalar A}
    (TOKENS : list string) (ESM_TOKENS : gmap string Z) (Key : Type)
    (self : ESM2PseudoLikelihood A) (seq_standard_tokens : Array2 A) (key : Key)
    (loss : A) (metrics : gmap string A) :
  ESM2PseudoLikelihood_call TOKENS ESM_TOKENS Key self seq_standard_tokens key
  = inr (loss, metrics) ->
  exists T proj esm_toks lls prod,
    boltz_to_esm_matrix TOKENS ESM_TOKENS = inr T /\
    matmul seq_standard_tokens T = inr proj /\
    bracket proj = inr esm_toks /\
    vmap (single_ll ESM_TOKENS self (nrows seq_standard_tokens) esm_toks)
         (arange 1 (nrows seq_standard_tokens + 1)) = inr lls /\
    elementwise2 "mul" s_mul
      (mkArray2 (logit_dim (esm self))
         (if stop_grad self then map (map stop_gradient) lls else lls)) proj
    = inr prod /\
    loss = s_neg (mean (sum_last prod)) /\
    metrics = {[ "esm_pll" := mean (sum_last prod) ]}.
Proof.
  unfold ESM2PseudoLikelihood_call. intros H.
  apply bind_inr in H as (T & HT & H).
  apply bind_inr in H as (proj & Hproj & H).
  apply bind_inr in H as (esm_toks & Hbr & H).
  apply bind_inr in H as (mll & Hmll & H).
  apply bind_inr in H as (prod & Hprod & H).
  unfold masked_log_likelihoods in Hmll.
  apply bind_inr in Hmll as (lls & Hlls & Hmll).
  exists T, proj, esm_toks, lls, prod.
  split; [done|]. split; [done|]. split; [done|]. split; [done|].
  split.
  { rewrite <- Hprod. f_equal. inversion Hmll. by destruct (stop_grad self). }
  by inversion H.
Qed.

(** The scorer returns under the configuration of
    [ESM2PseudoLikelihood_call_steps] when the logit head returns
    model-vocabulary logits. *)
Lemma ESM2PseudoLikelihood_call_total
    {A : Type} `{SA : Scalar A}
    (TOKENS : list string) (ESM_TOKENS : gmap string Z) (Key : Type)
    (self : ESM2PseudoLikelihood A) (seq_standard_tokens : Array2 A) (key : Key) :
  vocab_ok TOKENS ESM_TOKENS = true ->
  size ESM_TOKENS = 33 ->
  is_Some (ESM_TOKENS !! "m") ->
  nrows (embedding_weight (esm self)) = 33 ->
  logit_dim (esm self) = 33 ->
  ncols seq_standard_tokens = length TOKENS ->
  exists loss metrics,
    ESM2PseudoLikelihood_call TOKENS ESM_TOKENS Key self seq_standard_tokens key
    = inr (loss, metrics).
Proof.
  intros Hvocab Hsize Hmask Hweight Hlogit Hshape.
  destruct (ESM2PseudoLikelihood_call_steps TOKENS ESM_TOKENS Key self
              seq_standard_tokens Hvocab Hsize Hmask Hweight Hshape key)
    as (T & proj & lls & _ & _ & Hcp & Hnp & _ & _ & _ & Hlen & Hcall).
  eexists. eexists. apply Hcall. apply elementwise2_same.
  - unfold nrows at 1. simpl. destruct (stop_grad self); simpl;
      rewrite ?length_map; congruence.
  - simpl. congruence.
Qed.

(** The derivative of the loss along a parameter of the model, with the flag
    off, over any exponential with value 1 at 0: a bias of the logit head, a
    bias in a layer, a bias in the final normalisation, an entry of the
    embedding matrix. *)
Lemma bias_tangent_nonzero (e l : R -> R) :
  e 0%R = 1%R ->
  exists loss metrics,
    ESM2PseudoLikelihood_call (SA:=dual_scalar_with e l) TOKENS20 ESM_TOKENS33 unit
      (mkESM2PseudoLikelihood (toy_esm (SA:=dual_scalar_with e l) (bias_logits 5)) false)
      (one_residue (SA:=dual_scalar_with e l)) tt
    = inr (loss, metrics) /\
    tangent loss <> 0%R.
Proof.
  intros He. eexists. eexists. split.
  - vm_compute. reflexivity.
  - cbn [tangent]. change (e R0 = R1) in He. rewrite !He. intros H. lra.
Qed.

Lemma layer_tangent_nonzero (e l : R -> R) :
  e 0%R = 1%R ->
  exists loss metrics,
    ESM2PseudoLikelihood_call (SA:=dual_scalar_with e l) TOKENS20 ESM_TOKENS33 unit
      (mkESM2PseudoLikelihood (layer_param_esm (SA:=dual_scalar_with e l)) false)
      (one_residue (SA:=dual_scalar_with e l)) tt
    = inr (loss, metrics) /\
    tangent loss <> 0%R.
Proof.
  intros He. eexists. eexists. split.
  - vm_compute. reflexivity.
  - cbn [tangent]. change (e R0 = R1) in He. at_zero e He. intros H. lra.
Qed.

Lemma norm_tangent_nonzero (e l : R -> R) :
  e 0%R = 1%R ->
  exists loss metrics,
    ESM2PseudoLikelihood_call (SA:=dual_scalar_with e l) TOKENS20 ESM_TOKENS33 unit
      (mkESM2PseudoLikelihood (norm_param_esm (SA:=dual_scalar_with e l)) false)
      (one_residue (SA:=dual_scalar_with e l)) tt
    = inr (loss, metrics) /\
    tangent loss <> 0%R.
Proof.
  intros He. eexists. eexists. split.
  - vm_compute. reflexivity.
  - cbn [tangent]. change (e R0 = R1) in He. at_zero e He. intros H. lra.
Qed.

Lemma embedding_tangent_nonzero (e l : R -> R) :
  e 0%R = 1%R ->
  exists loss metrics,
    ESM2PseudoLikelihood_call (SA:=dual_scalar_with e l) TOKENS20 ESM_TOKENS33 unit
      (mkESM2PseudoLikelihood (embedding_param_esm (SA:=dual_scalar_with e l)) false)
      (one_residue (SA:=dual_scalar_with e l)) tt
    = inr (loss, metrics) /\
    tangent loss <> 0%R.
Proof.
  intros He. eexists. eexists. split.
  - vm_compute. reflexivity.
  - cbn [tangent]. change (e R0 = R1) in He.
    match goal with
    | |- context [Rmult ?n (Rinv (Rplus R1 (Ropp (Rmult R1 (Rinv ?d)))))] =>
        let c := constr:(Rmult n (Rinv (Rplus R1 (Ropp (Rmult R1 (Rinv d)))))) in
        assert (Hc : c = (33 / 25)%R) by (field; lra);
        rewrite !Hc
    end.
    at_zero e He. intros H. lra.
Qed.

(** The derivative of the loss along an entry of the soft sequence, with the
    flag on and uniform logits. *)
Lemma sequence_tangent_with (e l : R -> R) :
  e 0%R = 1%R ->
  exists loss metrics,
    ESM2PseudoLikelihood_call (SA:=dual_scalar_with e l) TOKENS20 ESM_TOKENS33 unit
      (mkESM2PseudoLikelihood
         (toy_esm (SA:=dual_scalar_with e l) (replicate 33 (mkDual 0 0))) true)
      one_residue_direction tt
    = inr (loss, metrics) /\
    tangent loss = l 33%R.
Proof.
  intros He. eexists. eexists. split.
  - vm_compute. reflexivity.
  - cbn [tangent]. change (e R0 = R1) in He. rewrite !He.
    repeat match goal with
           | |- context [l ?x] =>
               lazymatch x with
               | 33%R => fail
               | _ => replace x with 33%R by lra
               end
           end.
    lra.
Qed.

Lemma tangent_free_one_residue : tangent_free one_residue.
Proof. unfold tangent_free. simpl. constructor; [apply tf_one_hot|constructor]. Qed.

(** C7.  The scorer run on dual numbers: the model carries the derivative of
    each of its parameters along an arbitrary direction.  With [stop_grad]
    set and a soft sequence that carries no tangent, the tangent of the
    returned loss is exactly zero, whatever the model and the direction: the
    gradient with respect to every parameter of the trunk is zero.  With
    [stop_grad] not set the gradient reaches the trunk: for a parameter in a
    layer, in the final normalisation, in the embedding matrix and in the
    logit head there is a model for which the derivative of the loss along
    that parameter is not zero.  And with [stop_grad] set the projection
    upstream stays differentiable: the derivative of the loss along an entry
    of the soft sequence is not zero. *)
Theorem stop_grad_blocks_trunk_gradient
    (TOKENS : list string) (ESM_TOKENS : gmap string Z) (Key : Type) :
  (forall (m : ESM2 dual) (seq_standard_tokens : Array2 dual) (key : Key)
          (loss : dual) (metrics : gmap string dual),
     tangent_free seq_standard_tokens ->
     ESM2PseudoLikelihood_call TOKENS ESM_TOKENS Key
       (mkESM2PseudoLikelihood m true) seq_standard_tokens key = inr (loss, metrics) ->
     tangent loss = 0%R) /\
  (tangent_free one_residue /\
   forall m : ESM2 dual,
     m ∈ [layer_param_esm; norm_param_esm; embedding_param_esm; toy_esm (bias_logits 5)] ->
     exists (loss : dual) (metrics : gmap string dual),
       ESM2PseudoLikelihood_call TOKENS20 ESM_TOKENS33 unit
         (mkESM2PseudoLikelihood m false) one_residue tt = inr (loss, metrics) /\
       tangent loss <> 0%R) /\
  (exists (loss : dual) (metrics : gmap string dual),
     ESM2PseudoLikelihood_call TOKENS20 ESM_TOKENS33 unit
       (mkESM2PseudoLikelihood (toy_esm (replicate 33 (mkDual 0 0))) true)
       one_residue_direction tt = inr (loss, metrics) /\
     tangent loss <> 0%R).
Proof.
  split; [|split].
  - intros m seq_standard_tokens key loss metrics Hseq Hcall.
    apply ESM2PseudoLikelihood_call_inr in Hcall
      as (T & proj & esm_toks & lls & prod & HT & Hproj & _ & _ & Hprod & -> & _).
    apply tf_neg. unfold mean. apply tf_div_const. apply tf_s_sum.
    unfold sum_last. apply Forall_fmap.
    assert (tangent_free prod) as Hp.
    { eapply tf_elementwise2_mul; [| |exact Hprod].
      - unfold tangent_free. simpl. apply tf_stop_gradient.
      - eapply tf_matmul; [exact Hseq| |exact Hproj].
        by eapply tf_boltz_to_esm_matrix. }
    eapply Forall_impl; [exact Hp|]. intros r Hr. simpl. by apply tf_s_sum.
  - split; [apply tangent_free_one_residue|]. intros m Hin.
    repeat (apply elem_of_cons in Hin as [-> | Hin]).
    + exact (layer_tangent_nonzero exp ln exp_0).
    + exact (norm_tangent_nonzero exp ln exp_0).
    + exact (embedding_tangent_nonzero exp ln exp_0).
    + exact (bias_tangent_nonzero exp ln exp_0).
    + by apply elem_of_nil in Hin.
  - destruct (sequence_tangent_with exp ln exp_0) as (loss & metrics & Hcall & Ht).
    exists loss, metrics. split; [exact Hcall|]. rewrite Ht.
    assert (0 < ln 33)%R; [|lra].
    rewrite <- ln_1. apply ln_increasing; lra.
Qed.

Lemma stop_grad_blocks_trunk_gradient_witness :
  exists (loss : dual) (metrics : gmap string dual),
    ESM2PseudoLikelihood_call TOKENS20 ESM_TOKENS33 unit
      (mkESM2PseudoLikelihood layer_param_esm true) one_residue tt
    = inr (loss, metrics) /\
    tangent loss = 0%R.
Proof.
  destruct (ESM2PseudoLikelihood_call_total TOKENS20 ESM_TOKENS33 unit
              (mkESM2PseudoLikelihood layer_param_esm true) one_residue tt)
    as (loss & metrics & Hcall).
  - vm_compute. reflexivity.
  - vm_compute. reflexivity.
  - eexists. vm_compute. reflexivity.
  - vm_compute. reflexivity.
  - vm_compute. reflexivity.
  - vm_compute. reflexivity.
  - exists loss, metrics. split; [exact Hcall|].
    apply (proj1 (stop_grad_blocks_trunk_gradient TOKENS20 ESM_TOKENS33 unit)
             layer_param_esm one_residue tt loss metrics).
    + apply tangent_free_one_residue.
    + exact Hcall.
Defined.

(** * Further properties of the code *)

(** ** [boltz_to_esm_matrix]: when it returns and what it raises *)

Section MapperOutcome.

Context {A : Type} `{SA : Scalar A}.
Variable TOKENS : list string.
Variable ESM_TOKENS : gmap string Z.

Lemma norm_index_is_Some (i : Z) (n : nat) :
  is_Some (norm_index i n) <-> (- Z.of_nat n <= i < Z.of_nat n)%Z.
Proof.
  unfold norm_index. repeat case_decide; split; intros Hs; try lia; try (by eexists);
    destruct Hs as [? Hs]; discriminate.
Qed.

(** The loop over a prefix of symbols that all have a column runs into the
    loop over the rest, on a matrix of the same shape. *)
Lemma boltz_to_esm_loop_prefix (pre rest : list string) :
  forall (k : nat) (T : Array2 A),
    k + length pre <= length (rows T) ->
    Forall (fun tok => is_Some (esm_column ESM_TOKENS tok)) pre ->
    ncols T = size ESM_TOKENS ->
    exists T',
      ncols T' = ncols T /\ length (rows T') = length (rows T) /\
      boltz_to_esm_loop ESM_TOKENS (imap (fun i y => (k + i, y)) (pre ++ rest)) T
      = boltz_to_esm_loop ESM_TOKENS
          (imap (fun i y => (k + length pre + i, y)) rest) T'.
Proof.
  induction pre as [|tok pre IH]; intros k T Hk Hpre Hc.
  - exists T. split; [done|]. split; [done|]. simpl. by rewrite Nat.add_0_r.
  - apply Forall_cons in Hpre as [[col Hcol] Hpre].
    unfold esm_column in Hcol. destruct (ESM_TOKENS !! tok) as [idx|] eqn:Hidx; [|done].
    simpl app. rewrite enumerate_from_cons. simpl boltz_to_esm_loop.
    unfold dict_get. rewrite Hidx. simpl bind.
    unfold setitem2. simpl in Hk.
    destruct (lookup_lt_is_Some_2 (rows T) k) as [r Hr]; [lia|]. rewrite Hr.
    rewrite Hc, Hcol. simpl bind.
    destruct (IH (S k) (mkArray2 (size ESM_TOKENS) (<[k := <[col := s_one]> r]> (rows T))))
      as (T' & Hc' & Hl' & Heq).
    + simpl. rewrite length_insert. lia.
    + done.
    + done.
    + exists T'. simpl in Hc', Hl'. rewrite length_insert in Hl'.
      split; [congruence|]. split; [done|].
      etransitivity; [exact Heq|].
      f_equal. apply imap_ext. intros i y _. simpl. f_equal. lia.
Qed.

End MapperOutcome.

(** X1.  [boltz_to_esm_matrix] returns a matrix exactly when every design
    symbol is a key of the model vocabulary whose index is a column of the
    matrix, counted from the front or from the end. *)
Theorem boltz_to_esm_matrix_returns_iff
    {A : Type} `{SA : Scalar A} (TOKENS : list string) (ESM_TOKENS : gmap string Z) :
  (exists T : Array2 A, boltz_to_esm_matrix TOKENS ESM_TOKENS = inr T) <->
  (forall tok, tok ∈ TOKENS ->
     exists idx, ESM_TOKENS !! tok = Some idx /\
       (- Z.of_nat (size ESM_TOKENS) <= idx < Z.of_nat (size ESM_TOKENS))%Z).
Proof.
  assert (vocab_ok TOKENS ESM_TOKENS = true <->
          (forall tok, tok ∈ TOKENS ->
             exists idx, ESM_TOKENS !! tok = Some idx /\
               (- Z.of_nat (size ESM_TOKENS) <= idx < Z.of_nat (size ESM_TOKENS))%Z)) as Hok.
  { rewrite vocab_ok_spec, Forall_forall. split; intros H tok Hin.
    - specialize (H tok Hin). unfold esm_column in H.
      destruct (ESM_TOKENS !! tok) as [idx|]; [|by destruct H].
      exists idx. split; [done|]. by apply norm_index_is_Some.
    - destruct (H tok Hin) as (idx & Hidx & Hrange). unfold esm_column. rewrite Hidx.
      by apply norm_index_is_Some. }
  rewrite <- Hok. split.
  - intros [T HT]. by eapply boltz_to_esm_matrix_vocab_ok.
  - apply boltz_to_esm_matrix_total.
Qed.

(** X2.  The exception of [boltz_to_esm_matrix] is that of the first design
    symbol, in the order of [TOKENS], that has no column: the [KeyError] of
    the symbol when it is no key of the model vocabulary, an [IndexError]
    when its index is out of range. *)
Theorem boltz_to_esm_matrix_first_error
    {A : Type} `{SA : Scalar A} (ESM_TOKENS : gmap string Z)
    (pre post : list string) (tok : string) :
  Forall (fun t => is_Some (esm_column ESM_TOKENS t)) pre ->
  esm_column ESM_TOKENS tok = None ->
  boltz_to_esm_matrix (A:=A) (pre ++ tok :: post) ESM_TOKENS
  = match ESM_TOKENS !! tok with
    | None => inl (KeyError tok)
    | Some _ => inl IndexError
    end.
Proof.
  intros Hpre Htok. unfold boltz_to_esm_matrix. rewrite enumerate_from_0.
  destruct (boltz_to_esm_loop_prefix (A:=A) ESM_TOKENS pre (tok :: post) 0
              (np_zeros (length (pre ++ tok :: post)) (size ESM_TOKENS)))
    as (T' & Hc & Hl & ->).
  - simpl. rewrite length_replicate, length_app. lia.
  - done.
  - done.
  - rewrite enumerate_from_cons. simpl boltz_to_esm_loop. unfold dict_get.
    unfold esm_column in Htok.
    destruct (ESM_TOKENS !! tok) as [idx|]; [|done].
    simpl bind. unfold setitem2. simpl in Hc. rewrite Hc, Htok.
    by destruct (rows T' !! length pre).
Qed.

Lemma boltz_to_esm_matrix_first_error_witness :
  boltz_to_esm_matrix (A:=R) (["A"; "R"] ++ "?" :: ["N"]) ESM_TOKENS33
  = inl (KeyError "?") /\
  boltz_to_esm_matrix (A:=R) (["A"] ++ "R" :: ["?"]) (<["R" := 40%Z]> ESM_TOKENS33)
  = inl IndexError.
Proof.
  split.
  - rewrite (boltz_to_esm_matrix_first_error ESM_TOKENS33 ["A"; "R"] ["N"] "?").
    + vm_compute. reflexivity.
    + repeat constructor; vm_compute; by eexists.
    + vm_compute. reflexivity.
  - rewrite (boltz_to_esm_matrix_first_error (<["R" := 40%Z]> ESM_TOKENS33) ["A"] ["?"] "R").
    + vm_compute. reflexivity.
    + repeat constructor; vm_compute; by eexists.
    + vm_compute. reflexivity.
Defined.

(** ** The projection of a soft sequence *)

Lemma big_sum_plus (k : nat) :
  forall f g : nat -> R,
    big_sum k (fun j => (f j + g j)%R) = (big_sum k f + big_sum k g)%R.
Proof.
  induction k as [|k IH]; intros f g; simpl; [lra|]. rewrite IH. lra.
Qed.

Lemma big_sum_scale (k : nat) (c : R) :
  forall f : nat -> R, big_sum k (fun j => (c * f j)%R) = (c * big_sum k f)%R.
Proof.
  induction k as [|k IH]; intros f; simpl; [lra|]. rewrite IH. lra.
Qed.

Lemma big_sum_indicator (k : nat) :
  forall c : nat, c < k -> big_sum k (fun v => if decide (v = c) then 1%R else 0%R) = 1%R.
Proof.
  induction k as [|k IH]; intros c Hc; [lia|]. simpl.
  destruct c as [|c].
  - rewrite decide_True by done. rewrite big_sum_zero; [lra|].
    intros j _. by rewrite decide_False.
  - rewrite decide_False by done.
    rewrite (big_sum_ext k _ (fun v => if decide (v = c) then 1%R else 0%R)).
    + rewrite IH by lia. lra.
    + intros j _. destruct (decide (j = c)) as [->|Hne].
      * by rewrite decide_True.
      * rewrite decide_False by lia. done.
Qed.

Lemma dot_nil_r (p : list R) : dot p [] = 0%R.
Proof. by destruct p. Qed.

(** Summing a product with a matrix over the columns is the product with the
    row sums. *)
Lemma big_sum_dot_columns (k : nat) (Trows : list (list R)) :
  forall p : list R,
    big_sum k (fun v => dot p (map (fun r => nth v r 0%R) Trows))
    = dot p (map (fun r => big_sum k (fun v => nth v r 0%R)) Trows).
Proof.
  induction Trows as [|r Trows IH]; intros p.
  - simpl. rewrite dot_nil_r. apply big_sum_zero. done.
  - destruct p as [|x p].
    + simpl. apply big_sum_zero. done.
    + simpl map. rewrite dot_cons, <- IH, <- big_sum_scale, <- big_sum_plus.
      apply big_sum_ext. intros v _. apply dot_cons.
Qed.

Lemma dot_ones (p : list R) (ones : list R) :
  length ones = length p -> Forall (fun x => x = 1%R) ones -> dot p ones = s_sum p.
Proof.
  revert ones. induction p as [|x p IH]; intros [|y ones] Hlen Hones; try done.
  apply Forall_cons in Hones as [-> Hones]. rewrite dot_cons. simpl.
  rewrite IH; [lra| |done]. simpl in Hlen. lia.
Qed.

Lemma dot_zeros (p : list R) (zeros : list R) :
  Forall (fun x => x = 0%R) zeros -> dot p zeros = 0%R.
Proof.
  revert zeros. induction p as [|x p IH]; intros [|y zeros] Hz; try done.
  apply Forall_cons in Hz as [-> Hz]. rewrite dot_cons, IH by done. lra.
Qed.

Lemma dot_comm (u : list R) : forall v, dot u v = dot v u.
Proof.
  induction u as [|x u IH]; intros [|y v]; try done.
  rewrite !dot_cons, IH. lra.
Qed.

Lemma matmul_entry (a b p : Array2 R) (i j : nat) (row : list R) :
  matmul a b = inr p -> rows a !! i = Some row -> j < ncols b ->
  entry 0%R p i j = dot row (column b j).
Proof.
  unfold matmul. case_decide; [|discriminate]. intros [= <-] Hrow Hj.
  unfold entry. simpl rows. rewrite (nth_lookup (map _ _)), list_lookup_fmap, Hrow.
  simpl. rewrite nth_lookup, list_lookup_fmap, lookup_seq_lt by done. reflexivity.
Qed.

(** The rows of the mapping matrix, by design token index. *)
Lemma boltz_to_esm_matrix_row (TOKENS : list string) (ESM_TOKENS : gmap string Z)
    (T : Array2 R) (r : list R) (t : nat) :
  boltz_to_esm_matrix TOKENS ESM_TOKENS = inr T ->
  rows T !! t = Some r ->
  exists c, esm_index TOKENS ESM_TOKENS t = Some c /\ c < size ESM_TOKENS /\
            r = one_hot (Z.of_nat c) (size ESM_TOKENS).
Proof.
  intros HT Hr. apply boltz_to_esm_matrix_inr in HT as (_ & Hn & Hrows).
  assert (t < length TOKENS) as Hlt.
  { rewrite <- Hn. unfold nrows. by eapply lookup_lt_Some. }
  destruct (lookup_lt_is_Some_2 TOKENS t Hlt) as [tok Htok].
  destruct (Hrows t tok Htok) as (c & Hcol & Hrow).
  exists c. unfold esm_index. rewrite Htok. split; [done|].
  split; [|congruence].
  unfold esm_column in Hcol. destruct (ESM_TOKENS !! tok); [|done].
  by eapply norm_index_lt.
Qed.

(** X3.  The projection preserves the mass of every row: the entries of a
    projected row add up to what the entries of the design row add up to, so
    a row that is a probability distribution over the design vocabulary is
    projected to one over the model vocabulary. *)
Theorem projection_preserves_row_sum
    (TOKENS : list string) (ESM_TOKENS : gmap string Z)
    (T seq_standard_tokens proj : Array2 R) (i : nat) (row : list R) :
  boltz_to_esm_matrix TOKENS ESM_TOKENS = inr T ->
  matmul seq_standard_tokens T = inr proj ->
  rows seq_standard_tokens !! i = Some row ->
  length row = length TOKENS ->
  big_sum (size ESM_TOKENS) (fun v => entry 0%R proj i v) = s_sum row.
Proof.
  intros HT Hproj Hrow Hlen.
  pose proof (boltz_to_esm_matrix_inr _ _ _ HT) as (Hc & Hn & _).
  rewrite (big_sum_ext _ _ (fun v => dot row (map (fun r => nth v r 0%R) (rows T)))).
  2:{ intros v Hv. apply (matmul_entry seq_standard_tokens T); try done. by rewrite Hc. }
  rewrite big_sum_dot_columns. apply dot_ones.
  - rewrite length_map. unfold nrows in Hn. congruence.
  - apply Forall_fmap, Forall_forall. intros r Hr. simpl.
    apply list_elem_of_lookup in Hr as [t Ht].
    destruct (boltz_to_esm_matrix_row _ _ _ _ _ HT Ht) as (c & _ & Hlt & ->).
    rewrite (big_sum_ext _ _ (fun v => if decide (v = c) then 1%R else 0%R)).
    + by apply big_sum_indicator.
    + intros v Hv. rewrite one_hot_nth by done.
      destruct (decide (v = c)) as [->|Hne]; [by rewrite decide_True|].
      rewrite decide_False by lia. done.
Qed.

Lemma projection_preserves_row_sum_witness :
  exists T proj : Array2 R,
    boltz_to_esm_matrix TOKENS20 ESM_TOKENS33 = inr T /\
    matmul (one_hot_rows [3%Z] 20) T = inr proj /\
    big_sum 33 (fun v => entry 0%R proj 0 v) = s_sum (one_hot (A:=R) 3 20).
Proof.
  destruct (boltz_to_esm_matrix_total (A:=R) TOKENS20 ESM_TOKENS33) as [T HT];
    [vm_compute; reflexivity|].
  destruct (matmul_inr (one_hot_rows [3%Z] 20) T) as (proj & Hproj & _).
  { apply boltz_to_esm_matrix_inr in HT as (_ & -> & _). reflexivity. }
  exists T, proj. split; [exact HT|]. split; [exact Hproj|].
  apply (projection_preserves_row_sum TOKENS20 ESM_TOKENS33 T (one_hot_rows [3%Z] 20));
    [exact HT|exact Hproj|reflexivity|reflexivity].
Defined.

(** X4.  The projection puts nothing on a model symbol that is the image of
    no design symbol (the markers and the mask among them, in a vocabulary
    where no design symbol is sent there); and when the design symbols are
    sent to pairwise distinct columns, the entry of a projected row at the
    column of design token [t] is entry [t] of the design row. *)
Theorem projection_entries
    (TOKENS : list string) (ESM_TOKENS : gmap string Z)
    (T seq_standard_tokens proj : Array2 R) (i : nat) (row : list R) :
  boltz_to_esm_matrix TOKENS ESM_TOKENS = inr T ->
  matmul seq_standard_tokens T = inr proj ->
  rows seq_standard_tokens !! i = Some row ->
  length row = length TOKENS ->
  (forall v, v < size ESM_TOKENS ->
     (forall t, esm_index TOKENS ESM_TOKENS t <> Some v) ->
     entry 0%R proj i v = 0%R) /\
  (NoDup (esm_column ESM_TOKENS <$> TOKENS) ->
   forall t c, esm_index TOKENS ESM_TOKENS t = Some c ->
     entry 0%R proj i c = nth t row 0%R).
Proof.
  intros HT Hproj Hrow Hlen.
  pose proof (boltz_to_esm_matrix_inr _ _ _ HT) as (Hc & Hn & _).
  split.
  - intros v Hv Himg.
    rewrite (matmul_entry seq_standard_tokens T proj i v row) by (by rewrite ?Hc).
    apply dot_zeros. unfold column. apply Forall_fmap, Forall_forall. intros r Hr. simpl.
    apply list_elem_of_lookup in Hr as [t Ht].
    destruct (boltz_to_esm_matrix_row _ _ _ _ _ HT Ht) as (c & Hidx & Hlt & ->).
    rewrite one_hot_nth by done. rewrite decide_False; [done|].
    intros Heq. apply Nat2Z.inj in Heq. subst c. by apply (Himg t).
  - intros Hnd t c Hidx.
    assert (t < length TOKENS) as Ht.
    { unfold esm_index in Hidx. destruct (TOKENS !! t) eqn:E; [|done].
      by eapply lookup_lt_Some. }
    assert (c < size ESM_TOKENS) as Hlt.
    { destruct (lookup_lt_is_Some_2 (rows T) t) as [r Hr]; [unfold nrows in Hn; lia|].
      destruct (boltz_to_esm_matrix_row _ _ _ _ _ HT Hr) as (c' & Hidx' & Hlt & _).
      congruence. }
    rewrite (matmul_entry seq_standard_tokens T proj i c row) by (by rewrite ?Hc).
    assert (column T c = one_hot (Z.of_nat t) (length row)) as ->.
    { apply list_eq. intros t'. unfold column. rewrite list_lookup_fmap.
      destruct (decide (t' < length TOKENS)) as [Ht'|Ht'].
      - destruct (lookup_lt_is_Some_2 (rows T) t') as [r Hr]; [unfold nrows in Hn; lia|].
        rewrite Hr. simpl. rewrite one_hot_lookup by lia.
        destruct (boltz_to_esm_matrix_row _ _ _ _ _ HT Hr) as (c' & Hidx' & Hlt' & ->).
        rewrite one_hot_nth by done. f_equal.
        destruct (decide (t = t')) as [->|Hne].
        + assert (c' = c) as -> by congruence. by rewrite !decide_True.
        + rewrite (decide_False (P := Z.of_nat t = Z.of_nat t')) by lia.
          rewrite decide_False; [done|]. intros Heq. apply Nat2Z.inj in Heq. subst c'.
          apply Hne. by eapply esm_index_inj.
      - rewrite !lookup_ge_None_2; [done| |].
        + rewrite one_hot_length. lia.
        + unfold nrows in Hn. lia. }
    rewrite dot_comm. apply dot_one_hot. lia.
Qed.

Lemma projection_entries_witness :
  exists T proj : Array2 R,
    boltz_to_esm_matrix TOKENS20 ESM_TOKENS33 = inr T /\
    matmul (one_hot_rows [3%Z] 20) T = inr proj /\
    entry 0%R proj 0 32 = 0%R /\
    entry 0%R proj 0 13 = nth 3 (one_hot (A:=R) 3 20) 0%R.
Proof.
  destruct (boltz_to_esm_matrix_total (A:=R) TOKENS20 ESM_TOKENS33) as [T HT];
    [vm_compute; reflexivity|].
  destruct (matmul_inr (one_hot_rows [3%Z] 20) T) as (proj & Hproj & _).
  { apply boltz_to_esm_matrix_inr in HT as (_ & -> & _). reflexivity. }
  exists T, proj. split; [exact HT|]. split; [exact Hproj|].
  destruct (projection_entries TOKENS20 ESM_TOKENS33 T (one_hot_rows [3%Z] 20) proj 0
              (one_hot 3 20) HT Hproj eq_refl eq_refl) as [Hzero Hmove].
  split.
  - apply Hzero; [vm_compute; lia|]. intros t.
    destruct (decide (t < 20)) as [Ht|Ht].
    + do 20 (destruct t as [|t]; [vm_compute; discriminate|]). lia.
    + unfold esm_index. rewrite lookup_ge_None_2; [done|]. simpl. lia.
  - apply Hmove; [|vm_compute; reflexivity].
    apply (bool_decide_unpack _). vm_compute. exact I.
Defined.

(** ** [single_ll]: what a pass depends on *)

Lemma insert_fmap_insert_agree {X Y : Type} (f : X -> Y) (l l' : list X)
    (i : nat) (x x' : X) (z : Y) :
  length l = length l' ->
  (forall j, j <> i -> l !! j = l' !! j) ->
  <[i := z]> (f <$> <[i := x]> l) = <[i := z]> (f <$> <[i := x']> l').
Proof.
  intros Hlen Hoff. rewrite !list_fmap_insert, !list_insert_insert_eq.
  apply list_eq. intros j. destruct (decide (j = i)) as [->|Hne].
  - destruct (decide (i < length l)) as [Hi|Hi].
    + rewrite !list_lookup_insert_eq; [done| |]; rewrite length_fmap; lia.
    + rewrite !list_insert_ge by (rewrite length_fmap; lia).
      rewrite !list_lookup_fmap, !lookup_ge_None_2; [done| |]; lia.
  - rewrite !list_lookup_insert_ne by done. rewrite !list_lookup_fmap.
    by rewrite Hoff.
Qed.

(** X5.  The pass at [index] depends neither on row [index] of the bracketed
    sequence nor on the index of the mask symbol: the row is replaced by the
    mask and its embedding is overwritten with zeros, so two bracketed
    sequences that agree at every other row, under two model vocabularies
    that both have a mask symbol, give the same input to the trunk and the
    same scored row; and row [index] of that input is the zero row, scaled. *)
Theorem single_ll_ignores_masked_row
    {A : Type} `{SA : Scalar A}
    (ESM_TOKENS ESM_TOKENS' : gmap string Z)
    (self : ESM2PseudoLikelihood A) (n : nat) (esm_toks esm_toks' : Array2 A)
    (index : nat) :
  is_Some (ESM_TOKENS !! "m") ->
  is_Some (ESM_TOKENS' !! "m") ->
  nrows (embedding_weight (esm self)) = 33 ->
  ncols esm_toks = 33 ->
  ncols esm_toks' = 33 ->
  nrows esm_toks = nrows esm_toks' ->
  (forall j, j <> index -> rows esm_toks !! j = rows esm_toks' !! j) ->
  trunk_input ESM_TOKENS self n esm_toks index
  = trunk_input ESM_TOKENS' self n esm_toks' index /\
  single_ll ESM_TOKENS self n esm_toks index
  = single_ll ESM_TOKENS' self n esm_toks' index /\
  (index < nrows esm_toks ->
   exists embedding,
     trunk_input ESM_TOKENS self n esm_toks index = inr embedding /\
     rows embedding !! index
     = Some (replicate (ncols (embedding_weight (esm self)))
               (s_mul (s_const 0%R) (s_const (rescale n))))).
Proof.
  intros Hm Hm' Hw Hc Hc' Hn Hoff.
  destruct (trunk_input_inr ESM_TOKENS self esm_toks Hm Hw esm_toks index Hc)
    as (m & e & _ & He & _ & Hme & _).
  destruct (trunk_input_inr ESM_TOKENS' self esm_toks' Hm' Hw esm_toks' index Hc')
    as (m' & e' & _ & He' & _ & Hme' & _).
  unfold matmul in He, He'. simpl ncols in He, He'.
  rewrite decide_True in He, He' by (by rewrite Hw).
  inversion He as [He1]. inversion He' as [He1'].
  assert (trunk_input ESM_TOKENS self n esm_toks index
          = trunk_input ESM_TOKENS' self n esm_toks' index) as Heq.
  { unfold trunk_input. rewrite Hme, Hme'. simpl bind. do 2 f_equal.
    unfold at_set_scalar. rewrite <- He1, <- He1'. simpl ncols. simpl rows. f_equal.
    apply (insert_fmap_insert_agree _ (rows esm_toks) (rows esm_toks')); done. }
  split; [exact Heq|]. split; [unfold single_ll; by rewrite Heq|].
  intros Hi. eexists. split.
  - unfold trunk_input. rewrite Hme. reflexivity.
  - unfold scale, at_set_scalar. simpl rows. rewrite list_lookup_fmap.
    rewrite list_lookup_insert_eq.
    + simpl. rewrite <- He1. simpl ncols. apply (f_equal Some).
      apply (fmap_replicate (fun x => s_mul x (s_const (rescale n)))).
    + rewrite <- He1. simpl. rewrite length_fmap, length_insert. done.
Qed.

Lemma single_ll_ignores_masked_row_witness :
  single_ll ESM_TOKENS33 (mkESM2PseudoLikelihood (toy_esm (replicate 33 0%R)) true) 1
    (mkArray2 33 [one_hot 0 33; one_hot 5 33; one_hot 2 33]) 1
  = single_ll (<["m" := 7%Z]> ESM_TOKENS33)
      (mkESM2PseudoLikelihood (toy_esm (replicate 33 0%R)) true) 1
      (mkArray2 33 [one_hot 0 33; one_hot 9 33; one_hot 2 33]) 1.
Proof.
  apply (single_ll_ignores_masked_row ESM_TOKENS33 (<["m" := 7%Z]> ESM_TOKENS33)).
  - eexists. vm_compute. reflexivity.
  - eexists. vm_compute. reflexivity.
  - reflexivity.
  - reflexivity.
  - reflexivity.
  - reflexivity.
  - intros [|[|[|j]]] Hj; try done.
Defined.

(** ** [ESM2PseudoLikelihood.__call__]: what it raises *)

Section ScorerErrors.

Context {A : Type} `{SA : Scalar A}.
Variable TOKENS : list string.
Variable ESM_TOKENS : gmap string Z.
Variable Key : Type.

Lemma call_upto_bracket (self : ESM2PseudoLikelihood A) (seq_standard_tokens : Array2 A)
    (key : Key) :
  vocab_ok TOKENS ESM_TOKENS = true ->
  ncols seq_standard_tokens = length TOKENS ->
  exists T proj,
    boltz_to_esm_matrix TOKENS ESM_TOKENS = inr T /\
    matmul seq_standard_tokens T = inr proj /\
    ncols proj = size ESM_TOKENS /\
    nrows proj = nrows seq_standard_tokens /\
    ESM2PseudoLikelihood_call TOKENS ESM_TOKENS Key self seq_standard_tokens key
    = (esm_toks <- bracket proj ;;
       lls <- masked_log_likelihoods ESM_TOKENS self (nrows seq_standard_tokens) esm_toks ;;
       prod <- elementwise2 "mul" s_mul lls proj ;;
       ret (s_neg (mean (sum_last prod)), {[ "esm_pll" := mean (sum_last prod) ]})).
Proof.
  intros Hvocab Hshape.
  destruct (boltz_to_esm_matrix_total (A:=A) TOKENS ESM_TOKENS Hvocab) as [T HT].
  pose proof (boltz_to_esm_matrix_inr _ _ _ HT) as (HcT & HnT & _).
  destruct (matmul_inr seq_standard_tokens T) as (proj & Hproj & Hcp & Hnp & _).
  { by rewrite HnT. }
  exists T, proj. split; [done|]. split; [done|]. split; [congruence|]. split; [done|].
  unfold ESM2PseudoLikelihood_call. rewrite HT. simpl. rewrite Hproj. reflexivity.
Qed.

End ScorerErrors.

(** X6.  The scorer is written for a model vocabulary of exactly 33 symbols:
    with any other size the concatenation of the projected sequence with the
    two 33-wide markers raises its shape error, whatever the well-shaped
    input, the model and the key. *)
Theorem ESM2PseudoLikelihood_call_needs_33_symbols
    {A : Type} `{SA : Scalar A}
    (TOKENS : list string) (ESM_TOKENS : gmap string Z) (Key : Type)
    (self : ESM2PseudoLikelihood A) (seq_standard_tokens : Array2 A) (key : Key) :
  vocab_ok TOKENS ESM_TOKENS = true ->
  ncols seq_standard_tokens = length TOKENS ->
  size ESM_TOKENS <> 33 ->
  ESM2PseudoLikelihood_call TOKENS ESM_TOKENS Key self seq_standard_tokens key
  = inl (ShapeError "concatenate").
Proof.
  intros Hvocab Hshape Hsize.
  destruct (call_upto_bracket TOKENS ESM_TOKENS Key self seq_standard_tokens key
              Hvocab Hshape) as (T & proj & _ & _ & Hcp & _ & ->).
  unfold bracket, concatenate. simpl. rewrite Hcp.
  destruct (Nat.eqb_neq (size ESM_TOKENS) 33) as [_ Hne]. rewrite (Hne Hsize). reflexivity.
Qed.

Lemma ESM2PseudoLikelihood_call_needs_33_symbols_witness :
  ESM2PseudoLikelihood_call TOKENS20 (delete "n" ESM_TOKENS33) unit
    (mkESM2PseudoLikelihood (toy_esm (replicate 33 0%R)) true) one_residue tt
  = inl (ShapeError "concatenate").
Proof.
  apply ESM2PseudoLikelihood_call_needs_33_symbols.
  - vm_compute. reflexivity.
  - reflexivity.
  - vm_compute. lia.
Defined.

(** X7.  For a non-empty well-shaped input, a model vocabulary without the
    mask symbol ["m"] makes the scorer raise the [KeyError] of ["m"]; with
    the mask symbol, an embedding matrix that does not have 33 rows makes it
    raise the shape error of the product with the embedding matrix. *)
Theorem ESM2PseudoLikelihood_call_mask_and_embedding_errors
    {A : Type} `{SA : Scalar A}
    (TOKENS : list string) (ESM_TOKENS : gmap string Z) (Key : Type)
    (self : ESM2PseudoLikelihood A) (seq_standard_tokens : Array2 A) (key : Key) :
  vocab_ok TOKENS ESM_TOKENS = true ->
  ncols seq_standard_tokens = length TOKENS ->
  size ESM_TOKENS = 33 ->
  1 <= nrows seq_standard_tokens ->
  (ESM_TOKENS !! "m" = None ->
   ESM2PseudoLikelihood_call TOKENS ESM_TOKENS Key self seq_standard_tokens key
   = inl (KeyError "m")) /\
  (is_Some (ESM_TOKENS !! "m") ->
   nrows (embedding_weight (esm self)) <> 33 ->
   ESM2PseudoLikelihood_call TOKENS ESM_TOKENS Key self seq_standard_tokens key
   = inl (ShapeError "dot_general")).
Proof.
  intros Hvocab Hshape Hsize HN.
  destruct (call_upto_bracket TOKENS ESM_TOKENS Key self seq_standard_tokens key
              Hvocab Hshape) as (T & proj & _ & _ & Hcp & _ & ->).
  rewrite Hsize in Hcp. rewrite (bracket_inr proj Hcp). simpl bind.
  set (esm_toks := mkArray2 33 (one_hot (A:=A) 0 33 :: rows proj ++ [one_hot 2 33])).
  assert (forall e,
            single_ll ESM_TOKENS self (nrows seq_standard_tokens) esm_toks 1 = inl e ->
            masked_log_likelihoods ESM_TOKENS self (nrows seq_standard_tokens) esm_toks
            = inl e) as Hfirst.
  { intros e He. unfold masked_log_likelihoods, arange.
    replace (nrows seq_standard_tokens + 1 - 1) with (S (nrows seq_standard_tokens - 1))
      by lia.
    simpl. rewrite He. reflexivity. }
  split.
  - intros Hm. rewrite (Hfirst (KeyError "m")); [reflexivity|].
    unfold single_ll, trunk_input, masked_embedding, masked_tokens, dict_get.
    rewrite Hm. reflexivity.
  - intros [m Hm] Hw. rewrite (Hfirst (ShapeError "dot_general")); [reflexivity|].
    unfold single_ll, trunk_input, masked_embedding, masked_tokens, dict_get.
    rewrite Hm. cbn [bind ret]. unfold at_set. rewrite one_hot_length. cbn [ncols esm_toks].
    rewrite decide_True by (by left). cbn [bind ret].
    unfold matmul. cbn [ncols]. rewrite decide_False by congruence. reflexivity.
Qed.

Lemma ESM2PseudoLikelihood_call_mask_and_embedding_errors_witness :
  ESM2PseudoLikelihood_call TOKENS20 (<["M2" := 32%Z]> (delete "m" ESM_TOKENS33)) unit
    (mkESM2PseudoLikelihood (toy_esm (replicate 33 0%R)) true) one_residue tt
  = inl (KeyError "m").
Proof.
  apply (ESM2PseudoLikelihood_call_mask_and_embedding_errors TOKENS20
           (<["M2" := 32%Z]> (delete "m" ESM_TOKENS33)) unit).
  - vm_compute. reflexivity.
  - reflexivity.
  - vm_compute. reflexivity.
  - vm_compute. lia.
  - vm_compute. reflexivity.
Defined.

(** ** The scored rows are log-probabilities *)

Lemma s_sum_exp_nonneg (x : list R) : (0 <= s_sum (map exp x))%R.
Proof.
  induction x as [|y x IH]; simpl; [lra|]. pose proof (exp_pos y). lra.
Qed.

Lemma exp_le_s_sum_exp (x : list R) (y : R) :
  y ∈ x -> (exp y <= s_sum (map exp x))%R.
Proof.
  induction x as [|z x IH]; intros Hy; [by apply elem_of_nil in Hy|].
  simpl. apply elem_of_cons in Hy as [->|Hy].
  - pose proof (s_sum_exp_nonneg x). lra.
  - pose proof (exp_pos z). specialize (IH Hy). lra.
Qed.

Lemma ln_le_compat (x y : R) : (0 < x)%R -> (x <= y)%R -> (ln x <= ln y)%R.
Proof.
  intros Hx [Hlt | ->]; [|lra]. left. by apply ln_increasing.
Qed.

Lemma log_softmax_R (x : list R) :
  log_softmax x = map (fun y => (y - ln (s_sum (map exp x)))%R) x.
Proof. reflexivity. Qed.

Lemma log_softmax_nonpos (x : list R) : Forall (fun v => (v <= 0)%R) (log_softmax x).
Proof.
  rewrite log_softmax_R. apply Forall_fmap, Forall_forall. intros y Hy. simpl.
  pose proof (exp_le_s_sum_exp x y Hy) as Hle.
  pose proof (ln_le_compat _ _ (exp_pos y) Hle) as Hln. rewrite ln_exp in Hln. lra.
Qed.

Lemma s_sum_map_scale (f : R -> R) (c : R) (x : list R) :
  s_sum (map (fun y => (f y * c)%R) x) = (s_sum (map f x) * c)%R.
Proof. induction x as [|y x IH]; simpl; [lra|]. rewrite IH. lra. Qed.

Lemma log_softmax_normalised (x : list R) :
  x <> [] -> s_sum (map exp (log_softmax x)) = 1%R.
Proof.
  intros Hx. rewrite log_softmax_R.
  assert (0 < s_sum (map exp x))%R as Hpos.
  { destruct x as [|y x]; [done|]. simpl.
    pose proof (exp_pos y). pose proof (s_sum_exp_nonneg x). lra. }
  rewrite map_map.
  rewrite (map_ext _ (fun y => (exp y * / s_sum (map exp x))%R)).
  - rewrite s_sum_map_scale. by apply Rinv_r, Rgt_not_eq.
  - intros y. unfold Rminus. rewrite exp_plus, exp_Ropp, exp_ln by done. reflexivity.
Qed.

(** What a pass returns is the empty row or the log-softmax of some row of
    logits. *)
Lemma single_ll_is_log_softmax {A : Type} `{SA : Scalar A}
    (ESM_TOKENS : gmap string Z) (self : ESM2PseudoLikelihood A) (n : nat)
    (esm_toks : Array2 A) (index : nat) (ll : list A) :
  single_ll ESM_TOKENS self n esm_toks index = inr ll ->
  ll = [] \/ exists logits, ll = log_softmax logits.
Proof.
  unfold single_ll. intros H. apply bind_inr in H as (emb & _ & H).
  inversion H as [Hll]. unfold getitem_clamped.
  destruct (nth_in_or_default
              (Nat.min index
                 (length (map log_softmax
                            (map (logit_head (esm self))
                               (rows (_apply_trunk self emb (replicate (n + 2) s_zero))))) - 1))
              (map log_softmax
                 (map (logit_head (esm self))
                    (rows (_apply_trunk self emb (replicate (n + 2) s_zero))))) [])
    as [Hin|Hd].
  - right. apply in_map_iff in Hin as (logits & Heq & _). by exists logits.
  - by left.
Qed.

(** X8.  Every row that a pass returns is a distribution in log space: its
    entries are at most 0 and, unless the row is empty, their exponentials
    add up to 1. *)
Theorem single_ll_log_probabilities
    (ESM_TOKENS : gmap string Z) (self : ESM2PseudoLikelihood R) (n : nat)
    (esm_toks : Array2 R) (index : nat) (ll : list R) :
  single_ll ESM_TOKENS self n esm_toks index = inr ll ->
  Forall (fun v => (v <= 0)%R) ll /\
  (ll <> [] -> s_sum (map exp ll) = 1%R).
Proof.
  intros H. apply single_ll_is_log_softmax in H as [->|[logits ->]].
  - split; [constructor|done].
  - split; [apply log_softmax_nonpos|].
    intros Hne. apply log_softmax_normalised. intros ->. by apply Hne.
Qed.

Lemma single_ll_log_probabilities_witness :
  exists ll : list R,
    single_ll ESM_TOKENS33 (mkESM2PseudoLikelihood (toy_esm (replicate 33 0%R)) true) 1
      (mkArray2 33 [one_hot 0 33; one_hot 5 33; one_hot 2 33]) 1 = inr ll /\
    Forall (fun v => (v <= 0)%R) ll.
Proof.
  destruct (single_ll_inr ESM_TOKENS33
              (mkESM2PseudoLikelihood (toy_esm (replicate 33 0%R)) true) one_residue)
    with (esm_toks := mkArray2 (A:=R) 33 [one_hot 0 33; one_hot 5 33; one_hot 2 33])
         (index := 1) as (emb & _ & Hs).
  - eexists. vm_compute. reflexivity.
  - reflexivity.
  - reflexivity.
  - eexists. split; [exact Hs|].
    apply (single_ll_log_probabilities ESM_TOKENS33
             (mkESM2PseudoLikelihood (toy_esm (replicate 33 0%R)) true) 1
             (mkArray2 33 [one_hot 0 33; one_hot 5 33; one_hot 2 33]) 1).
    exact Hs.
Defined.

(** ** The loss is nonnegative on soft sequences *)

Lemma Forall_zip_with_2 {X Y W : Type} (P : X -> Prop) (Q : Y -> Prop) (S : W -> Prop)
    (f : X -> Y -> W) (u : list X) :
  (forall x y, P x -> Q y -> S (f x y)) ->
  forall v, Forall P u -> Forall Q v -> Forall S (zip_with f u v).
Proof.
  intros Hf. induction u as [|x u IH]; intros v Hu Hv; [constructor|].
  destruct v as [|y v]; [constructor|].
  apply Forall_cons in Hu as [Hx Hu]. apply Forall_cons in Hv as [Hy Hv].
  simpl. constructor; [by apply Hf|by apply IH].
Qed.

Lemma Forall_stretch2 {A : Type} (P : A -> Prop) (a : Array2 A) (k m : nat) :
  Forall (Forall P) (rows a) -> Forall (Forall P) (rows (stretch2 a k m)).
Proof.
  unfold stretch2. simpl. intros Ha. apply tf_stretch.
  case_decide; [done|]. apply Forall_fmap. eapply Forall_impl; [exact Ha|].
  intros r Hr. simpl. by apply tf_stretch.
Qed.

Lemma s_sum_nonneg (l : list R) : Forall (fun x => (0 <= x)%R) l -> (0 <= s_sum l)%R.
Proof. induction 1 as [|x l Hx _ IH]; simpl; lra. Qed.

Lemma s_sum_nonpos (l : list R) : Forall (fun x => (x <= 0)%R) l -> (s_sum l <= 0)%R.
Proof. induction 1 as [|x l Hx _ IH]; simpl; lra. Qed.

Lemma matmul_nonneg (a b p : Array2 R) :
  Forall (Forall (fun x => (0 <= x)%R)) (rows a) ->
  Forall (Forall (fun x => (0 <= x)%R)) (rows b) ->
  matmul a b = inr p ->
  Forall (Forall (fun x => (0 <= x)%R)) (rows p).
Proof.
  intros Ha Hb. unfold matmul. case_decide; [|discriminate].
  intros [= <-]. simpl rows.
  apply Forall_fmap. eapply Forall_impl; [exact Ha|]. intros r Hr. simpl.
  apply Forall_fmap. apply Forall_forall. intros j _. simpl.
  unfold dot. apply s_sum_nonneg.
  apply (Forall_zip_with_2 (fun x => (0 <= x)%R) (fun x => (0 <= x)%R)); [|done|].
  - intros x y Hx Hy. simpl. nra.
  - unfold column. apply Forall_fmap. eapply Forall_impl; [exact Hb|].
    intros r' Hr'. simpl. rewrite nth_lookup.
    destruct (r' !! j) as [x|] eqn:Hx; simpl; [|lra].
    rewrite Forall_forall in Hr'. apply Hr'. by eapply list_elem_of_lookup_2.
Qed.

Lemma one_hot_nonneg (x : Z) (k : nat) : Forall (fun v => (0 <= v)%R) (one_hot x k).
Proof.
  unfold one_hot. apply Forall_fmap, Forall_forall. intros j _. simpl. case_decide; lra.
Qed.

Lemma boltz_to_esm_matrix_nonneg (TOKENS : list string) (ESM_TOKENS : gmap string Z)
    (T : Array2 R) :
  boltz_to_esm_matrix TOKENS ESM_TOKENS = inr T ->
  Forall (Forall (fun x => (0 <= x)%R)) (rows T).
Proof.
  intros HT. apply Forall_forall. intros r Hr.
  apply list_elem_of_lookup in Hr as [t Ht].
  destruct (boltz_to_esm_matrix_row _ _ _ _ _ HT Ht) as (c & _ & _ & ->).
  unfold one_hot. apply Forall_fmap, Forall_forall. intros j _. simpl.
  case_decide; lra.
Qed.

(** X9.  Whenever the scorer returns on a non-empty sequence whose entries
    are nonnegative, as the rows of a soft sequence are, the loss is
    nonnegative and the pseudo-log-likelihood in the metrics is at most 0.
    (On the empty sequence the mean of the source is NaN.) *)
Theorem ESM2PseudoLikelihood_call_loss_nonneg
    (TOKENS : list string) (ESM_TOKENS : gmap string Z) (Key : Type)
    (self : ESM2PseudoLikelihood R) (seq_standard_tokens : Array2 R) (key : Key)
    (loss : R) (metrics : gmap string R) :
  1 <= nrows seq_standard_tokens ->
  Forall (Forall (fun x => (0 <= x)%R)) (rows seq_standard_tokens) ->
  ESM2PseudoLikelihood_call TOKENS ESM_TOKENS Key self seq_standard_tokens key
  = inr (loss, metrics) ->
  (0 <= loss)%R /\
  exists pll, metrics !! "esm_pll" = Some pll /\ (pll <= 0)%R /\ loss = (- pll)%R.
Proof.
  intros _ Hseq Hcall.
  apply ESM2PseudoLikelihood_call_inr in Hcall
    as (T & proj & esm_toks & lls & prod & HT & Hproj & _ & Hlls & Hprod & -> & ->).
  assert (mean (sum_last prod) <= 0)%R as Hmean.
  { assert (Forall (Forall (fun x => (x <= 0)%R)) (rows prod)) as Hp.
    { revert Hprod. unfold elementwise2.
      destruct (broadcast_dim _ _) as [k|]; [|discriminate].
      destruct (broadcast_dim _ _) as [m|]; [|discriminate].
      intros [= <-]. cbn [rows].
      apply (Forall_zip_with_2 (Forall (fun x => (x <= 0)%R))
               (Forall (fun x => (0 <= x)%R))).
      - intros u v Hu Hv.
        apply (Forall_zip_with_2 (fun x => (x <= 0)%R) (fun x => (0 <= x)%R)); [|done|done].
        intros x y Hx Hy. simpl. nra.
      - change (Forall (Forall (fun x => (x <= 0)%R))
                  (rows (stretch2
                           (mkArray2 (logit_dim (esm self))
                              (if stop_grad self then map (map stop_gradient) lls else lls))
                           k m))).
        apply Forall_stretch2. cbn [rows].
        assert (Forall (Forall (fun x => (x <= 0)%R)) lls) as Hl.
        { apply vmap_inr in Hlls. apply Forall_forall. intros ll Hin.
          apply list_elem_of_lookup in Hin as [i Hi].
          destruct (Forall2_lookup_r _ _ _ _ _ Hlls Hi) as (index & _ & Hs).
          apply single_ll_is_log_softmax in Hs as [->|[logits ->]];
            [constructor|apply log_softmax_nonpos]. }
        destruct (stop_grad self); [|done]. by rewrite map_map_id.
      - change (Forall (Forall (fun x => (0 <= x)%R)) (rows (stretch2 proj k m))).
        apply Forall_stretch2.
        eapply matmul_nonneg; [exact Hseq| |exact Hproj].
        by eapply boltz_to_esm_matrix_nonneg. }
    unfold mean, sum_last.
    assert (s_sum (map s_sum (rows prod)) <= 0)%R as Hs.
    { apply s_sum_nonpos, Forall_fmap. eapply Forall_impl; [exact Hp|].
      intros r Hr. simpl. by apply s_sum_nonpos. }
    change (s_sum (map s_sum (rows prod)) / INR (length (map s_sum (rows prod))) <= 0)%R.
    destruct (rows prod) as [|r rs].
    - simpl. unfold Rdiv. lra.
    - assert (0 < INR (length (map s_sum (r :: rs))))%R as Hpos.
      { apply lt_0_INR. simpl. lia. }
      apply Rinv_0_lt_compat in Hpos. unfold Rdiv. nra. }
  change (@s_neg R R_scalar) with Ropp.
  split; [lra|]. eexists. split; [apply lookup_singleton_eq|]. split; [exact Hmean|done].
Qed.

Lemma ESM2PseudoLikelihood_call_loss_nonneg_witness :
  exists loss metrics,
    ESM2PseudoLikelihood_call TOKENS20 ESM_TOKENS33 unit
      (mkESM2PseudoLikelihood (toy_esm (replicate 33 0%R)) true) one_residue tt
    = inr (loss, metrics) /\
    (0 <= loss)%R.
Proof.
  destruct (ESM2PseudoLikelihood_call_total TOKENS20 ESM_TOKENS33 unit
              (mkESM2PseudoLikelihood (toy_esm (replicate 33 0%R)) true) one_residue tt)
    as (loss & metrics & Hcall).
  - vm_compute. reflexivity.
  - vm_compute. reflexivity.
  - eexists. vm_compute. reflexivity.
  - vm_compute. reflexivity.
  - vm_compute. reflexivity.
  - vm_compute. reflexivity.
  - exists loss, metrics. split; [exact Hcall|].
    apply (ESM2PseudoLikelihood_call_loss_nonneg TOKENS20 ESM_TOKENS33 unit
             (mkESM2PseudoLikelihood (toy_esm (replicate 33 0%R)) true) one_residue tt
             loss metrics); [vm_compute; lia| |exact Hcall].
    constructor; [apply one_hot_nonneg|constructor].
Defined.

(** ** The range of the rescaling factor *)

(** X10.  The factor of line 61 is 2 * (1 - 0.15*0.8) for the empty sequence,
    it decreases strictly as the sequence grows, and it is always above
    1 - 0.15*0.8: every embedding is scaled by more than 0.88 and by at most
    1.76. *)
Theorem rescale_range (n : nat) :
  rescale 0 = (2 * (1 - 0.15 * 0.8))%R /\
  (rescale (S n) < rescale n)%R /\
  (1 - 0.15 * 0.8 < rescale n <= 2 * (1 - 0.15 * 0.8))%R.
Proof.
  rewrite !rescale_closed_form. rewrite S_INR. simpl INR.
  pose proof (pos_INR n) as Hn.
  assert (0 < / (INR n + 1) <= 1)%R as [Hlo Hhi].
  { split; [apply Rinv_0_lt_compat; lra|].
    rewrite <- Rinv_1 at 2. apply Rinv_le_contravar; lra. }
  assert (/ (INR n + 1 + 1) < / (INR n + 1))%R as Hdec.
  { apply Rinv_lt_contravar; [|lra]. apply Rmult_lt_0_compat; lra. }
  split; [|split].
  - replace (0 + 1)%R with 1%R by lra. rewrite Rinv_1. lra.
  - nra.
  - nra.
Qed.

(** ** The row that a pass scores *)

(** X11.  With layers that keep the number of rows, the pass at an index
    inside the bracketed sequence scores the position it masks: the row it
    returns is the log-softmax of the logit head at row [index] of the
    trunk's output, the layer norm of row [index] of the last layer's
    output; no other row is read in its place. *)
Theorem single_ll_scores_masked_row
    {A : Type} `{SA : Scalar A}
    (ESM_TOKENS : gmap string Z) (self : ESM2PseudoLikelihood A) (n : nat)
    (esm_toks : Array2 A) (index : nat) :
  is_Some (ESM_TOKENS !! "m") ->
  nrows (embedding_weight (esm self)) = 33 ->
  ncols esm_toks = 33 ->
  index < nrows esm_toks ->
  Forall (fun layer => forall x p, nrows (layer x p) = nrows x) (layers (esm self)) ->
  exists embedding hidden,
    trunk_input ESM_TOKENS self n esm_toks index = inr embedding /\
    rows (fold_left (fun x layer => layer x (replicate (n + 2) s_zero))
            (layers (esm self)) embedding) !! index = Some hidden /\
    rows (_apply_trunk self embedding (replicate (n + 2) s_zero)) !! index
    = Some (layer_norm (esm self) hidden) /\
    single_ll ESM_TOKENS self n esm_toks index
    = inr (log_softmax (logit_head (esm self) (layer_norm (esm self) hidden))).
Proof.
  intros Hm Hw Hc Hi Hlayers.
  destruct (trunk_input_inr ESM_TOKENS self esm_toks Hm Hw esm_toks index Hc)
    as (m & e & _ & _ & Hne & Hme & _).
  assert (trunk_input ESM_TOKENS self n esm_toks index
          = inr (scale (at_set_scalar e index (s_const 0%R)) (rescale n))) as Hti.
  { unfold trunk_input. by rewrite Hme. }
  set (embedding := scale (at_set_scalar e index (s_const 0%R)) (rescale n)) in *.
  assert (nrows embedding = nrows esm_toks) as Hrows.
  { unfold embedding, nrows, scale, at_set_scalar. simpl.
    rewrite length_map, length_insert. exact Hne. }
  pose proof (fold_layers_nrows (layers (esm self)) (replicate (n + 2) s_zero)
                Hlayers embedding) as Hfold.
  destruct (lookup_lt_is_Some_2
              (rows (fold_left (fun x layer => layer x (replicate (n + 2) s_zero))
                       (layers (esm self)) embedding)) index) as [hidden Hh].
  { unfold nrows in Hfold, Hrows, Hi. lia. }
  exists embedding, hidden. split; [done|]. split; [done|].
  assert (rows (_apply_trunk self embedding (replicate (n + 2) s_zero)) !! index
          = Some (layer_norm (esm self) hidden)) as Hrow.
  { unfold _apply_trunk. simpl rows. by rewrite list_lookup_fmap, Hh. }
  split; [done|].
  unfold single_ll. rewrite Hti. cbn [bind]. unfold ret. apply (f_equal inr).
  apply getitem_clamped_lookup.
  by rewrite !list_lookup_fmap, Hrow.
Qed.

Lemma single_ll_scores_masked_row_witness :
  single_ll ESM_TOKENS33 (mkESM2PseudoLikelihood (toy_esm (replicate 33 0%R)) true) 1
    (mkArray2 33 [one_hot 0 33; one_hot 5 33; one_hot 2 33]) 1
  = inr (log_softmax (replicate 33 0%R)).
Proof.
  destruct (single_ll_scores_masked_row ESM_TOKENS33
              (mkESM2PseudoLikelihood (toy_esm (replicate 33 0%R)) true) 1
              (mkArray2 33 [one_hot 0 33; one_hot 5 33; one_hot 2 33]) 1)
    as (embedding & hidden & _ & _ & _ & Hs).
  - eexists. vm_compute. reflexivity.
  - reflexivity.
  - reflexivity.
  - vm_compute. lia.
  - repeat constructor.
  - exact Hs.
Defined.

(** ** The flag [stop_grad] and the value of the loss *)

Lemma stretch_fmap {X Y : Type} (h : X -> Y) (l : list X) (k : nat) :
  stretch (map h l) k = map h (stretch l k).
Proof.
  unfold stretch. rewrite length_map. case_decide; [done|].
  destruct l as [|x [|y l]]; try done. simpl. symmetry. apply fmap_replicate.
Qed.

Lemma stretch2_fmap {A : Type} (g : A -> A) (d : nat) (L : list (list A)) (k m : nat) :
  rows (stretch2 (mkArray2 d (map (map g) L)) k m)
  = map (map g) (rows (stretch2 (mkArray2 d L) k m)).
Proof.
  unfold stretch2. simpl. rewrite <- stretch_fmap. f_equal.
  case_decide; [done|]. rewrite !map_map. apply map_ext. intros r.
  apply stretch_fmap.
Qed.

Lemma zip_with_rows_fmap_l {A : Type} (f : A -> A -> A) (g : A -> A)
    (L P : list (list A)) :
  zip_with (zip_with f) (map (map g) L) P
  = zip_with (zip_with (fun x y => f (g x) y)) L P.
Proof.
  revert P. induction L as [|u L IH]; intros [|v P]; try done.
  simpl. rewrite IH. f_equal. apply (zip_with_fmap_l f g).
Qed.

Lemma primal_s_sum (l : list dual) : primal (s_sum l) = s_sum (map primal l).
Proof. induction l as [|x l IH]; simpl; [done|]. by rewrite <- IH. Qed.

Lemma primal_mean_sum_last (a : Array2 dual) :
  primal (mean (sum_last a))
  = mean (sum_last (mkArray2 (ncols a) (map (map primal) (rows a)))).
Proof.
  unfold mean, sum_last. cbn [rows]. rewrite !length_map.
  change (primal (s_sum (map s_sum (rows a))) / INR (length (rows a))
          = s_sum (map s_sum (map (map primal) (rows a))) / INR (length (rows a)))%R.
  f_equal. rewrite primal_s_sum, !map_map. f_equal. apply map_ext. intros r.
  apply primal_s_sum.
Qed.

Lemma primal_zip_rows (f1 f2 : dual -> dual -> dual) (L P : list (list dual)) :
  (forall x y, primal (f1 x y) = primal (f2 x y)) ->
  map (map primal) (zip_with (zip_with f1) L P)
  = map (map primal) (zip_with (zip_with f2) L P).
Proof.
  intros Hf. revert P. induction L as [|u L IH]; intros [|v P]; try done.
  simpl. rewrite IH. f_equal.
  revert v. induction u as [|x u IHu]; intros [|y v]; try done.
  simpl. by rewrite IHu, Hf.
Qed.

(** X12.  The flag [stop_grad] changes no value.  On numbers the scorer
    returns the same with the flag set and not set; on dual numbers the two
    runs raise the same exception or return losses and metrics with the same
    values, and differ in the tangents only. *)
Theorem stop_grad_keeps_value
    (TOKENS : list string) (ESM_TOKENS : gmap string Z) (Key : Type) (key : Key) :
  (forall (m : ESM2 R) (seq_standard_tokens : Array2 R),
     ESM2PseudoLikelihood_call TOKENS ESM_TOKENS Key
       (mkESM2PseudoLikelihood m true) seq_standard_tokens key
     = ESM2PseudoLikelihood_call TOKENS ESM_TOKENS Key
         (mkESM2PseudoLikelihood m false) seq_standard_tokens key) /\
  (forall (m : ESM2 dual) (seq_standard_tokens : Array2 dual),
     match ESM2PseudoLikelihood_call TOKENS ESM_TOKENS Key
             (mkESM2PseudoLikelihood m true) seq_standard_tokens key,
           ESM2PseudoLikelihood_call TOKENS ESM_TOKENS Key
             (mkESM2PseudoLikelihood m false) seq_standard_tokens key
     with
     | inr (loss1, metrics1), inr (loss2, metrics2) =>
         primal loss1 = primal loss2 /\ primal <$> metrics1 = primal <$> metrics2
     | inl e1, inl e2 => e1 = e2
     | _, _ => False
     end).
Proof.
  split.
  - intros m seq_standard_tokens. unfold ESM2PseudoLikelihood_call.
    destruct (boltz_to_esm_matrix TOKENS ESM_TOKENS) as [e|T]; [done|]. cbn [bind].
    destruct (matmul seq_standard_tokens T) as [e|proj]; [done|]. cbn [bind].
    destruct (bracket proj) as [e|esm_toks]; [done|]. cbn [bind].
    unfold masked_log_likelihoods. cbn [stop_grad].
    change (single_ll ESM_TOKENS (mkESM2PseudoLikelihood m true))
      with (single_ll ESM_TOKENS (mkESM2PseudoLikelihood m false)).
    destruct (vmap _ _) as [e|lls]; [done|]. cbn [bind ret ncols rows].
    change (map (map (@stop_gradient R R_scalar)) lls) with (map (map (fun x : R => x)) lls).
    by rewrite map_map_id.
  - intros m seq_standard_tokens. unfold ESM2PseudoLikelihood_call.
    destruct (boltz_to_esm_matrix TOKENS ESM_TOKENS) as [e|T]; [done|]. cbn [bind].
    destruct (matmul seq_standard_tokens T) as [e|proj]; [done|]. cbn [bind].
    destruct (bracket proj) as [e|esm_toks]; [done|]. cbn [bind].
    unfold masked_log_likelihoods. cbn [stop_grad].
    change (single_ll ESM_TOKENS (mkESM2PseudoLikelihood m true))
      with (single_ll ESM_TOKENS (mkESM2PseudoLikelihood m false)).
    destruct (vmap _ _) as [e|lls]; [done|]. cbn [bind ret ncols rows esm].
    unfold elementwise2. cbn [ncols].
    change (nrows (mkArray2 (logit_dim m) (map (map stop_gradient) lls)))
      with (length (map (map (@stop_gradient dual dual_scalar)) lls)).
    change (nrows (mkArray2 (logit_dim m) lls)) with (length lls).
    rewrite length_map.
    destruct (broadcast_dim (length lls) (nrows proj)) as [k|]; [|done].
    destruct (broadcast_dim (logit_dim m) (ncols proj)) as [c|]; [|done].
    cbn [bind ret]. rewrite stretch2_fmap, zip_with_rows_fmap_l.
    assert (primal (mean (sum_last
              (mkArray2 c (zip_with (zip_with (fun x y => s_mul (stop_gradient x) y))
                             (rows (stretch2 (mkArray2 (logit_dim m) lls) k c))
                             (rows (stretch2 proj k c))))))
            = primal (mean (sum_last
                (mkArray2 c (zip_with (zip_with s_mul)
                               (rows (stretch2 (mkArray2 (logit_dim m) lls) k c))
                               (rows (stretch2 proj k c))))))) as Hp.
    { rewrite !primal_mean_sum_last. cbn [rows ncols].
      by rewrite (primal_zip_rows (fun x y => s_mul (stop_gradient x) y) s_mul). }
    lazy beta iota delta [bind ret]. split.
    + cbn [s_neg dual_scalar dual_scalar_with primal]. by rewrite Hp.
    + rewrite !map_fmap_singleton. by rewrite Hp.
Qed.

(** ** [FixedPositionsPenalty.__call__]: more on the value *)

(** A sum of nonnegative terms that is zero has only zero terms. *)
Lemma big_sum_zero_inv (k : nat) :
  forall f : nat -> R,
    (forall j, j < k -> (0 <= f j)%R) -> big_sum k f = 0%R ->
    forall j, j < k -> f j = 0%R.
Proof.
  induction k as [|k IH]; intros f Hf Hsum j Hj; [lia|].
  simpl in Hsum.
  pose proof (Hf 0 ltac:(lia)) as H0.
  assert (0 <= big_sum k (fun j => f (S j)))%R as Hrest.
  { apply big_sum_nonneg. intros i Hi. apply Hf. lia. }
  destruct j as [|j]; [lra|].
  apply (IH (fun j => f (S j))); [|lra|lia]. intros i Hi. apply Hf. lia.
Qed.

(** The value of the call on a sequence of the shape of the target. *)
Lemma FixedPositionsPenalty_call_sum
    (Key : Type) (self : FixedPositionsPenalty R) (seq : Array2 R) (key : Key) :
  wf_array seq ->
  wf_array (target self) ->
  shape seq = shape (target self) ->
  length (position_mask self) = nrows seq ->
  exists r,
    FixedPositionsPenalty_call Key self seq key
    = inr (r, {[ "fixed_position_penalty" := r ]}) /\
    r = big_sum (nrows seq) (fun i =>
          if nth i (position_mask self) false
          then big_sum (ncols seq) (fun v =>
                 ((entry 0 seq i v - entry 0 (target self) i v) *
                  (entry 0 seq i v - entry 0 (target self) i v))%R)
          else 0%R).
Proof.
  intros Hwf Hwft Hshape Hmask. unfold shape in Hshape. inversion Hshape as [[Hn Hc]].
  unfold FixedPositionsPenalty_call.
  rewrite elementwise2_same by done. cbn [bind rows ncols].
  unfold sum_last. cbn [rows].
  rewrite elementwise1_same.
  2:{ rewrite !length_map, length_zip_with. unfold nrows in *. lia. }
  cbn [bind]. eexists. split; [reflexivity|].
  rewrite s_sum_zip_with_mul, length_map, Hmask.
  apply big_sum_ext. intros i Hi.
  change (0%R) with (of_bool (A:=R) false) at 2. rewrite map_nth.
  change (0%R) with (s_sum (A:=R) []) at 1. rewrite map_nth.
  change ([] : list R) with (map (fun x : R => s_mul x x) []) at 1. rewrite map_nth.
  rewrite (nth_zip_with _ _ _ [] [] []) by (unfold nrows in *; lia).
  assert (length (nth i (rows seq) []) = ncols seq) as Hli.
  { unfold wf_array in Hwf. rewrite Forall_forall in Hwf. apply Hwf.
    apply list_elem_of_In, nth_In. done. }
  assert (length (nth i (rows (target self)) []) = ncols seq) as Hlt.
  { unfold wf_array in Hwft. rewrite Forall_forall in Hwft. rewrite Hc. apply Hwft.
    apply list_elem_of_In, nth_In. unfold nrows in *. lia. }
  rewrite s_sum_squared_differences by congruence. rewrite Hlt.
  destruct (nth i (position_mask self) false); unfold of_bool, entry;
    [apply Rmult_1_r|apply Rmult_0_r].
Qed.

Lemma rows_eq_entries (u v : list R) (k : nat) :
  length u = k -> length v = k ->
  (forall j, j < k -> nth j u 0%R = nth j v 0%R) -> u = v.
Proof.
  intros Hu Hv Hnth. apply list_eq. intros j.
  destruct (decide (j < k)) as [Hj|Hj].
  - destruct (lookup_lt_is_Some_2 u j) as [x Hx]; [lia|].
    destruct (lookup_lt_is_Some_2 v j) as [y Hy]; [lia|].
    specialize (Hnth j Hj). rewrite !nth_lookup, Hx, Hy in Hnth. simpl in Hnth.
    congruence.
  - rewrite !lookup_ge_None_2; [done| |]; lia.
Qed.

(** X13.  The penalty vanishes only on the target: for a sequence of the
    shape of the target, the returned value is 0 exactly when the sequence
    row equals the target row at every position where [position_mask] is
    true. *)
Theorem FixedPositionsPenalty_call_zero_iff
    (Key : Type) (self : FixedPositionsPenalty R) (seq : Array2 R) (key : Key) :
  wf_array seq ->
  wf_array (target self) ->
  shape seq = shape (target self) ->
  length (position_mask self) = nrows seq ->
  exists r,
    FixedPositionsPenalty_call Key self seq key
    = inr (r, {[ "fixed_position_penalty" := r ]}) /\
    (r = 0%R <->
     forall i, i < nrows seq -> nth i (position_mask self) false = true ->
               nth i (rows seq) [] = nth i (rows (target self)) []).
Proof.
  intros Hwf Hwft Hshape Hmask.
  destruct (FixedPositionsPenalty_call_sum Key self seq key Hwf Hwft Hshape Hmask)
    as (r & Hcall & ->).
  unfold shape in Hshape. inversion Hshape as [[Hn Hc]].
  eexists. split; [exact Hcall|]. split.
  - intros Hzero i Hi Hm.
    apply big_sum_zero_inv with (j := i) in Hzero; [|clear Hzero|done].
    2:{ intros j Hj. cbv beta.
        destruct (nth j (position_mask self) false); [|lra].
        apply big_sum_nonneg. intros v _. cbv beta.
        apply (Rle_0_sqr (entry 0 seq j v - entry 0 (target self) j v)%R). }
    cbv beta in Hzero. rewrite Hm in Hzero.
    apply (rows_eq_entries _ _ (ncols seq)).
    + unfold wf_array in Hwf. rewrite Forall_forall in Hwf. apply Hwf.
      apply list_elem_of_In, nth_In. done.
    + unfold wf_array in Hwft. rewrite Forall_forall in Hwft. rewrite Hc. apply Hwft.
      apply list_elem_of_In, nth_In. unfold nrows in *. lia.
    + intros v Hv.
      apply big_sum_zero_inv with (j := v) in Hzero; [|clear Hzero|done].
      2:{ intros j Hj. cbv beta.
          apply (Rle_0_sqr (entry 0 seq i j - entry 0 (target self) i j)%R). }
      cbv beta in Hzero. unfold entry in Hzero. nra.
  - intros Heq. apply big_sum_zero. intros i Hi. cbv beta.
    destruct (nth i (position_mask self) false) eqn:Hm; [|done].
    apply big_sum_zero. intros v _. cbv beta. unfold entry. rewrite (Heq i Hi Hm). lra.
Qed.

Lemma FixedPositionsPenalty_call_zero_iff_witness :
  exists r : R,
    FixedPositionsPenalty_call unit
      (mkFixedPositionsPenalty [true; false] (one_hot_rows [4; 0]%Z 20))
      (one_hot_rows [4; 9]%Z 20) tt
    = inr (r, {[ "fixed_position_penalty" := r ]}) /\
    r = 0%R.
Proof.
  destruct (FixedPositionsPenalty_call_zero_iff unit
              (mkFixedPositionsPenalty [true; false] (one_hot_rows [4; 0]%Z 20))
              (one_hot_rows [4; 9]%Z 20) tt)
    as (r & Hcall & Hiff).
  - repeat constructor.
  - repeat constructor.
  - reflexivity.
  - reflexivity.
  - exists r. split; [exact Hcall|]. apply Hiff.
    intros [|[|i]] Hi Hm; simpl in Hm; try discriminate; [reflexivity|].
    vm_compute in Hi. lia.
Defined.

(** X14.  The penalty reads the masked rows only: two sequences of the shape
    of the target that agree at every position where [position_mask] is true
    get the same loss and the same metrics. *)
Theorem FixedPositionsPenalty_call_frame
    (Key : Type) (self : FixedPositionsPenalty R) (seq seq' : Array2 R) (key : Key) :
  wf_array seq -> wf_array seq' ->
  wf_array (target self) ->
  shape seq = shape (target self) ->
  shape seq' = shape (target self) ->
  length (position_mask self) = nrows seq ->
  (forall i, nth i (position_mask self) false = true ->
             nth i (rows seq) [] = nth i (rows seq') []) ->
  FixedPositionsPenalty_call Key self seq key
  = FixedPositionsPenalty_call Key self seq' key.
Proof.
  intros Hwf Hwf' Hwft Hshape Hshape' Hmask Hagree.
  assert (nrows seq' = nrows seq /\ ncols seq' = ncols seq) as [Hn Hc].
  { unfold shape in *. split; congruence. }
  destruct (FixedPositionsPenalty_call_sum Key self seq key Hwf Hwft Hshape Hmask)
    as (r & -> & ->).
  destruct (FixedPositionsPenalty_call_sum Key self seq' key Hwf' Hwft Hshape')
    as (r' & -> & ->); [congruence|].
  rewrite Hn, Hc.
  assert (forall i, i < nrows seq ->
            (if nth i (position_mask self) false
             then big_sum (ncols seq) (fun v =>
                    ((entry 0 seq i v - entry 0 (target self) i v) *
                     (entry 0 seq i v - entry 0 (target self) i v))%R)
             else 0%R)
            = (if nth i (position_mask self) false
               then big_sum (ncols seq) (fun v =>
                      ((entry 0 seq' i v - entry 0 (target self) i v) *
                       (entry 0 seq' i v - entry 0 (target self) i v))%R)
               else 0%R)) as Hterm.
  { intros i _. destruct (nth i (position_mask self) false) eqn:Hm; [|done].
    unfold entry. by rewrite (Hagree i Hm). }
  by rewrite (big_sum_ext _ _ _ Hterm).
Qed.

Lemma FixedPositionsPenalty_call_frame_witness :
  FixedPositionsPenalty_call unit
    (mkFixedPositionsPenalty [true; false] (one_hot_rows [4; 0]%Z 20))
    (one_hot_rows [7; 9]%Z 20) tt
  = FixedPositionsPenalty_call unit
      (mkFixedPositionsPenalty [true; false] (one_hot_rows [4; 0]%Z 20))
      (one_hot_rows (A:=R) [7; 11]%Z 20) tt.
Proof.
  apply FixedPositionsPenalty_call_frame.
  - repeat constructor.
  - repeat constructor.
  - repeat constructor.
  - reflexivity.
  - reflexivity.
  - reflexivity.
  - intros [|[|i]] Hm; simpl in Hm; try discriminate; [reflexivity|].
    by destruct i.
Defined.

Lemma broadcast_dim_1_l (d : nat) : broadcast_dim 1 d = Some d.
Proof.
  unfold broadcast_dim. destruct (decide (1 = d)) as [<-|Hne]; [done|].
  by rewrite decide_True.
Qed.

Lemma stretch_singleton {X : Type} (x : X) (k : nat) : stretch [x] k = replicate k x.
Proof. unfold stretch. simpl. by destruct (decide (1 = k)) as [<-|Hne]. Qed.

(** X15.  [FixedPositionsPenalty.__call__] checks no shape: a sequence of one
    row is broadcast against the target, and the value is the sum over the
    masked positions of the squared distance between that one row and each
    target row; a sequence whose row count is neither 1 nor that of the
    target, the target having more than one row or none, raises the shape
    error of the subtraction. *)
Theorem FixedPositionsPenalty_call_broadcasts
    (Key : Type) (self : FixedPositionsPenalty R) (key : Key) :
  wf_array (target self) ->
  length (position_mask self) = nrows (target self) ->
  (forall row : list R,
     length row = ncols (target self) ->
     exists r,
       FixedPositionsPenalty_call Key self (mkArray2 (ncols (target self)) [row]) key
       = inr (r, {[ "fixed_position_penalty" := r ]}) /\
       r = big_sum (nrows (target self)) (fun i =>
             if nth i (position_mask self) false
             then big_sum (ncols (target self)) (fun v =>
                    ((nth v row 0 - entry 0 (target self) i v) *
                     (nth v row 0 - entry 0 (target self) i v))%R)
             else 0%R)) /\
  (forall seq : Array2 R,
     nrows seq <> nrows (target self) -> nrows seq <> 1 -> nrows (target self) <> 1 ->
     FixedPositionsPenalty_call Key self seq key = inl (ShapeError "sub")).
Proof.
  intros Hwft Hmask. split.
  - intros row Hrow.
    set (V := ncols (target self)). set (N := nrows (target self)).
    assert (FixedPositionsPenalty_call Key self (mkArray2 V [row]) key
            = FixedPositionsPenalty_call Key self (mkArray2 V (replicate N row)) key) as ->.
    { unfold FixedPositionsPenalty_call, elementwise2. cbn [ncols].
      change (nrows (mkArray2 V [row])) with 1.
      change (nrows (mkArray2 V (replicate N row))) with (length (replicate N row)).
      rewrite length_replicate. fold N. rewrite broadcast_dim_1_l, !broadcast_dim_same.
      unfold stretch2 at 1 3. cbn [ncols rows]. rewrite !decide_True by done.
      rewrite stretch_singleton.
      assert (stretch (replicate N row) N = replicate N row) as ->; [|reflexivity].
      unfold stretch. by rewrite decide_True by apply length_replicate. }
    destruct (FixedPositionsPenalty_call_sum Key self (mkArray2 V (replicate N row)) key)
      as (r & Hcall & ->).
    + unfold wf_array. cbn [rows ncols]. apply Forall_forall. intros x Hx.
      by apply elem_of_replicate in Hx as [-> _].
    + done.
    + unfold shape, nrows. cbn [rows ncols]. by rewrite length_replicate.
    + unfold nrows. cbn [rows]. by rewrite length_replicate.
    + eexists. split; [exact Hcall|].
      unfold nrows at 1. cbn [rows ncols]. rewrite length_replicate.
      apply big_sum_ext. intros i Hi.
      destruct (nth i (position_mask self) false); [|done].
      apply big_sum_ext. intros v _. unfold entry at 1 3. cbn [rows].
      rewrite (nth_lookup (replicate N row)), lookup_replicate_2 by done. reflexivity.
  - intros seq Hne H1 HN. unfold FixedPositionsPenalty_call, elementwise2, broadcast_dim.
    by rewrite !decide_False.
Qed.

Lemma FixedPositionsPenalty_call_broadcasts_witness :
  exists r : R,
    FixedPositionsPenalty_call unit
      (mkFixedPositionsPenalty [true; true] (one_hot_rows [4; 0]%Z 20))
      (mkArray2 20 [one_hot 4 20]) tt
    = inr (r, {[ "fixed_position_penalty" := r ]}).
Proof.
  destruct (FixedPositionsPenalty_call_broadcasts unit
              (mkFixedPositionsPenalty [true; true] (one_hot_rows (A:=R) [4; 0]%Z 20)) tt)
    as [Hone _].
  - repeat constructor.
  - reflexivity.
  - destruct (Hone (one_hot 4 20)) as (r & Hcall & _); [reflexivity|].
    exists r. exact Hcall.
Defined.

(** ** [SetPositions.sequence]: what the rows of the result can be *)

Section SequenceRows.

Context {A : Type} `{SA : Scalar A}.

(** A row of the result of a scatter is the row that was there or the value
    of an update that denotes the row. *)
Lemma scatter_fold_provenance (n j : nat) (row : list A) (pvs : list (Z * list A)) :
  forall acc,
    fold_left (scatter_step n) pvs acc !! j = Some row ->
    acc !! j = Some row \/
    exists k p, pvs !! k = Some (p, row) /\ norm_index p n = Some j.
Proof.
  induction pvs as [|[p v] pvs IH]; intros acc Hrow; simpl in Hrow; [by left|].
  destruct (IH _ Hrow) as [Hacc | (k & p' & Hk & Hp')].
  - unfold scatter_step in Hacc. cbn [fst snd] in Hacc.
    destruct (norm_index p n) as [j'|] eqn:Hj'; [|by left].
    destruct (decide (j' = j)) as [->|Hne].
    + apply list_lookup_insert_Some in Hacc as [(_ & <- & _) | (Hne & _)]; [|done].
      right. exists 0, p. done.
    + left. by rewrite list_lookup_insert_ne in Hacc.
  - right. exists (S k), p'. done.
Qed.

(** A row that some update denotes holds the value of an update that
    denotes it. *)
Lemma scatter_fold_written_some (n j : nat) (pvs : list (Z * list A)) :
  forall acc k p v,
    length acc = n ->
    pvs !! k = Some (p, v) ->
    norm_index p n = Some j ->
    exists k' p' v',
      pvs !! k' = Some (p', v') /\ norm_index p' n = Some j /\
      fold_left (scatter_step n) pvs acc !! j = Some v'.
Proof.
  induction pvs as [|pv pvs IH]; intros acc k p v Hlen Hk Hj; [done|].
  assert (length (scatter_step n acc pv) = n) as Hlen'.
  { unfold scatter_step. destruct (norm_index (fst pv) n); [by rewrite length_insert|done]. }
  destruct k as [|k]; simpl in Hk.
  - inversion Hk; subst pv. cbn [fold_left].
    assert (j < n) as Hlt by (by eapply norm_index_lt).
    assert (is_Some (fold_left (scatter_step n) pvs (scatter_step n acc (p, v)) !! j))
      as [r Hr].
    { apply lookup_lt_is_Some_2. rewrite scatter_fold_length, Hlen'. exact Hlt. }
    destruct (scatter_fold_provenance _ _ _ _ _ Hr) as [Hacc | (k' & p' & Hk' & Hp')].
    + exists 0, p, v. split; [done|]. split; [done|]. rewrite Hr. f_equal.
      unfold scatter_step in Hacc. cbn [fst snd] in Hacc. rewrite Hj in Hacc.
      rewrite list_lookup_insert_eq in Hacc by lia. congruence.
    + exists (S k'), p', r. done.
  - destruct (IH (scatter_step n acc pv) k p v Hlen' Hk Hj) as (k' & p' & v' & Hk' & Hp' & Hv').
    exists (S k'), p', v'. done.
Qed.

Lemma scatter_fold_Forall (P : list A -> Prop) (n : nat) (pvs : list (Z * list A)) :
  forall acc,
    Forall P acc -> Forall (fun pv => P (snd pv)) pvs ->
    Forall P (fold_left (scatter_step n) pvs acc).
Proof.
  induction pvs as [|pv pvs IH]; intros acc Hacc Hpvs; simpl; [done|].
  apply Forall_cons in Hpvs as [Hpv Hpvs]. apply IH; [|done].
  unfold scatter_step. destruct (norm_index (fst pv) n); [|done].
  by apply Forall_insert.
Qed.

End SequenceRows.

(** X16.  Whatever the variable positions are (repeated, negative or out of
    range), [SetPositions.sequence] on a soft sequence of the asserted shape
    returns an array of shape (N, design-vocab-size) each of whose rows is
    either the one-hot row of the wildtype token at that position or a row
    of the soft sequence whose variable position denotes that position; and
    the row at a position that some variable position denotes is a row of
    the soft sequence whose variable position denotes it. *)
Theorem SetPositions_sequence_row_provenance
    {A : Type} `{SA : Scalar A}
    (TOKENS : list string) (Key : Type)
    (self : SetPositions A Key) (seq : Array2 A) :
  shape seq = (length (variable_positions self), length TOKENS) ->
  exists out,
    SetPositions_sequence TOKENS Key self seq = inr out /\
    shape out = (length (wildtype self), length TOKENS) /\
    (forall j row,
       rows out !! j = Some row ->
       (exists w, wildtype self !! j = Some w /\ row = one_hot w (length TOKENS)) \/
       (exists k p,
          variable_positions self !! k = Some p /\
          norm_index p (length (wildtype self)) = Some j /\
          rows seq !! k = Some row)) /\
    (forall k p j,
       variable_positions self !! k = Some p ->
       norm_index p (length (wildtype self)) = Some j ->
       exists k' p',
         variable_positions self !! k' = Some p' /\
         norm_index p' (length (wildtype self)) = Some j /\
         rows out !! j = rows seq !! k').
Proof.
  intros Hshape. unfold shape in Hshape. inversion Hshape as [[Hn Hc]].
  unfold SetPositions_sequence.
  rewrite <- Hn, <- Hc. rewrite broadcast_to_same. simpl bind. rewrite Hc.
  eexists. split; [reflexivity|]. simpl rows. simpl ncols.
  rewrite scatter_rows_fold. rewrite length_map. split; [|split].
  - unfold shape, nrows. simpl. by rewrite scatter_fold_length, length_map.
  - intros j row Hrow.
    apply scatter_fold_provenance in Hrow as [Hbase | (k & p & Hk & Hp)].
    + left. rewrite list_lookup_fmap in Hbase.
      destruct (wildtype self !! j) as [w|]; [|done].
      exists w. split; [done|]. simpl in Hbase. congruence.
    + right. exists k, p.
      apply lookup_zip_with_Some in Hk as (p' & v & [= <- <-] & Hp' & Hv). done.
  - intros k p j Hp Hj.
    assert (k < length (rows seq)) as Hk.
    { unfold nrows in Hn. rewrite Hn. by eapply lookup_lt_Some. }
    destruct (lookup_lt_is_Some_2 _ _ Hk) as [v Hv].
    destruct (scatter_fold_written_some (length (wildtype self)) j
                (zip (variable_positions self) (rows seq))
                (map (fun x => one_hot x (length TOKENS)) (wildtype self)) k p v)
      as (k' & p' & v' & Hk' & Hp' & Hout).
    + by rewrite length_map.
    + apply lookup_zip_with_Some. by exists p, v.
    + done.
    + apply lookup_zip_with_Some in Hk' as (p'' & v'' & [= <- <-] & Hp'' & Hv'').
      exists k', p'. rewrite Hv''. done.
Qed.

Lemma SetPositions_sequence_row_provenance_witness :
  exists out : Array2 R,
    SetPositions_sequence TOKENS20 unit
      (mkSetPositions [4; 0; 7]%Z [1; 1]%Z (fun _ _ => inr (0%R, ∅)))
      (one_hot_rows [9; 11]%Z 20) = inr out /\
    shape out = (3, 20).
Proof.
  destruct (SetPositions_sequence_row_provenance TOKENS20 unit
              (mkSetPositions [4; 0; 7]%Z [1; 1]%Z (fun _ _ => inr (0%R, ∅)))
              (one_hot_rows (A:=R) [9; 11]%Z 20))
    as (out & Hout & Hshape & _); [reflexivity|].
  exists out. split; [exact Hout|exact Hshape].
Defined.

Lemma s_sum_one_hot_from (x : Z) (k : nat) :
  forall s : nat,
    s_sum (map (fun j : nat => if decide (x = Z.of_nat j) then 1%R else 0%R) (seq s k))
    = if decide (Z.of_nat s <= x < Z.of_nat (s + k))%Z then 1%R else 0%R.
Proof.
  induction k as [|k IH]; intros s.
  - simpl. rewrite decide_False by lia. reflexivity.
  - cbn [seq map s_sum foldr]. change (foldr s_add s_zero) with (s_sum (A:=R)).
    rewrite IH. change (@s_add R R_scalar) with Rplus.
    repeat case_decide; try lia; lra.
Qed.

Lemma s_sum_one_hot (x : Z) (k : nat) :
  (0 <= x < Z.of_nat k)%Z -> s_sum (one_hot (A:=R) x k) = 1%R.
Proof.
  intros Hx. unfold one_hot.
  change (@s_one R R_scalar) with 1%R. change (@s_zero R R_scalar) with 0%R.
  rewrite s_sum_one_hot_from. by rewrite decide_True by lia.
Qed.

(** X17.  When every wildtype token is a design token index and every row of
    the soft sequence is a row of probabilities over the design vocabulary,
    every row of what [SetPositions.sequence] returns is a row of
    probabilities over the design vocabulary, whatever the variable
    positions are. *)
Theorem SetPositions_sequence_probability_rows
    (TOKENS : list string) (Key : Type)
    (self : SetPositions R Key) (seq : Array2 R) :
  shape seq = (length (variable_positions self), length TOKENS) ->
  Forall (fun w => (0 <= w < Z.of_nat (length TOKENS))%Z) (wildtype self) ->
  Forall (probability_row (length TOKENS)) (rows seq) ->
  exists out,
    SetPositions_sequence TOKENS Key self seq = inr out /\
    shape out = (length (wildtype self), length TOKENS) /\
    Forall (probability_row (length TOKENS)) (rows out).
Proof.
  intros Hshape Hw Hseq. unfold shape in Hshape. inversion Hshape as [[Hn Hc]].
  unfold SetPositions_sequence.
  rewrite <- Hn, <- Hc. rewrite broadcast_to_same. simpl bind. rewrite Hc.
  eexists. split; [reflexivity|]. simpl rows. simpl ncols.
  rewrite scatter_rows_fold. rewrite length_map. split.
  - unfold shape, nrows. simpl. by rewrite scatter_fold_length, length_map.
  - apply scatter_fold_Forall.
    + apply Forall_fmap. eapply Forall_impl; [exact Hw|].
      intros w Hw'. simpl. split; [apply one_hot_length|].
      split; [apply one_hot_nonneg|by apply s_sum_one_hot].
    + apply Forall_forall. intros [p v] Hin. cbn [snd].
      apply list_elem_of_lookup in Hin as [k Hk].
      apply lookup_zip_with_Some in Hk as (p' & v' & [= <- <-] & _ & Hv).
      rewrite Forall_forall in Hseq. apply Hseq. by eapply list_elem_of_lookup_2.
Qed.

Lemma SetPositions_sequence_probability_rows_witness :
  exists out : Array2 R,
    SetPositions_sequence TOKENS20 unit
      (mkSetPositions [4; 0; 7]%Z [1]%Z (fun _ _ => inr (0%R, ∅)))
      (one_hot_rows [9]%Z 20) = inr out /\
    Forall (probability_row 20) (rows out).
Proof.
  destruct (SetPositions_sequence_probability_rows TOKENS20 unit
              (mkSetPositions [4; 0; 7]%Z [1]%Z (fun _ _ => inr (0%R, ∅)))
              (one_hot_rows (A:=R) [9]%Z 20))
    as (out & Hout & _ & Hrows).
  - reflexivity.
  - cbn [wildtype]. repeat (constructor; [simpl; lia|]). constructor.
  - cbn [rows one_hot_rows map]. constructor; [|constructor].
    split; [apply one_hot_length|].
    split; [apply one_hot_nonneg|apply s_sum_one_hot; simpl; lia].
  - exists out. split; [exact Hout|exact Hrows].
Defined.

(** X18.  [SetPositions.sequence] has no shape check of its own: a soft
    sequence of one row is broadcast to every variable position, so that the
    row at every position a variable position denotes is that one row,
    while [SetPositions.__call__] refuses the same input with an assertion
    error unless there is exactly one variable position, before the loss is
    called. *)
Theorem SetPositions_sequence_broadcasts_call_asserts
    {A : Type} `{SA : Scalar A}
    (TOKENS : list string) (Key : Type)
    (self : SetPositions A Key) (row : list A) (key : Key) :
  length row = length TOKENS ->
  length (variable_positions self) <> 1 ->
  SetPositions_call TOKENS Key self (mkArray2 (length TOKENS) [row]) key
  = inl AssertionError /\
  exists out,
    SetPositions_sequence TOKENS Key self (mkArray2 (length TOKENS) [row]) = inr out /\
    shape out = (length (wildtype self), length TOKENS) /\
    forall k p j,
      variable_positions self !! k = Some p ->
      norm_index p (length (wildtype self)) = Some j ->
      rows out !! j = Some row.
Proof.
  intros Hrow HM. split.
  - unfold SetPositions_call. rewrite decide_False; [done|].
    unfold shape, nrows. cbn [rows ncols length]. intros [= HM']. by apply HM.
  - unfold SetPositions_sequence, broadcast_to.
    rewrite decide_True by (split; [by right|by left]).
    unfold stretch2. cbn [ncols rows]. rewrite decide_True by done.
    rewrite stretch_singleton. simpl bind.
    eexists. split; [reflexivity|]. simpl rows. simpl ncols.
    rewrite scatter_rows_fold. rewrite length_map. split.
    + unfold shape, nrows. simpl. by rewrite scatter_fold_length, length_map.
    + intros k p j Hp Hj.
      destruct (scatter_fold_written_some (length (wildtype self)) j
                  (zip (variable_positions self)
                       (replicate (length (variable_positions self)) row))
                  (map (fun x => one_hot x (length TOKENS)) (wildtype self)) k p row)
        as (k' & p' & v' & Hk' & _ & Hout).
      * by rewrite length_map.
      * apply lookup_zip_with_Some. exists p, row. split; [done|]. split; [done|].
        apply lookup_replicate_2. by eapply lookup_lt_Some.
      * done.
      * apply lookup_zip_with_Some in Hk' as (p'' & v'' & [= <- <-] & _ & Hv'').
        apply lookup_replicate in Hv'' as [-> _]. exact Hout.
Qed.

Lemma SetPositions_sequence_broadcasts_call_asserts_witness :
  SetPositions_call TOKENS20 unit
    (mkSetPositions [4; 0; 7]%Z [0; 2]%Z (fun _ _ => inr (0%R, ∅)))
    (mkArray2 20 [one_hot 9 20]) tt
  = inl AssertionError.
Proof.
  apply (SetPositions_sequence_broadcasts_call_asserts TOKENS20 unit
           (mkSetPositions [4; 0; 7]%Z [0; 2]%Z (fun _ _ => inr (0%R, ∅)))
           (one_hot (A:=R) 9 20) tt).
  - reflexivity.
  - cbn [variable_positions length]. lia.
Defined.

(** ** [SetPositions.from_sequence] *)

Lemma list_index_inr (l : list string) (x : string) (i : nat) :
  list_index l x = inr i <->
  l !! i = Some x /\ forall i', i' < i -> l !! i' <> Some x.
Proof.
  unfold list_index. destruct (list_find (fun y => y = x) l) as [[i0 y]|] eqn:Hfind.
  - apply list_find_Some in Hfind as (Hi0 & -> & Hfirst). split.
    + intros [= <-]. split; [done|]. intros i' Hi' Hx. by apply (Hfirst i' x).
    + intros [Hi Hmin]. f_equal.
      destruct (Nat.lt_trichotomy i0 i) as [Hlt | [Heq | Hgt]]; [|done|].
      * by destruct (Hmin i0 Hlt).
      * by destruct (Hfirst i x Hi Hgt).
  - split; [done|]. intros [Hi _].
    apply list_find_None in Hfind. rewrite Forall_forall in Hfind.
    destruct (Hfind x); [by eapply list_elem_of_lookup_2|done].
Qed.

Lemma list_index_inl (l : list string) (x : string) (e : py_exn) :
  list_index l x = inl e <-> e = ValueError x /\ x ∉ l.
Proof.
  unfold list_index. destruct (list_find (fun y => y = x) l) as [[i0 y]|] eqn:Hfind.
  - apply list_find_Some in Hfind as (Hi0 & -> & _). split; [done|].
    intros [_ Hnot]. destruct Hnot. by eapply list_elem_of_lookup_2.
  - apply list_find_None in Hfind. rewrite Forall_forall in Hfind. split.
    + intros [= <-]. split; [done|]. intros Hin. by apply (Hfind x).
    + by intros [-> _].
Qed.

Lemma list_index_elem (l : list string) (x : string) :
  x ∈ l -> exists i, list_index l x = inr i.
Proof.
  intros Hin. destruct (list_index l x) as [e|i] eqn:Hidx; [|by exists i].
  apply list_index_inl in Hidx as [_ Hnot]. done.
Qed.

Lemma comprehension_inr {X Y : Type} (f : X -> py_exn + Y) (xs : list X) (ys : list Y) :
  comprehension f xs = inr ys <-> Forall2 (fun x y => f x = inr y) xs ys.
Proof.
  revert ys. induction xs as [|x xs IH]; intros ys; simpl.
  - split; [intros [= <-]; constructor|]. intros Hall. apply Forall2_nil_inv_l in Hall. by subst.
  - unfold bind_ext. destruct (f x) as [e|y] eqn:Hfx.
    + split; [done|]. intros Hall. apply Forall2_cons_inv_l in Hall as (y & ys' & Hy & _ & _).
      congruence.
    + destruct (comprehension f xs) as [e|ys'] eqn:Hrest.
      * split; [done|]. intros Hall.
        apply Forall2_cons_inv_l in Hall as (y' & ys' & _ & Hys' & _).
        apply IH in Hys'. done.
      * split.
        -- intros [= <-]. constructor; [done|]. by apply IH.
        -- intros Hall. apply Forall2_cons_inv_l in Hall as (y' & ys'' & Hy' & Hys'' & ->).
           apply IH in Hys''. congruence.
Qed.

(** The exception of a comprehension is that of the first element whose body
    raises. *)
Lemma comprehension_inl {X Y : Type} (f : X -> py_exn + Y) (pre : list X) (x : X)
    (post : list X) (e : py_exn) :
  Forall (fun x' => exists y, f x' = inr y) pre ->
  f x = inl e ->
  comprehension f (pre ++ x :: post) = inl e.
Proof.
  intros Hpre Hx. induction Hpre as [|x' pre [y Hy] _ IH]; simpl.
  - by rewrite Hx.
  - rewrite Hy. simpl. by rewrite IH.
Qed.

Lemma enumerate_elem_of {X : Type} (l : list X) (i : nat) (x : X) :
  (i, x) ∈ enumerate l <-> l !! i = Some x.
Proof.
  unfold enumerate. rewrite elem_of_lookup_imap. split.
  - intros (i' & x' & [= -> ->] & Hl). done.
  - intros Hl. by exists i, x.
Qed.

(** The positions that [enumerate] pairs with the elements, kept by a
    filter on the elements, are increasing. *)
Lemma enumerate_filter_sorted (P : string -> Prop) `{!forall x, Decision (P x)}
    (cs : list string) :
  forall k : nat,
    StronglySorted lt
      (map fst (filter (fun ix : nat * string => P (snd ix))
                  (imap (fun i x => (k + i, x)) cs))).
Proof.
  induction cs as [|c cs IH]; intros k; [constructor|].
  rewrite imap_cons.
  rewrite (imap_ext _ (fun i x => (S k + i, x))) by (intros i x _; simpl; f_equal; lia).
  rewrite filter_cons. destruct (decide (P (snd (k + 0, c)))) as [Hc|Hc]; [|apply IH].
  cbn [map fst]. constructor; [apply IH|].
  apply Forall_forall. intros i Hi.
  apply list_elem_of_fmap in Hi as ([i' x] & -> & Hin).
  apply list_elem_of_filter in Hin as [_ Hin].
  apply elem_of_lookup_imap in Hin as (i0 & x0 & [= -> ->] & _). simpl. lia.
Qed.

(** X19.  [SetPositions.from_sequence] on a wildtype all of whose characters
    are design symbols returns a loss term that keeps the given loss, whose
    wildtype tokens are, character by character, the first index of the
    character in the design vocabulary (so that the vocabulary at the token
    is the character again), and whose variable positions are exactly the
    positions of the character X, in increasing order. *)
Theorem SetPositions_from_sequence_returns
    {A : Type} (TOKENS : list string) (Key : Type)
    (wt : string) (l : LossTerm A Key) :
  (forall c, c ∈ chars wt -> c ∈ TOKENS) ->
  exists (ts ps : list nat),
    SetPositions_from_sequence TOKENS Key wt l
    = inr (mkSetPositions (map Z.of_nat ts) (map Z.of_nat ps) l) /\
    Forall2 (fun c t => TOKENS !! t = Some c /\ forall t', t' < t -> TOKENS !! t' <> Some c)
      (chars wt) ts /\
    StronglySorted lt ps /\
    (forall i, i ∈ ps <-> chars wt !! i = Some "X").
Proof.
  intros Hall. unfold SetPositions_from_sequence.
  destruct (comprehension (list_index TOKENS) (chars wt)) as [e|ts] eqn:Hts.
  - exfalso. assert (Forall (fun c => exists t, list_index TOKENS c = inr t) (chars wt)) as Hok.
    { apply Forall_forall. intros c Hc. by apply list_index_elem, Hall. }
    clear Hall. revert e Hts. induction Hok as [|c cs [t Ht] _ IH]; intros e; simpl; [done|].
    rewrite Ht. simpl. destruct (comprehension (list_index TOKENS) cs) as [e'|ts'] eqn:Hcs.
    + by destruct (IH e').
    + done.
  - cbn [bind_ext].
    exists ts, (map fst (filter (fun iAA : nat * string => snd iAA = "X") (enumerate (chars wt)))).
    split; [reflexivity|]. split; [|split].
    + apply comprehension_inr in Hts. eapply Forall2_impl; [exact Hts|].
      intros c t Hct. by apply list_index_inr.
    + exact (enumerate_filter_sorted (fun x => x = "X") (chars wt) 0).
    + intros i. rewrite list_elem_of_fmap. split.
      * intros ([i' x] & -> & Hin). apply list_elem_of_filter in Hin as [Hx Hin].
        simpl in Hx. subst x. by apply enumerate_elem_of in Hin.
      * intros Hi. exists (i, "X"). split; [done|].
        apply list_elem_of_filter. split; [done|]. by apply enumerate_elem_of.
Qed.

Lemma SetPositions_from_sequence_returns_witness :
  exists ts ps : list nat,
    SetPositions_from_sequence (TOKENS20 ++ ["X"]) unit "AXRX" (fun (_ : Array2 R) _ => inr (0%R, ∅))
    = inr (mkSetPositions (map Z.of_nat ts) (map Z.of_nat ps) (fun _ _ => inr (0%R, ∅))) /\
    StronglySorted lt ps.
Proof.
  destruct (SetPositions_from_sequence_returns (A:=R) (TOKENS20 ++ ["X"]) unit "AXRX"
              (fun _ _ => inr (0%R, ∅)))
    as (ts & ps & Hret & _ & Hsorted & _).
  - intros c Hc. change (chars "AXRX") with ["A"; "X"; "R"; "X"] in Hc.
    repeat (apply elem_of_cons in Hc as [-> | Hc];
            [apply (bool_decide_unpack _); vm_compute; exact I|]).
    by apply elem_of_nil in Hc.
  - exists ts, ps. split; [exact Hret|exact Hsorted].
Defined.

(** X20.  [SetPositions.from_sequence] raises the [ValueError] of the first
    character of the wildtype that is no design symbol; so, when X is no
    design symbol, it returns no loss term with a variable position: a
    wildtype with an X raises, and what is returned for a wildtype without
    one has no variable position. *)
Theorem SetPositions_from_sequence_absent_symbol
    {A : Type} (TOKENS : list string) (Key : Type)
    (wt : string) (l : LossTerm A Key) :
  (forall pre c post,
     chars wt = pre ++ c :: post ->
     (forall c', c' ∈ pre -> c' ∈ TOKENS) ->
     c ∉ TOKENS ->
     SetPositions_from_sequence TOKENS Key wt l = inl (ValueError c)) /\
  ("X" ∉ TOKENS ->
   forall sp,
     SetPositions_from_sequence TOKENS Key wt l = inr sp ->
     variable_positions sp = [] /\ "X" ∉ chars wt).
Proof.
  split.
  - intros pre c post Hsplit Hpre Hc. unfold SetPositions_from_sequence.
    rewrite Hsplit. rewrite (comprehension_inl _ pre c post (ValueError c)); [done| |].
    + apply Forall_forall. intros c' Hc'. by apply list_index_elem, Hpre.
    + by apply list_index_inl.
  - intros HX sp Hsp. unfold SetPositions_from_sequence in Hsp.
    destruct (comprehension (list_index TOKENS) (chars wt)) as [e|ts] eqn:Hts; [done|].
    cbn [bind_ext] in Hsp. injection Hsp as <-. cbn [variable_positions].
    apply comprehension_inr in Hts.
    assert ("X" ∉ chars wt) as Hno.
    { intros Hin. apply list_elem_of_lookup in Hin as [i Hi].
      destruct (Forall2_lookup_l _ _ _ _ _ Hts Hi) as (t & _ & Ht).
      apply list_index_inr in Ht as [Ht _]. apply HX. by eapply list_elem_of_lookup_2. }
    split; [|done].
    destruct (filter _ (enumerate (chars wt))) as [|[i x] rest] eqn:Hfilter; [done|].
    exfalso. assert ((i, x) ∈ filter (fun iAA : nat * string => snd iAA = "X")
                                 (enumerate (chars wt))) as Hin.
    { rewrite Hfilter. by apply elem_of_cons; left. }
    apply list_elem_of_filter in Hin as [Hx Hin]. simpl in Hx. subst x.
    apply enumerate_elem_of in Hin. apply Hno. by eapply list_elem_of_lookup_2.
Qed.

Lemma SetPositions_from_sequence_absent_symbol_witness :
  SetPositions_from_sequence TOKENS20 unit "AXC" (fun (_ : Array2 R) _ => inr (0%R, ∅))
  = inl (ValueError "X").
Proof.
  destruct (SetPositions_from_sequence_absent_symbol (A:=R) TOKENS20 unit "AXC"
              (fun _ _ => inr (0%R, ∅))) as [Hfirst _].
  apply (Hfirst ["A"] "X" ["C"]).
  - reflexivity.
  - intros c Hc. apply list_elem_of_singleton in Hc as ->.
    apply (bool_decide_unpack _). vm_compute. exact I.
  - apply (bool_decide_unpack _). vm_compute. exact I.
Defined.

Lemma StronglySorted_lt_lookup_inj (ps : list nat) :
  StronglySorted lt ps ->
  forall k1 k2 i, ps !! k1 = Some i -> ps !! k2 = Some i -> k1 = k2.
Proof.
  induction 1 as [|p ps _ IH Hp]; intros k1 k2 i H1 H2; [done|].
  rewrite Forall_forall in Hp.
  destruct k1 as [|k1], k2 as [|k2]; simpl in H1, H2.
  - done.
  - injection H1 as <-. apply list_elem_of_lookup_2, Hp in H2. lia.
  - injection H2 as <-. apply list_elem_of_lookup_2, Hp in H1. lia.
  - f_equal. by eapply IH.
Qed.

(** What [SetPositions.from_sequence] returns, when it returns. *)
Lemma SetPositions_from_sequence_inv
    {A : Type} (TOKENS : list string) (Key : Type)
    (wt : string) (l : LossTerm A Key) (sp : SetPositions A Key) :
  SetPositions_from_sequence TOKENS Key wt l = inr sp ->
  exists ts ps : list nat,
    sp = mkSetPositions (map Z.of_nat ts) (map Z.of_nat ps) l /\
    Forall2 (fun c t => TOKENS !! t = Some c) (chars wt) ts /\
    StronglySorted lt ps /\
    (forall i, i ∈ ps <-> chars wt !! i = Some "X").
Proof.
  intros Hsp. unfold SetPositions_from_sequence in Hsp.
  destruct (comprehension (list_index TOKENS) (chars wt)) as [e|ts] eqn:Hts; [done|].
  cbn [bind_ext] in Hsp. injection Hsp as <-.
  exists ts, (map fst (filter (fun iAA : nat * string => snd iAA = "X") (enumerate (chars wt)))).
  split; [reflexivity|]. split; [|split].
  - apply comprehension_inr in Hts. eapply Forall2_impl; [exact Hts|].
    intros c t Hct. by apply list_index_inr in Hct as [Hct _].
  - exact (enumerate_filter_sorted (fun x => x = "X") (chars wt) 0).
  - intros i. rewrite list_elem_of_fmap. split.
    + intros ([i' x] & -> & Hin). apply list_elem_of_filter in Hin as [Hx Hin].
      simpl in Hx. subst x. by apply enumerate_elem_of in Hin.
    + intros Hi. exists (i, "X"). split; [done|].
      apply list_elem_of_filter. split; [done|]. by apply enumerate_elem_of.
Qed.

(** X21.  [SetPositions.sequence] of what [SetPositions.from_sequence]
    returns for a wildtype with at least one X: on a soft sequence with one
    row for each X, the result has one row for each character of the
    wildtype; the row at a character that is not X is the one-hot row of a
    design token index at which the vocabulary holds that character, and the
    row at the [k]-th X from the left is row [k] of the soft sequence.
    (Without an X, [jnp.array] of the empty list of positions is a float
    array, which cannot index.) *)
Theorem SetPositions_from_sequence_then_sequence
    {A : Type} `{SA : Scalar A}
    (TOKENS : list string) (Key : Type)
    (wt : string) (l : LossTerm A Key) (sp : SetPositions A Key) (seq : Array2 A) :
  SetPositions_from_sequence TOKENS Key wt l = inr sp ->
  "X" ∈ chars wt ->
  shape seq = (length (variable_positions sp), length TOKENS) ->
  exists out,
    SetPositions_sequence TOKENS Key sp seq = inr out /\
    shape out = (length (chars wt), length TOKENS) /\
    (forall i c,
       chars wt !! i = Some c -> c <> "X" ->
       exists t, TOKENS !! t = Some c /\
                 rows out !! i = Some (one_hot (Z.of_nat t) (length TOKENS))) /\
    (forall k p,
       variable_positions sp !! k = Some p ->
       exists i, p = Z.of_nat i /\ chars wt !! i = Some "X" /\
                 rows out !! i = rows seq !! k) /\
    (forall i,
       chars wt !! i = Some "X" ->
       exists k, variable_positions sp !! k = Some (Z.of_nat i)).
Proof.
  intros Hsp _ Hshape.
  apply SetPositions_from_sequence_inv in Hsp as (ts & ps & -> & Hts & Hsorted & Hps).
  cbn [variable_positions] in Hshape.
  unfold shape in Hshape. inversion Hshape as [[Hn Hc]].
  assert (length ts = length (chars wt)) as Hlen by (symmetry; by eapply Forall2_length).
  assert (forall i, i ∈ ps -> norm_index (Z.of_nat i) (length (map Z.of_nat ts)) = Some i) as Hnorm.
  { intros i Hi. apply norm_index_of_nat. rewrite length_map, Hlen.
    apply Hps in Hi. by eapply lookup_lt_Some. }
  unfold SetPositions_sequence. cbn [variable_positions wildtype].
  rewrite <- Hn, <- Hc. rewrite broadcast_to_same. simpl bind. rewrite Hc.
  eexists. split; [reflexivity|]. simpl rows. simpl ncols.
  rewrite scatter_rows_fold. rewrite (length_map (fun x => one_hot x (length TOKENS))).
  split; [|split; [|split]].
  - unfold shape, nrows. simpl. by rewrite scatter_fold_length, !length_map, Hlen.
  - intros i c Hi Hc'.
    destruct (Forall2_lookup_l _ _ _ _ _ Hts Hi) as (t & Ht & HTt).
    exists t. split; [done|]. rewrite scatter_fold_untouched.
    + by rewrite !list_lookup_fmap, Ht.
    + intros [p v] Hin. cbn [fst].
      apply list_elem_of_lookup in Hin as [k Hk].
      apply lookup_zip_with_Some in Hk as (p' & v' & [= <- <-] & Hp & _).
      rewrite list_lookup_fmap in Hp.
      destruct (ps !! k) as [i'|] eqn:Hi'; [|done]. injection Hp as <-.
      assert (i' ∈ ps) as Hin by (by eapply list_elem_of_lookup_2).
      rewrite (Hnorm i' Hin). intros [= ->]. apply Hps in Hin. congruence.
  - intros k p Hp. rewrite list_lookup_fmap in Hp.
    destruct (ps !! k) as [i|] eqn:Hi; [|done]. injection Hp as <-.
    assert (i ∈ ps) as Hin by (by eapply list_elem_of_lookup_2).
    exists i. split; [done|]. split; [by apply Hps|].
    assert (k < length (rows seq)) as Hk.
    { unfold nrows in Hn. rewrite Hn, length_map. by eapply lookup_lt_Some. }
    destruct (lookup_lt_is_Some_2 _ _ Hk) as [v Hv]. rewrite Hv.
    apply (scatter_fold_written _ _ _ _ k (Z.of_nat i) v).
    + by rewrite length_map.
    + apply lookup_zip_with_Some. exists (Z.of_nat i), v.
      split; [done|]. split; [|done]. by rewrite list_lookup_fmap, Hi.
    + by apply Hnorm.
    + intros k' [p' v'] Hk' Hj'. cbn [fst] in Hj'.
      apply lookup_zip_with_Some in Hk' as (p'' & v'' & [= <- <-] & Hp' & _).
      rewrite list_lookup_fmap in Hp'.
      destruct (ps !! k') as [i'|] eqn:Hi'; [|done]. injection Hp' as <-.
      assert (i' ∈ ps) as Hin' by (by eapply list_elem_of_lookup_2).
      rewrite (Hnorm i' Hin') in Hj'. injection Hj' as ->.
      by eapply StronglySorted_lt_lookup_inj.
  - intros i Hi. apply Hps in Hi. apply list_elem_of_lookup in Hi as [k Hk].
    exists k. by rewrite list_lookup_fmap, Hk.
Qed.

Lemma SetPositions_from_sequence_then_sequence_witness :
  exists out : Array2 R,
    SetPositions_sequence (TOKENS20 ++ ["X"]) unit
      (mkSetPositions [0; 20; 1; 20]%Z [1; 3]%Z (fun _ _ => inr (0%R, ∅)))
      (one_hot_rows [9; 11]%Z 21) = inr out /\
    shape out = (4, 21).
Proof.
  destruct (SetPositions_from_sequence_then_sequence (TOKENS20 ++ ["X"]) unit "AXRX"
              (fun _ _ => inr (0%R, ∅))
              (mkSetPositions [0; 20; 1; 20]%Z [1; 3]%Z (fun _ _ => inr (0%R, ∅)))
              (one_hot_rows (A:=R) [9; 11]%Z 21))
    as (out & Hout & Hshape & _).
  - reflexivity.
  - apply (bool_decide_unpack _). vm_compute. exact I.
  - reflexivity.
  - exists out. split; [exact Hout|exact Hshape].
Defined.

(** ** [FixedPositionsPenalty.from_residues] *)

Section FromResidues.

Context {A : Type} `{SA : Scalar A}.
Variable TOKENS : list string.

Lemma nth_insert {X : Type} (l : list X) (i j : nat) (x d : X) :
  i < length l ->
  nth j (<[i := x]> l) d = if decide (j = i) then x else nth j l d.
Proof.
  intros Hi. rewrite !nth_lookup. destruct (decide (j = i)) as [->|Hne].
  - by rewrite list_lookup_insert_eq.
  - by rewrite list_lookup_insert_ne.
Qed.

Lemma from_residues_loop_app (pre post : list (Z * string)) :
  forall (mask : list bool) (T : Array2 A),
    from_residues_loop TOKENS (pre ++ post) mask T
    = (r <~ from_residues_loop TOKENS pre mask T ;;
       from_residues_loop TOKENS post (fst r) (snd r)).
Proof.
  induction pre as [|[idx AA] pre IH]; intros mask T; [done|].
  cbn [app from_residues_loop].
  destruct (setitem1 mask idx true) as [e|mask1]; [done|]. cbn [bind_ext].
  destruct (list_index TOKENS AA) as [e|col]; [done|]. cbn [bind_ext].
  destruct (lift_exn (setitem2z T idx (Z.of_nat col) s_one)) as [e|T1]; [done|].
  cbn [bind_ext]. apply IH.
Qed.

(** One accepted element: the mask and the target after it. *)
Lemma from_residues_step (n : nat) (idx : Z) (AA : string) (mask : list bool) (T : Array2 A) :
  length mask = n -> nrows T = n -> ncols T = length TOKENS -> wf_array T ->
  residue_ok TOKENS n (idx, AA) ->
  exists j v r,
    residue_cell TOKENS n (idx, AA) = Some (j, v) /\
    j < n /\ v < length TOKENS /\
    rows T !! j = Some r /\
    setitem1 mask idx true = inr (<[j := true]> mask) /\
    list_index TOKENS AA = inr v /\
    setitem2z T idx (Z.of_nat v) s_one
    = inr (mkArray2 (ncols T) (<[j := <[v := s_one]> r]> (rows T))).
Proof.
  intros Hmask Hn Hc Hwf [[j Hj] HAA]. cbn [fst snd] in Hj, HAA.
  destruct (list_index_elem TOKENS AA HAA) as [v Hv].
  assert (j < n) as Hjn by (by eapply norm_index_lt).
  assert (v < length TOKENS) as Hvn.
  { apply list_index_inr in Hv as [Hv _]. by eapply lookup_lt_Some. }
  destruct (lookup_lt_is_Some_2 (rows T) j) as [r Hr]; [unfold nrows in Hn; lia|].
  exists j, v, r. unfold residue_cell, setitem1, setitem2z, setitem2. cbn [fst snd].
  rewrite Hmask, Hn, Hj, Hv, Hr, Hc, (norm_index_of_nat v) by done. done.
Qed.

(** The loop on accepted elements: it returns, and what the mask and the
    target hold afterwards. *)
Lemma from_residues_loop_spec (n : nat) (d : A) (pas : list (Z * string)) :
  forall (mask : list bool) (T : Array2 A),
    length mask = n -> nrows T = n -> ncols T = length TOKENS -> wf_array T ->
    Forall (residue_ok TOKENS n) pas ->
    exists mask' T',
      from_residues_loop TOKENS pas mask T = inr (mask', T') /\
      length mask' = n /\ nrows T' = n /\ ncols T' = length TOKENS /\ wf_array T' /\
      (forall j, j < n -> nth j mask' false = nth j mask false || touchedb n pas j) /\
      (forall j v, j < n -> v < length TOKENS ->
         entry d T' j v = if listedb TOKENS n pas j v then s_one else entry d T j v).
Proof.
  induction pas as [|[idx AA] pas IH]; intros mask T Hmask Hn Hc Hwf Hok.
  - exists mask, T. repeat split; try done.
    intros j _. simpl. by rewrite orb_false_r.
  - apply Forall_cons in Hok as [Hpa Hok].
    destruct (from_residues_step n idx AA mask T Hmask Hn Hc Hwf Hpa)
      as (j0 & v0 & r & Hcell & Hj0 & Hv0 & Hr & Hset1 & Hidx & Hset2).
    assert (length r = length TOKENS) as Hlr.
    { unfold wf_array in Hwf. rewrite Forall_forall in Hwf. rewrite <- Hc.
      apply Hwf. by eapply list_elem_of_lookup_2. }
    destruct (IH (<[j0 := true]> mask)
                 (mkArray2 (ncols T) (<[j0 := <[v0 := s_one]> r]> (rows T))))
      as (mask' & T' & Hloop & Hmask' & Hn' & Hc' & Hwf' & Hm & Ht).
    + by rewrite length_insert.
    + unfold nrows. cbn [rows]. by rewrite length_insert.
    + done.
    + unfold wf_array. cbn [rows ncols]. apply Forall_insert; [done|].
      rewrite length_insert. congruence.
    + done.
    + exists mask', T'. cbn [from_residues_loop].
      rewrite Hset1. cbn [bind_ext]. rewrite Hidx. cbn [bind_ext].
      rewrite Hset2. cbn [lift_exn bind_ext].
      split; [done|]. repeat split; try done.
      * intros j Hj. rewrite (Hm j Hj). rewrite nth_insert by lia.
        unfold touchedb. cbn [existsb fst].
        unfold residue_cell in Hcell. cbn [fst snd] in Hcell.
        destruct (norm_index idx n) as [j1|] eqn:Hj1; [|done].
        rewrite Hidx in Hcell. injection Hcell as ->.
        destruct (decide (j = j0)) as [->|Hne].
        -- rewrite bool_decide_eq_true_2 by done. by rewrite orb_true_r.
        -- rewrite bool_decide_eq_false_2 by congruence. done.
      * intros j v Hj Hv. rewrite (Ht j v Hj Hv).
        unfold listedb. cbn [existsb]. rewrite Hcell.
        destruct (existsb _ pas) eqn:Hrest; [by rewrite orb_true_r|].
        rewrite orb_false_r. unfold entry. cbn [rows].
        unfold nrows in Hn.
        rewrite (nth_insert (rows T)) by lia.
        destruct (decide (j = j0)) as [->|Hne].
        -- rewrite nth_insert by lia.
           rewrite (nth_lookup (rows T)), Hr. cbn [from_option].
           destruct (decide (v = v0)) as [->|Hnev].
           ++ by rewrite bool_decide_eq_true_2.
           ++ rewrite bool_decide_eq_false_2 by congruence. done.
        -- rewrite bool_decide_eq_false_2 by congruence. done.
Qed.

End FromResidues.

Lemma entry_np_zeros {A : Type} `{SA : Scalar A} (d : A) (n m j v : nat) :
  j < n -> v < m -> entry d (np_zeros n m) j v = s_zero.
Proof.
  intros Hj Hv. unfold entry, np_zeros. cbn [rows].
  rewrite (nth_lookup (replicate n _)), lookup_replicate_2 by done. cbn [from_option].
  unfold Datatypes.id. by rewrite nth_lookup, lookup_replicate_2.
Qed.

Lemma wf_np_zeros {A : Type} `{SA : Scalar A} (n m : nat) : wf_array (np_zeros (A:=A) n m).
Proof.
  unfold wf_array, np_zeros. cbn [rows ncols]. apply Forall_forall. intros r Hr.
  apply elem_of_replicate in Hr as [-> _]. apply length_replicate.
Qed.

(** X22.  [FixedPositionsPenalty.from_residues] on a nonnegative length and
    on residues each of which has a position in range (negative positions
    counting from the end) and a design symbol returns a penalty whose mask
    has the given length and is true exactly at the positions that some
    residue denotes, and whose target has shape (length, design-vocab-size)
    and holds a 1 exactly in the cells (position, first index of the symbol)
    of the residues, 0 elsewhere; a position listed with two symbols gets
    two ones in its row. *)
Theorem FixedPositionsPenalty_from_residues_returns
    {A : Type} `{SA : Scalar A}
    (TOKENS : list string) (sequence_length : Z) (pas : list (Z * string)) :
  (0 <= sequence_length)%Z ->
  Forall (residue_ok TOKENS (Z.to_nat sequence_length)) pas ->
  exists fp : FixedPositionsPenalty A,
    FixedPositionsPenalty_from_residues TOKENS sequence_length pas = inr fp /\
    length (position_mask fp) = Z.to_nat sequence_length /\
    shape (target fp) = (Z.to_nat sequence_length, length TOKENS) /\
    wf_array (target fp) /\
    (forall j, j < Z.to_nat sequence_length ->
       nth j (position_mask fp) false = touchedb (Z.to_nat sequence_length) pas j) /\
    (forall j v, j < Z.to_nat sequence_length -> v < length TOKENS ->
       entry s_zero (target fp) j v
       = if listedb TOKENS (Z.to_nat sequence_length) pas j v then s_one else s_zero).
Proof.
  intros Hlen Hok. unfold FixedPositionsPenalty_from_residues.
  rewrite decide_False by lia. cbv zeta.
  set (n := Z.to_nat sequence_length) in *.
  destruct (from_residues_loop_spec TOKENS n s_zero pas (replicate n false)
              (np_zeros n (length TOKENS)))
    as (mask' & T' & Hloop & Hmask' & Hn' & Hc' & Hwf' & Hm & Ht).
  - apply length_replicate.
  - unfold nrows, np_zeros. cbn [rows]. apply length_replicate.
  - reflexivity.
  - apply wf_np_zeros.
  - exact Hok.
  - rewrite Hloop. cbn [bind_ext fst snd].
    eexists. split; [reflexivity|]. cbn [position_mask target].
    split; [done|]. split; [unfold shape; congruence|]. split; [done|]. split.
    + intros j Hj. rewrite (Hm j Hj).
      by rewrite nth_lookup, lookup_replicate_2.
    + intros j v Hj Hv. rewrite (Ht j v Hj Hv). by rewrite entry_np_zeros.
Qed.

Lemma FixedPositionsPenalty_from_residues_returns_witness :
  exists fp : FixedPositionsPenalty R,
    FixedPositionsPenalty_from_residues TOKENS20 3 [(0, "R"); (-1, "A")]%Z = inr fp /\
    length (position_mask fp) = 3.
Proof.
  destruct (FixedPositionsPenalty_from_residues_returns (A:=R) TOKENS20 3
              [(0, "R"); (-1, "A")]%Z)
    as (fp & Hfp & Hlen & _).
  - lia.
  - repeat constructor; try (by eexists);
      apply (bool_decide_unpack _); vm_compute; exact I.
  - exists fp. split; [exact Hfp|exact Hlen].
Defined.

(** X23.  What [FixedPositionsPenalty.from_residues] raises: the
    [ValueError] of [np.zeros] on a negative length, before any residue is
    read; otherwise, at the first residue that is not accepted, an
    [IndexError] when its position is out of range, whatever its symbol, and
    the [ValueError] of [TOKENS.index] when its position is in range and its
    symbol is one character that is no design symbol.  (At a longer or an
    empty string, [TOKENS.index] of a [TOKENS] held as a [str] searches for a
    substring; nothing is stated there.) *)
Theorem FixedPositionsPenalty_from_residues_raises
    {A : Type} `{SA : Scalar A}
    (TOKENS : list string) (sequence_length : Z) (pas : list (Z * string)) :
  ((sequence_length < 0)%Z ->
   FixedPositionsPenalty_from_residues (A:=A) TOKENS sequence_length pas
   = inl (ValueError "negative dimensions are not allowed")) /\
  ((0 <= sequence_length)%Z ->
   forall pre idx AA post,
     pas = pre ++ (idx, AA) :: post ->
     Forall (residue_ok TOKENS (Z.to_nat sequence_length)) pre ->
     (norm_index idx (Z.to_nat sequence_length) = None ->
      FixedPositionsPenalty_from_residues (A:=A) TOKENS sequence_length pas
      = inl (Exn IndexError)) /\
     (is_Some (norm_index idx (Z.to_nat sequence_length)) ->
      String.length AA = 1 -> AA ∉ TOKENS ->
      FixedPositionsPenalty_from_residues (A:=A) TOKENS sequence_length pas
      = inl (ValueError AA))).
Proof.
  split.
  - intros Hneg. unfold FixedPositionsPenalty_from_residues. by rewrite decide_True.
  - intros Hlen pre idx AA post -> Hpre.
    unfold FixedPositionsPenalty_from_residues.
    rewrite decide_False by lia. cbv zeta.
    set (n := Z.to_nat sequence_length) in *.
    destruct (from_residues_loop_spec TOKENS n s_zero pre (replicate n false)
                (np_zeros n (length TOKENS)))
      as (mask' & T' & Hloop & Hmask' & Hn' & Hc' & Hwf' & _).
    + apply length_replicate.
    + unfold nrows, np_zeros. cbn [rows]. apply length_replicate.
    + reflexivity.
    + apply wf_np_zeros.
    + exact Hpre.
    + rewrite from_residues_loop_app, Hloop. cbn [bind_ext fst snd from_residues_loop].
      unfold setitem1. rewrite Hmask'. split.
      * intros ->. done.
      * intros [j Hj] _ HAA. rewrite Hj. cbn [bind_ext].
        assert (list_index TOKENS AA = inl (ValueError AA)) as ->; [|done].
        by apply list_index_inl.
Qed.

Lemma FixedPositionsPenalty_from_residues_raises_witness :
  FixedPositionsPenalty_from_residues (A:=R) TOKENS20 3 [(0, "R"); (3, "B")]%Z
  = inl (Exn IndexError) /\
  FixedPositionsPenalty_from_residues (A:=R) TOKENS20 3 [(0, "R"); (-1, "B")]%Z
  = inl (ValueError "B").
Proof.
  split.
  - destruct (FixedPositionsPenalty_from_residues_raises (A:=R) TOKENS20 3
                [(0, "R"); (3, "B")]%Z) as [_ Hraise].
    destruct (Hraise ltac:(lia) [(0, "R")]%Z 3%Z "B" []) as [Hindex _].
    + reflexivity.
    + repeat constructor; try (by eexists);
        apply (bool_decide_unpack _); vm_compute; exact I.
    + apply Hindex. reflexivity.
  - destruct (FixedPositionsPenalty_from_residues_raises (A:=R) TOKENS20 3
                [(0, "R"); (-1, "B")]%Z) as [_ Hraise].
    destruct (Hraise ltac:(lia) [(0, "R")]%Z (-1)%Z "B" []) as [_ Hvalue].
    + reflexivity.
    + repeat constructor; try (by eexists);
        apply (bool_decide_unpack _); vm_compute; exact I.
    + apply Hvalue.
      * by eexists.
      * reflexivity.
      * apply (bool_decide_unpack _). vm_compute. exact I.
Defined.

(** X24.  [FixedPositionsPenalty.__call__] of what
    [FixedPositionsPenalty.from_residues] returns: on a sequence of shape
    (length, design-vocab-size) the loss is nonnegative, and it is 0 exactly
    when, at every position that some residue denotes, the sequence holds 1
    in the cells of the residues of that position and 0 in the other cells;
    the rows at the other positions are free. *)
Theorem FixedPositionsPenalty_from_residues_then_call
    (TOKENS : list string) (Key : Type) (sequence_length : Z) (pas : list (Z * string))
    (seq : Array2 R) (key : Key) :
  (0 <= sequence_length)%Z ->
  Forall (residue_ok TOKENS (Z.to_nat sequence_length)) pas ->
  wf_array seq ->
  shape seq = (Z.to_nat sequence_length, length TOKENS) ->
  exists (fp : FixedPositionsPenalty R) (r : R),
    FixedPositionsPenalty_from_residues TOKENS sequence_length pas = inr fp /\
    FixedPositionsPenalty_call Key fp seq key
    = inr (r, {[ "fixed_position_penalty" := r ]}) /\
    (0 <= r)%R /\
    (r = 0%R <->
     forall j v, j < Z.to_nat sequence_length -> v < length TOKENS ->
       touchedb (Z.to_nat sequence_length) pas j = true ->
       entry 0%R seq j v
       = if listedb TOKENS (Z.to_nat sequence_length) pas j v then 1%R else 0%R).
Proof.
  intros Hlen Hok Hwf Hshape. unfold FixedPositionsPenalty_from_residues.
  rewrite decide_False by lia. cbv zeta.
  set (n := Z.to_nat sequence_length) in *.
  destruct (from_residues_loop_spec TOKENS n 0%R pas (replicate n false)
              (np_zeros n (length TOKENS)))
    as (mask' & T' & Hloop & Hmask' & Hn' & Hc' & Hwf' & Hm & Ht).
  - apply length_replicate.
  - unfold nrows, np_zeros. cbn [rows]. apply length_replicate.
  - reflexivity.
  - apply wf_np_zeros.
  - exact Hok.
  - rewrite Hloop. cbn [bind_ext fst snd].
    assert (nrows seq = n /\ ncols seq = length TOKENS) as [Hn Hc].
    { unfold shape in Hshape. by injection Hshape. }
    destruct (FixedPositionsPenalty_call_sum Key (mkFixedPositionsPenalty mask' T') seq key)
      as (r & Hcall & Hr).
    + done.
    + done.
    + unfold shape. cbn [target]. congruence.
    + cbn [position_mask]. congruence.
    + cbn [position_mask target] in Hr. rewrite Hn, Hc in Hr.
      assert (forall j, j < n -> nth j mask' false = touchedb n pas j) as Hm'.
      { intros j Hj. rewrite (Hm j Hj). by rewrite nth_lookup, lookup_replicate_2. }
      assert (forall j v, j < n -> v < length TOKENS ->
                entry 0%R T' j v = if listedb TOKENS n pas j v then 1%R else 0%R) as Ht'.
      { intros j v Hj Hv. rewrite (Ht j v Hj Hv). by rewrite entry_np_zeros. }
      eexists _, r. split; [reflexivity|]. split; [exact Hcall|]. subst r. split; [|split].
      * apply big_sum_nonneg. intros j _. cbv beta.
        destruct (nth j mask' false); [|lra].
        apply big_sum_nonneg. intros v _. cbv beta.
        apply (Rle_0_sqr (entry 0 seq j v - entry 0 T' j v)%R).
      * intros Hzero j v Hj Hv Htouched.
        apply big_sum_zero_inv with (j := j) in Hzero; [|clear Hzero|done].
        2:{ intros j' Hj'. cbv beta.
            destruct (nth j' mask' false); [|lra].
            apply big_sum_nonneg. intros v' _. cbv beta.
            apply (Rle_0_sqr (entry 0 seq j' v' - entry 0 T' j' v')%R). }
        cbv beta in Hzero. rewrite (Hm' j Hj), Htouched in Hzero.
        apply big_sum_zero_inv with (j := v) in Hzero; [|clear Hzero|done].
        2:{ intros v' Hv'. cbv beta.
            apply (Rle_0_sqr (entry 0 seq j v' - entry 0 T' j v')%R). }
        cbv beta in Hzero. rewrite <- (Ht' j v Hj Hv). nra.
      * intros Heq. apply big_sum_zero. intros j Hj. cbv beta.
        rewrite (Hm' j Hj). destruct (touchedb n pas j) eqn:Htouched; [|done].
        apply big_sum_zero. intros v Hv. cbv beta.
        rewrite (Heq j v Hj Hv Htouched), (Ht' j v Hj Hv). lra.
Qed.

Lemma FixedPositionsPenalty_from_residues_then_call_witness :
  exists (fp : FixedPositionsPenalty R) (r : R),
    FixedPositionsPenalty_from_residues TOKENS20 2 [(0, "R")]%Z = inr fp /\
    FixedPositionsPenalty_call unit fp (one_hot_rows [1; 7]%Z 20) tt
    = inr (r, {[ "fixed_position_penalty" := r ]}) /\
    (0 <= r)%R.
Proof.
  destruct (FixedPositionsPenalty_from_residues_then_call TOKENS20 unit 2 [(0, "R")]%Z
              (one_hot_rows [1; 7]%Z 20) tt)
    as (fp & r & Hfp & Hcall & Hr & _).
  - lia.
  - repeat constructor; try (by eexists);
      apply (bool_decide_unpack _); vm_compute; exact I.
  - repeat constructor.
  - reflexivity.
  - exists fp, r. split; [exact Hfp|]. split; [exact Hcall|exact Hr].
Defined.
